(** * pyosmium: [osmium/file_processor.py]

    A shallow embedding of [FileProcessor] (configuration and the
    single-pass / two-pass iterator) and of [zip_processors] (the
    lockstep merge of several sorted object streams), together with the
    properties of these functions.

    Python objects that are mutated in place ([_CompIter], the
    [FileProcessor] instance, the location table, the area manager) are
    modelled by explicit state passing; generators are modelled as state
    machines that are resumed once per [next()] call. *)

From Stdlib Require Import ZArith List String Bool Lia Sorted Permutation.
Import ListNotations.
Open Scope Z_scope.

(** ** Exceptions and fallible results *)

Inductive exn :=
| ValueError                 (* min() of an empty sequence *)
| TypeError                  (* comparison with / subscript of None, bad argument type *)
| KeyError                   (* dict lookup of a missing key *)
| RuntimeError (msg : string)
| ExternalError (code : Z).  (* raised inside an osmium collaborator, [code]
                                standing for the exception and its message
                                (the errors of osmium's readers are
                                RuntimeErrors of Python) *)

Inductive result (A : Type) :=
| Ok (a : A)
| Raise (e : exn).
Arguments Ok {A} a.
Arguments Raise {A} e.

Definition bind {A B} (r : result A) (k : A -> result B) : result B :=
  match r with
  | Ok a => k a
  | Raise e => Raise e
  end.

Notation "x <- c ;; k" := (bind c (fun x => k))
  (at level 61, c at next level, right associativity).
Notation "' p <- c ;; k" := (bind c (fun x => let p := x in k))
  (at level 61, p pattern, c at next level, right associativity).

(** ** OSM objects as seen by this module

    The module only uses [type_str()] and [id] of an object.  The item
    type is osmium's enumeration; [type_str] gives its one-letter name. *)

Inductive item_type := node | way | relation | area | changeset.

Definition type_str (t : item_type) : string :=
  match t with
  | node => "n" | way => "w" | relation => "r" | area => "a" | changeset => "c"
  end%string.

(** A Python dict with string keys, in insertion order. *)
Fixpoint dict_get {V} (d : list (string * V)) (k : string) : option V :=
  match d with
  | [] => None
  | (k', v) :: d' => if String.eqb k' k then Some v else dict_get d' k
  end.

(** [TID = {'n': 0, 'w': 1, 'r': 2, 'a': 3, 'c': 4}] *)
Definition TID : list (string * Z) :=
  [("n", 0); ("w", 1); ("r", 2); ("a", 3); ("c", 4)]%string.

(** Composite keys are Python tuples [(type rank, id)], compared
    lexicographically. *)
Definition Key := (Z * Z)%type.

Definition key_eqb (a b : Key) : bool :=
  (fst a =? fst b) && (snd a =? snd b).

Definition key_ltb (a b : Key) : bool :=
  (fst a <? fst b) || ((fst a =? fst b) && (snd a <? snd b)).

Definition key_lt (a b : Key) : Prop :=
  fst a < fst b \/ (fst a = fst b /\ snd a < snd b).

Definition key_le (a b : Key) : Prop := key_lt a b \/ a = b.

(** [(100, 0)]: "end of file marker. larger than any ID" *)
Definition END_MARKER : Key := (100, 0).

(** [self.comp == nextid], where either side may be [None]. *)
Definition comp_eqb (a b : option Key) : bool :=
  match a, b with
  | None, None => true
  | Some x, Some y => key_eqb x y
  | _, _ => false
  end.

(** [a < b] on values that may be [None]: comparing with [None] raises. *)
Definition py_lt (a b : option Key) : result bool :=
  match a, b with
  | Some x, Some y => Ok (key_ltb x y)
  | _, _ => Raise TypeError
  end.

(** Outcome of resuming a generator once. *)
Inductive signal (A : Type) :=
| Yielded (a : A)
| StopIteration
| Raised (e : exn).
Arguments Yielded {A} a.
Arguments StopIteration {A}.
Arguments Raised {A} e.

(** The value [zip_processors] yields is a generator expression; it holds
    no data of its own (see [force] below). *)
Inductive genexpr := GenExpr.

(** How a complete consumption of a generator ended. *)
Inductive ending := Finished | Failed (e : exn).

(** What the merge uses of an object: [type_str()] (through the item
    type) and [id]. *)
Class OsmObject (Obj : Type) := {
  otype : Obj -> item_type;
  oid : Obj -> Z
}.

Section Merge.

Variable Obj : Type.
Context {K : OsmObject Obj}.

(** *** [_CompIter] *)

Record CompIter := mkCompIter {
  iter_ : list Obj;          (* what [self.iter] has not produced yet *)
  current : option Obj;
  comp : option Key
}.

(** [__init__] *)
Definition CompIter_init (fp : list Obj) : CompIter :=
  {| iter_ := fp; current := None; comp := None |}.

(** [val] *)
Definition CompIter_val (c : CompIter) (nextid : option Key) : option Obj :=
  if comp_eqb (comp c) nextid then current c else None.

(** [next]: returns the updated cursor and the returned [self.comp]. *)
Definition CompIter_next (c : CompIter) (nextid : option Key)
  : result (CompIter * option Key) :=
  if comp_eqb (comp c) nextid then
    match iter_ c with
    | [] =>
        Ok ({| iter_ := []; current := None; comp := Some END_MARKER |},
            Some END_MARKER)
    | o :: rest =>
        match dict_get TID (type_str (otype o)) with
        | None => Raise KeyError
        | Some t =>
            Ok ({| iter_ := rest; current := Some o; comp := Some (t, oid o) |},
                Some (t, oid o))
        end
    end
  else Ok (c, comp c).

(** *** [min(i.next(nextid) for i in iters)]

    [min] pulls the generator expression one item at a time, so cursor
    [j] is advanced before the comparison with the best value so far;
    the first smallest value is kept. *)
Fixpoint min_rest (best : option Key) (cs : list CompIter) (nextid : option Key)
  : result (list CompIter * option Key) :=
  match cs with
  | [] => Ok ([], best)
  | c :: cs' =>
      '(c', k) <- CompIter_next c nextid ;;
      b <- py_lt k best ;;
      '(cs'', m) <- min_rest (if b then k else best) cs' nextid ;;
      Ok (c' :: cs'', m)
  end.

Definition min_next (cs : list CompIter) (nextid : option Key)
  : result (list CompIter * option Key) :=
  match cs with
  | [] => Raise ValueError
  | c :: cs' =>
      '(c', k) <- CompIter_next c nextid ;;
      '(cs'', m) <- min_rest k cs' nextid ;;
      Ok (c' :: cs'', m)
  end.

(** [nextid[0] < 100] *)
Definition loop_test (nextid : option Key) : result bool :=
  match nextid with
  | None => Raise TypeError
  | Some k => Ok (fst k <? 100)
  end.

(** *** The generator [zip_processors]

    Its frame holds [iters] and [nextid]; it is suspended either before
    its first statement or at the [yield] inside the loop. *)
Inductive zip_pc := ZStart | ZAtYield | ZDone.

Record zip_frame := mkZip {
  zpc : zip_pc;
  procs : list (list Obj);
  iters : list CompIter;
  nextid : option Key
}.

Definition zip_init (ps : list (list Obj)) : zip_frame :=
  {| zpc := ZStart; procs := ps; iters := []; nextid := None |}.

Definition zip_dead (f : zip_frame) : zip_frame :=
  {| zpc := ZDone; procs := procs f; iters := iters f; nextid := nextid f |}.

(** One [next()] on the generator: run up to the next [yield]. *)
Definition zip_resume (f : zip_frame) : signal genexpr * zip_frame :=
  match zpc f with
  | ZDone => (StopIteration, f)
  | pc =>
      let cs := match pc with ZStart => map CompIter_init (procs f) | _ => iters f end in
      let nid := match pc with ZStart => None | _ => nextid f end in
      match min_next cs nid with
      | Raise e => (Raised e, zip_dead f)
      | Ok (cs', m) =>
          match loop_test m with
          | Raise e =>
              (Raised e, {| zpc := ZDone; procs := procs f; iters := cs'; nextid := m |})
          | Ok true =>
              (Yielded GenExpr, {| zpc := ZAtYield; procs := procs f; iters := cs'; nextid := m |})
          | Ok false =>
              (StopIteration, {| zpc := ZDone; procs := procs f; iters := cs'; nextid := m |})
          end
      end
  end.

(** The yielded value is the generator expression
    [(i.val(nextid) for i in iters)].  It is lazy: its items are computed
    from the cursors and from the frame variable [nextid] as they are
    when the consumer reads them. *)
Definition force (f : zip_frame) : list (option Obj) :=
  map (fun i => CompIter_val i (nextid f)) (iters f).

(** A consumer that reads every yielded value before asking for the
    next one ([for a, b in zip_processors(p, q): ...]). *)
Fixpoint zip_collect (fuel : nat) (f : zip_frame)
  : option (list (list (option Obj)) * ending) :=
  match fuel with
  | O => None
  | S fuel' =>
      match zip_resume f with
      | (Yielded GenExpr, f') =>
          match zip_collect fuel' f' with
          | Some (rows, e) => Some (force f' :: rows, e)
          | None => None
          end
      | (StopIteration, _) => Some ([], Finished)
      | (Raised e, _) => Some ([], Failed e)
      end
  end.

(** A consumer that first exhausts the generator and only then reads the
    values it was given ([list(zip_processors(p, q))]). *)
Fixpoint zip_collect_late (fuel : nat) (f : zip_frame)
  : option (nat * zip_frame * ending) :=
  match fuel with
  | O => None
  | S fuel' =>
      match zip_resume f with
      | (Yielded GenExpr, f') =>
          match zip_collect_late fuel' f' with
          | Some (n, g, e) => Some (S n, g, e)
          | None => None
          end
      | (StopIteration, f') => Some (O, f', Finished)
      | (Raised e, f') => Some (O, f', Failed e)
      end
  end.

Definition total_length (ps : list (list Obj)) : nat :=
  fold_right (fun p n => (List.length p + n)%nat) O ps.

(** [zip_processors], called on the streams [ps] and consumed to the end. *)
Definition zip_processors (ps : list (list Obj))
  : option (list (list (option Obj)) * ending) :=
  zip_collect (S (total_length ps)) (zip_init ps).

End Merge.

Arguments mkCompIter {Obj} _ _ _.
Arguments iter_ {Obj} _.
Arguments current {Obj} _.
Arguments comp {Obj} _.
Arguments CompIter_init {Obj} _.
Arguments CompIter_val {Obj} _ _.
Arguments CompIter_next {Obj} {K} _ _.
Arguments min_rest {Obj} {K} _ _ _.
Arguments min_next {Obj} {K} _ _.
Arguments mkZip {Obj} _ _ _ _.
Arguments zpc {Obj} _.
Arguments procs {Obj} _.
Arguments iters {Obj} _.
Arguments nextid {Obj} _.
Arguments zip_init {Obj} _.
Arguments zip_dead {Obj} _.
Arguments zip_resume {Obj} {K} _.
Arguments force {Obj} _.
Arguments zip_collect {Obj} {K} _ _.
Arguments zip_collect_late {Obj} {K} _ _.
Arguments total_length {Obj} _.
Arguments zip_processors {Obj} {K} _.

(** ** Vocabulary for the statements about the merge *)

(** The value [TID] holds for the type string of an item type. *)
Definition rank (t : item_type) : Z :=
  match t with
  | node => 0 | way => 1 | relation => 2 | area => 3 | changeset => 4
  end.

Definition kmin (best k : Key) : Key := if key_ltb k best then k else best.

Definition key_eq_dec (a b : Key) : {a = b} + {a <> b}.
Proof. decide equality; apply Z.eq_dec. Defined.

Section MergeSpec.

Variable Obj : Type.
Context {K : OsmObject Obj}.

(** The composite key of an object: [(TID[o.type_str()], o.id)]. *)
Definition key_of (o : Obj) : Key := (rank (otype o), oid o).

Definition keys_of (s : list Obj) : list Key := map key_of s.

(** A stream is sorted ascending when no key is followed by a smaller
    one; strictly ascending when in addition no key is repeated. *)
Definition ascending (s : list Obj) : Prop :=
  StronglySorted key_le (keys_of s).

Definition strictly_ascending (s : list Obj) : Prop :=
  StronglySorted key_lt (keys_of s).

Definition all_keys (ps : list (list Obj)) : list Key :=
  flat_map keys_of ps.

(** The record of stream [s] at key [k], if there is one. *)
Definition lookup (k : Key) (s : list Obj) : option Obj :=
  find (fun o => key_eqb (key_of o) k) s.

(** The tuple expected for key [k]: slot [i] is stream [i]'s record at
    [k], or the absence marker. *)
Definition aligned_row (k : Key) (ps : list (list Obj)) : list (option Obj) :=
  map (lookup k) ps.

(** One tuple per distinct key present in some stream, each of them the
    aligned tuple of its key. *)
Definition merge_aligned (ps : list (list Obj)) (rows : list (list (option Obj)))
  : Prop :=
  exists ks : list Key,
    NoDup ks /\
    (forall k, In k ks <-> In k (all_keys ps)) /\
    rows = map (fun k => aligned_row k ps) ks.

(** Key [k] appears in a tuple when one of its slots holds a record with
    that key. *)
Definition appears_in (k : Key) (row : list (option Obj)) : Prop :=
  exists o, In (Some o) row /\ key_of o = k.

(** *** The cursors seen through what each stream still has to deliver *)

(** The cursor of a stream whose records from the current one on are [p]. *)
Definition cursor_of (p : list Obj) : CompIter Obj :=
  match p with
  | [] => {| iter_ := []; current := None; comp := Some END_MARKER |}
  | o :: rest => {| iter_ := rest; current := Some o; comp := Some (key_of o) |}
  end.

Definition head_key (p : list Obj) : Key :=
  match p with
  | [] => END_MARKER
  | o :: _ => key_of o
  end.

(** Advance a stream whose current key is [m]; leave the others. *)
Definition adv (m : Key) (p : list Obj) : list Obj :=
  if key_eqb (head_key p) m then tl p else p.

Definition slot (m : Key) (p : list Obj) : option Obj :=
  match p with
  | [] => None
  | o :: _ => if key_eqb (key_of o) m then Some o else None
  end.

(** The smallest current key. *)
Definition min_head (ps : list (list Obj)) : Key :=
  match ps with
  | [] => END_MARKER
  | p :: ps' => fold_left kmin (map head_key ps') (head_key p)
  end.

Definition step_streams (ps : list (list Obj)) : list (list Obj) :=
  map (adv (min_head ps)) ps.

(** The lockstep merge on the remaining streams. *)
Fixpoint merge_rows (fuel : nat) (ps : list (list Obj)) : list (list (option Obj)) :=
  match fuel with
  | O => []
  | S n =>
      if fst (min_head ps) <? 100
      then map (slot (min_head ps)) ps :: merge_rows n (step_streams ps)
      else []
  end.

(** The frame of the generator suspended at its [yield], when the
    streams still have [ps] to deliver. *)
Definition frame_at (ps0 ps : list (list Obj)) : zip_frame Obj :=
  {| zpc := ZAtYield; procs := ps0; iters := map cursor_of ps;
     nextid := Some (min_head ps) |}.

(** What a resumption does once the smallest current key is known. *)
Definition after_min (ps0 ps : list (list Obj)) : signal genexpr * zip_frame Obj :=
  if fst (min_head ps) <? 100
  then (Yielded GenExpr, frame_at ps0 ps)
  else (StopIteration,
        {| zpc := ZDone; procs := ps0; iters := map cursor_of ps;
           nextid := Some (min_head ps) |}).

(** The distinct composite keys across all streams. *)
Definition distinct_keys (ps : list (list Obj)) : list Key :=
  nodup key_eq_dec (all_keys ps).

(** The smallest key held by the cursors ([None] when there is no
    cursor or one of them holds no key yet). *)
Definition min_comp (cs : list (CompIter Obj)) : option Key :=
  match cs with
  | [] => None
  | c :: cs' =>
      fold_left (fun b c' => match b, comp c' with
                             | Some x, Some y => Some (kmin x y)
                             | _, _ => None
                             end) cs' (comp c)
  end.

(** The frames the generator goes through when started on [ps]. *)
Inductive reachable (ps : list (list Obj)) : zip_frame Obj -> Prop :=
| reach_init : reachable ps (zip_init ps)
| reach_resume (f f' : zip_frame Obj) (sig : signal genexpr) :
    reachable ps f ->
    zip_resume f = (sig, f') ->
    reachable ps f'.

End MergeSpec.

Arguments key_of {Obj} {K} _.
Arguments keys_of {Obj} {K} _.
Arguments ascending {Obj} {K} _.
Arguments strictly_ascending {Obj} {K} _.
Arguments all_keys {Obj} {K} _.
Arguments lookup {Obj} {K} _ _.
Arguments aligned_row {Obj} {K} _ _.
Arguments merge_aligned {Obj} {K} _ _.
Arguments appears_in {Obj} {K} _ _.
Arguments cursor_of {Obj} {K} _.
Arguments head_key {Obj} {K} _.
Arguments adv {Obj} {K} _ _.
Arguments slot {Obj} {K} _ _.
Arguments min_head {Obj} {K} _.
Arguments step_streams {Obj} {K} _.
Arguments merge_rows {Obj} {K} _ _.
Arguments frame_at {Obj} {K} _ _.
Arguments after_min {Obj} {K} _ _.
Arguments distinct_keys {Obj} {K} _.
Arguments min_comp {Obj} _.
Arguments reachable {Obj} {K} _ _.

(** *** Concrete records for the examples: (type, id, version) *)

Definition Rec := (item_type * Z * Z)%type.
Definition rec_type (r : Rec) : item_type := fst (fst r).
Definition rec_id (r : Rec) : Z := snd (fst r).

#[local] Instance Rec_object : OsmObject Rec :=
  {| otype := rec_type; oid := rec_id |}.

(** The scenario streams A = [(node,1), (node,3)], B = [(node,2), (node,3)]. *)
Definition stream_A : list Rec := [(node, 1, 1); (node, 3, 1)].
Definition stream_B : list Rec := [(node, 2, 1); (node, 3, 2)].

(** A history extract: two versions of node 1, then way 7. *)
Definition stream_history : list Rec := [(node, 1, 1); (node, 1, 2); (way, 7, 1)].

(** ** [FileProcessor] *)

(** Modelled from the spec: the entity flags of [osmium.osm] are not
    defined in this file.  The EntityMask is "a set of record-type flags
    (node, way, relation, area, changeset)"; the flags are taken as the
    bits of osmium's [osm_entity_bits]. *)
Definition osm_NODE : Z := 1.
Definition osm_WAY : Z := 2.
Definition osm_RELATION : Z := 4.
Definition osm_AREA : Z := 8.
Definition osm_CHANGESET : Z := 16.
Definition osm_ALL : Z := 31.

Definition type_bit (t : item_type) : Z :=
  match t with
  | node => osm_NODE | way => osm_WAY | relation => osm_RELATION
  | area => osm_AREA | changeset => osm_CHANGESET
  end.

Definition no_nodes_msg : string :=
  "Nodes not read from file. Cannot enable location cache.".

(** The collaborators of the module (section 6 of the specification):
    the objects read, the location table and its factory, the
    location handler, and the two passes of the area manager.  They are
    not in this file and are taken as parameters; their mutable state is
    passed explicitly. *)
Class Osmium := {
  Entity : Type;
  entity_type : Entity -> item_type;
  LocationTable : Type;
  AreaManager : Type;
  (* [osmium.index.create_map(name)]; raises on an unknown name *)
  create_map : string -> result LocationTable;
  (* [osmium.area.AreaManager()] *)
  new_area_manager : AreaManager;
  (* [NodeLocationsForWays(table)] with [ignore_errors()]: records node
     locations, annotates the object, never raises *)
  locations_for_ways : LocationTable -> Entity -> LocationTable * Entity;
  (* [first_pass_handler()] *)
  first_pass : AreaManager -> Entity -> AreaManager;
  (* [second_pass_to_buffer(buffer)]: the areas completed by an object,
     and those completed by the flush at the end of the input *)
  second_pass : AreaManager -> Entity -> AreaManager * list Entity;
  second_pass_flush : AreaManager -> AreaManager * list Entity
}.

Section Processor.

Context {osmium : Osmium}.

(** One read from a data source: an object, or a failure of the read. *)
Inductive read :=
| ReadObj (o : Entity)
| ReadError (code : Z).

(** A file is what reading it from the start produces. *)
Definition File := list read.

(** Modelled from the spec: [osmium.io.Reader] is not in this file.  The
    spec's RecordSource "opens a data file and exposes a forward-only
    reader restricted to a requested entity-type mask", with [close()].
    [pending] is what the reads from the reader give from now on, one
    after the other; [closed] tells whether it was closed.  The reads
    are of single objects, as the records of the spec are (osmium
    fetches them in buffers, which the model leaves out).

    The spec leaves reading after the end undefined ("re-iterating after
    exhaustion is undefined unless the underlying RecordSource is
    reopened").  osmium's reader has a status: once it has reached the
    end of its input (eof) or a read has failed (error), every further
    read raises an error of osmium's.  So all that is left to read of
    such a reader is that error, [spent]. *)
Record Reader := mkReader {
  pending : list read;
  closed : bool
}.

(** The error osmium raises when a reader in status eof or error is
    read. *)
Definition reader_status_error : Z := -1.

Definition spent : list read := [ReadError reader_status_error].

(** What is left to read after a read that gave [r] and left [rest]
    unread: [rest] after an object, and nothing but the error of a
    reader in status eof or error after the end of the input or a
    failed read. *)
Definition left_to_read {A : Type} (r : result (option A)) (rest : list read)
  : list read :=
  match r with
  | Ok (Some _) => rest
  | Ok None => spent
  | Raise _ => spent
  end.

Definition in_mask (entities : Z) (r : read) : bool :=
  match r with
  | ReadObj o => negb (Z.land entities (type_bit (entity_type o)) =? 0)
  | ReadError _ => true
  end.

(** [osmium.io.Reader(file, entities)] *)
Definition Reader_open (file : File) (entities : Z) : Reader :=
  {| pending := filter (in_mask entities) file; closed := false |}.

Definition Reader_close (r : Reader) : Reader :=
  {| pending := pending r; closed := true |}.

(** A filter function; [true] means that the object is filtered out. *)
Definition Filter := Entity -> bool.

Record FileProcessor := mkFileProcessor {
  _file : File;
  _reader : Reader;
  _entities : Z;
  _node_store : option LocationTable;
  _area_handler : option AreaManager;
  _filters : list Filter
}.

Definition set_node_store (self : FileProcessor) (s : option LocationTable)
  : FileProcessor :=
  {| _file := _file self; _reader := _reader self; _entities := _entities self;
     _node_store := s; _area_handler := _area_handler self;
     _filters := _filters self |}.

Definition set_area_handler (self : FileProcessor) (a : option AreaManager)
  : FileProcessor :=
  {| _file := _file self; _reader := _reader self; _entities := _entities self;
     _node_store := _node_store self; _area_handler := a;
     _filters := _filters self |}.

Definition set_filters (self : FileProcessor) (fs : list Filter) : FileProcessor :=
  {| _file := _file self; _reader := _reader self; _entities := _entities self;
     _node_store := _node_store self; _area_handler := _area_handler self;
     _filters := fs |}.

Definition set_reader (self : FileProcessor) (r : Reader) : FileProcessor :=
  {| _file := _file self; _reader := r; _entities := _entities self;
     _node_store := _node_store self; _area_handler := _area_handler self;
     _filters := _filters self |}.

(** The argument of [__init__]: an [osmium.io.File] or [FileBuffer], a
    [str] or [Path] (the file it names being [contents]), one of these
    four that [osmium.io.Reader] fails to open (no such file, unknown
    format) with the error [code] of osmium, or anything else. *)
Inductive filename_arg :=
| ArgFile (f : File)
| ArgFileBuffer (f : File)
| ArgStr (name : string) (contents : File)
| ArgPath (name : string) (contents : File)
| ArgUnreadable (code : Z)
| ArgOther.

(** [__init__] *)
Definition FileProcessor_init (filename : filename_arg) (entities : Z)
  : result FileProcessor :=
  match filename with
  | ArgFile f | ArgFileBuffer f | ArgStr _ f | ArgPath _ f =>
      Ok {| _file := f; _reader := Reader_open f entities; _entities := entities;
            _node_store := None; _area_handler := None; _filters := [] |}
  | ArgUnreadable code => Raise (ExternalError code)
  | ArgOther => Raise TypeError
  end.

(** [node_location_storage] *)
Definition node_location_storage (self : FileProcessor) : option LocationTable :=
  _node_store self.

(** The [storage] argument of [with_locations]. *)
Inductive storage_arg :=
| StorageStr (name : string)
| StorageNone
| StorageTable (t : LocationTable)
| StorageOther.

(** The methods mutate [self]; they return the outcome of the call and
    the state of the object after it (also when the call raises). *)

(** [with_locations] *)
Definition with_locations (storage : storage_arg) (self : FileProcessor)
  : result unit * FileProcessor :=
  if Z.land (_entities self) osm_NODE =? 0 then
    (Raise (RuntimeError no_nodes_msg), self)
  else
    match storage with
    | StorageStr name =>
        match create_map name with
        | Ok t => (Ok tt, set_node_store self (Some t))
        | Raise e => (Raise e, self)
        end
    | StorageNone => (Ok tt, set_node_store self None)
    | StorageTable t => (Ok tt, set_node_store self (Some t))
    | StorageOther => (Raise TypeError, self)
    end.

(** The default of the [storage] parameter. *)
Definition default_storage : storage_arg := StorageStr "flex_mem".

(** [with_areas] *)
Definition with_areas (self : FileProcessor) : result unit * FileProcessor :=
  match _area_handler self with
  | None =>
      let self1 := set_area_handler self (Some new_area_manager) in
      match _node_store self1 with
      | None => with_locations default_storage self1
      | Some _ => (Ok tt, self1)
      end
  | Some _ => (Ok tt, self)
  end.

(** [with_filter] *)
Definition with_filter (filt : Filter) (self : FileProcessor)
  : result unit * FileProcessor :=
  (Ok tt, set_filters self (_filters self ++ [filt])).

(** *** Handler chains

    Modelled from the spec: [osmium.apply], [osmium.OsmFileIterator] and
    [osmium.BufferIterator] are not in this file.  Each takes a chain of
    stages "applied in registration order; a stage may veto (suppress) a
    record or pass it through, possibly transformed"; a record vetoed by
    a stage does not reach the stages after it (section 4.1: internal
    accounting sees the unfiltered stream only when the filters come
    last). *)
Inductive handler :=
| NodeLocationsForWays
| FirstPassHandler
| SecondPassToBuffer
| UserFilter (f : Filter).

(** The mutable objects the stages work on: the location table behind
    [self._node_store], the area manager behind [self._area_handler],
    and the queue of the buffer iterator. *)
Record hstate := mkHState {
  h_store : option LocationTable;
  h_areas : option AreaManager;
  h_buffer : list Entity
}.

(** One stage on one object: the state after it, and the object passed
    on ([None] when the stage vetoes it). *)
Definition apply_handler (h : handler) (w : hstate) (o : Entity)
  : hstate * option Entity :=
  match h with
  | NodeLocationsForWays =>
      match h_store w with
      | Some t =>
          let (t', o') := locations_for_ways t o in
          ({| h_store := Some t'; h_areas := h_areas w; h_buffer := h_buffer w |},
           Some o')
      | None => (w, Some o)
      end
  | FirstPassHandler =>
      match h_areas w with
      | Some a =>
          ({| h_store := h_store w; h_areas := Some (first_pass a o);
              h_buffer := h_buffer w |},
           Some o)
      | None => (w, Some o)
      end
  | SecondPassToBuffer =>
      match h_areas w with
      | Some a =>
          let (a', done) := second_pass a o in
          ({| h_store := h_store w; h_areas := Some a';
              h_buffer := h_buffer w ++ done |},
           Some o)
      | None => (w, Some o)
      end
  | UserFilter f => (w, if f o then None else Some o)
  end.

Fixpoint run_chain (hs : list handler) (w : hstate) (o : Entity)
  : hstate * option Entity :=
  match hs with
  | [] => (w, Some o)
  | h :: hs' =>
      match apply_handler h w o with
      | (w', Some o') => run_chain hs' w' o'
      | (w', None) => (w', None)
      end
  end.

(** The flush at the end of the input. *)
Definition flush_handler (h : handler) (w : hstate) : hstate :=
  match h with
  | SecondPassToBuffer =>
      match h_areas w with
      | Some a =>
          let (a', done) := second_pass_flush a in
          {| h_store := h_store w; h_areas := Some a';
             h_buffer := h_buffer w ++ done |}
      | None => w
      end
  | _ => w
  end.

Definition flush_chain (hs : list handler) (w : hstate) : hstate :=
  fold_left (fun w' h => flush_handler h w') hs w.

(** [osmium.apply], given a reader and the chain [hs]: every object
    read goes through the chain; also returns what is left unread when
    a read fails. *)
Fixpoint apply_ (hs : list handler) (items : list read) (w : hstate)
  : result unit * list read * hstate :=
  match items with
  | [] => (Ok tt, [], flush_chain hs w)
  | ReadError code :: rest => (Raise (ExternalError code), rest, w)
  | ReadObj o :: rest => apply_ hs rest (fst (run_chain hs w o))
  end.

(** [__next__] of an [OsmFileIterator] over a reader and the chain [hs]:
    the next object that the chain lets through ([None]: end of the
    input). *)
Fixpoint OsmFileIterator_next (hs : list handler) (items : list read) (w : hstate)
  : result (option Entity) * list read * hstate :=
  match items with
  | [] => (Ok None, [], flush_chain hs w)
  | ReadError code :: rest => (Raise (ExternalError code), rest, w)
  | ReadObj o :: rest =>
      match run_chain hs w o with
      | (w', Some o') => (Ok (Some o'), rest, w')
      | (w', None) => OsmFileIterator_next hs rest w'
      end
  end.

(** [__next__] of a [BufferIterator] with the chain [hs], on the queue
    [q]: the next queued object that the chain lets through, and what
    is left of the queue. *)
Fixpoint BufferIterator_next (hs : list handler) (q : list Entity) (w : hstate)
  : option Entity * list Entity * hstate :=
  match q with
  | [] => (None, [], w)
  | a :: q' =>
      match run_chain hs w a with
      | (w', Some a') => (Some a', q', w')
      | (w', None) => BufferIterator_next hs q' w'
      end
  end.

(** *** The generator [__iter__] *)

Inductive iter_pc :=
| IStart           (* not started *)
| ISingle          (* inside the [yield from] of single-pass mode *)
| IAfterPrimary    (* at [yield obj] in the loop of pass two *)
| IDrain           (* inside the [yield from buffer_it] of the loop *)
| IFinalDrain      (* inside the [yield from buffer_it] after the loop *)
| IDone.

(** The frame of the generator: [self] (shared with the caller), the
    local [handlers], the reader [rd] of pass one once it exists, and
    the queue of [buffer_it]. *)
Record iter_frame := mkIter {
  ipc : iter_pc;
  self_ : FileProcessor;
  handlers : list handler;
  rd : option Reader;
  buffer_it : list Entity
}.

Definition set_pc (fr : iter_frame) (pc : iter_pc) : iter_frame :=
  {| ipc := pc; self_ := self_ fr; handlers := handlers fr; rd := rd fr;
     buffer_it := buffer_it fr |}.

Definition set_handlers (fr : iter_frame) (hs : list handler) : iter_frame :=
  {| ipc := ipc fr; self_ := self_ fr; handlers := hs; rd := rd fr;
     buffer_it := buffer_it fr |}.

Definition set_rd (fr : iter_frame) (r : option Reader) : iter_frame :=
  {| ipc := ipc fr; self_ := self_ fr; handlers := handlers fr; rd := r;
     buffer_it := buffer_it fr |}.

Definition set_buffer (fr : iter_frame) (q : list Entity) : iter_frame :=
  {| ipc := ipc fr; self_ := self_ fr; handlers := handlers fr; rd := rd fr;
     buffer_it := q |}.

(** The objects of a frame that the stages work on, and their update. *)
Definition world_of (fr : iter_frame) : hstate :=
  {| h_store := _node_store (self_ fr); h_areas := _area_handler (self_ fr);
     h_buffer := buffer_it fr |}.

Definition put_world (fr : iter_frame) (w : hstate) : iter_frame :=
  {| ipc := ipc fr;
     self_ := set_area_handler (set_node_store (self_ fr) (h_store w)) (h_areas w);
     handlers := handlers fr; rd := rd fr; buffer_it := h_buffer w |}.

Definition set_pending (fr : iter_frame) (rest : list read) : iter_frame :=
  {| ipc := ipc fr;
     self_ := set_reader (self_ fr)
                {| pending := rest; closed := closed (_reader (self_ fr)) |};
     handlers := handlers fr; rd := rd fr; buffer_it := buffer_it fr |}.

Definition user_filters (fr : iter_frame) : list handler :=
  map UserFilter (_filters (self_ fr)).

(** [__next__] of the iterator over [self._reader], [handlers] and the
    filters; the end of the input and a failed read leave the reader
    [spent]. *)
Definition next_primary (fr : iter_frame)
  : result (option Entity) * iter_frame :=
  let '(r, rest, w) :=
    OsmFileIterator_next (handlers fr ++ user_filters fr)
                         (pending (_reader (self_ fr))) (world_of fr) in
  (r, set_pending (put_world fr w) (left_to_read r rest)).

(** [__next__] of [buffer_it]. *)
Definition next_buffered (fr : iter_frame) : option Entity * iter_frame :=
  let '(r, q, w) :=
    BufferIterator_next (user_filters fr) (buffer_it fr) (world_of fr) in
  (r, set_buffer (put_world fr w) q).

(** Line 93: [yield from osmium.OsmFileIterator(...)]; [return]. *)
Definition resume_single (fr : iter_frame) : signal Entity * iter_frame :=
  match next_primary fr with
  | (Ok (Some o), fr') => (Yielded o, set_pc fr' ISingle)
  | (Ok None, fr') => (StopIteration, set_pc fr' IDone)
  | (Raise e, fr') => (Raised e, set_pc fr' IDone)
  end.

(** Lines 112-113: [if buffer_it: yield from buffer_it], then the end. *)
Definition resume_final (fr : iter_frame) : signal Entity * iter_frame :=
  match next_buffered fr with
  | (Some a, fr') => (Yielded a, set_pc fr' IFinalDrain)
  | (None, fr') => (StopIteration, set_pc fr' IDone)
  end.

(** Line 106: the [for] statement asks for the next object. *)
Definition resume_loop (fr : iter_frame) : signal Entity * iter_frame :=
  match next_primary fr with
  | (Ok (Some o), fr') => (Yielded o, set_pc fr' IAfterPrimary)
  | (Ok None, fr') =>
      match buffer_it fr' with
      | [] => (StopIteration, set_pc fr' IDone)
      | _ :: _ => resume_final fr'
      end
  | (Raise e, fr') => (Raised e, set_pc fr' IDone)
  end.

(** Line 109: inside [yield from buffer_it]; back to the loop when the
    queue is exhausted. *)
Definition resume_drain (fr : iter_frame) : signal Entity * iter_frame :=
  match next_buffered fr with
  | (Some a, fr') => (Yielded a, set_pc fr' IDrain)
  | (None, fr') => resume_loop fr'
  end.

(** Lines 97-101: pass one.  The reader is closed in the [finally]
    clause, whatever [osmium.apply] did; [osmium.apply] reads it to the
    end of the input or to a failed read, which leaves it [spent]. *)
Definition pass_one (fr : iter_frame) : result unit * iter_frame :=
  let r := Reader_open (_file (self_ fr)) osm_RELATION in
  let '(res, rest, w) :=
    apply_ (user_filters fr ++ [FirstPassHandler]) (pending r) (world_of fr) in
  (res,
   set_rd (put_world fr w)
          (Some (Reader_close {| pending := spent; closed := closed r |}))).

(** Lines 85-106, from the start of the body to the first [yield]. *)
Definition resume_start (fr : iter_frame) : signal Entity * iter_frame :=
  let hs := match _node_store (self_ fr) with
            | Some _ => [NodeLocationsForWays]
            | None => []
            end in
  let fr0 := set_handlers fr hs in
  match _area_handler (self_ fr0) with
  | None => resume_single fr0
  | Some _ =>
      match pass_one fr0 with
      | (Raise e, fr1) => (Raised e, set_pc fr1 IDone)
      | (Ok _, fr1) =>
          resume_loop (set_handlers (set_buffer fr1 []) (hs ++ [SecondPassToBuffer]))
      end
  end.

(** One [next()] on the generator. *)
Definition iter_resume (fr : iter_frame) : signal Entity * iter_frame :=
  match ipc fr with
  | IStart => resume_start fr
  | ISingle => resume_single fr
  | IAfterPrimary =>
      match buffer_it fr with
      | [] => resume_loop fr
      | _ :: _ => resume_drain fr
      end
  | IDrain => resume_drain fr
  | IFinalDrain => resume_final fr
  | IDone => (StopIteration, fr)
  end.

(** [iter(self)] *)
Definition FileProcessor_iter (self : FileProcessor) : iter_frame :=
  {| ipc := IStart; self_ := self; handlers := []; rd := None; buffer_it := [] |}.

(** The consumer that takes everything the generator yields. *)
Fixpoint iter_collect (fuel : nat) (fr : iter_frame)
  : option (list Entity * ending * iter_frame) :=
  match fuel with
  | O => None
  | S fuel' =>
      match iter_resume fr with
      | (Yielded o, fr') =>
          match iter_collect fuel' fr' with
          | Some (out, e, fr'') => Some (o :: out, e, fr'')
          | None => None
          end
      | (StopIteration, fr') => Some ([], Finished, fr')
      | (Raised e, fr') => Some ([], Failed e, fr')
      end
  end.

(** What the consumer and the caller see of a complete iteration: the
    objects yielded, how it ended, and the stages' objects after it. *)
Definition iter_outcome (fuel : nat) (fr : iter_frame)
  : option (list Entity * ending * hstate) :=
  match iter_collect fuel fr with
  | Some (out, e, fr') => Some (out, e, world_of fr')
  | None => None
  end.

(** The frame after [n] resumptions. *)
Fixpoint iter_advance (n : nat) (fr : iter_frame) : iter_frame :=
  match n with
  | O => fr
  | S n' => iter_advance n' (snd (iter_resume fr))
  end.

(** *** What a complete iteration is expected to give *)

(** An object is suppressed when some filter vetoes it. *)
Definition suppressed (fs : list Filter) (o : Entity) : bool :=
  existsb (fun f => f o) fs.

Definition passing (fs : list Filter) (q : list Entity) : list Entity :=
  filter (fun a => negb (suppressed fs a)) q.

(** What a reader emits before it ends or fails, and how it ends. *)
Fixpoint emitted (items : list read) : list Entity :=
  match items with
  | ReadObj o :: rest => o :: emitted rest
  | _ => []
  end.

Fixpoint read_ending (items : list read) : ending :=
  match items with
  | [] => Finished
  | ReadError code :: _ => Failed (ExternalError code)
  | ReadObj _ :: rest => read_ending rest
  end.

(** The first object of a queue that passes the filters, and the rest
    of the queue after it. *)
Fixpoint buffer_scan (fs : list Filter) (q : list Entity)
  : option Entity * list Entity :=
  match q with
  | [] => (None, [])
  | a :: q' => if suppressed fs a then buffer_scan fs q' else (Some a, q')
  end.

Definition clear_buffer (w : hstate) : hstate :=
  {| h_store := h_store w; h_areas := h_areas w; h_buffer := [] |}.

(** Single-pass mode: every object read goes through the internal
    stages [hs]; it is yielded unless a filter of [fs] suppresses it. *)
Fixpoint single_pass_spec (hs : list handler) (fs : list Filter)
         (items : list read) (w : hstate) : list Entity * ending * hstate :=
  match items with
  | [] => ([], Finished, flush_chain hs w)
  | ReadError code :: _ => ([], Failed (ExternalError code), w)
  | ReadObj o :: rest =>
      match run_chain hs w o with
      | (w', Some o') =>
          let '(out, e, w'') := single_pass_spec hs fs rest w' in
          (if suppressed fs o' then out else o' :: out, e, w'')
      | (w', None) => single_pass_spec hs fs rest w'
      end
  end.

(** Pass two: after each primary object that is yielded, the staging
    buffer is drained, [drain q] being what draining the queue [q]
    yields; the buffer is drained once more when the input is
    exhausted. *)
Fixpoint pass_two_spec (drain : list Entity -> list Entity)
         (hs : list handler) (fs : list Filter)
         (items : list read) (w : hstate) : list Entity * ending * hstate :=
  match items with
  | [] =>
      let w' := flush_chain hs w in
      (drain (h_buffer w'), Finished, clear_buffer w')
  | ReadError code :: _ => ([], Failed (ExternalError code), w)
  | ReadObj o :: rest =>
      match run_chain hs w o with
      | (w', Some o') =>
          if suppressed fs o' then pass_two_spec drain hs fs rest w'
          else
            let '(out, e, w'') := pass_two_spec drain hs fs rest (clear_buffer w') in
            (o' :: drain (h_buffer w') ++ out, e, w'')
      | (w', None) => pass_two_spec drain hs fs rest w'
      end
  end.

(** Pass one: the relations that no filter suppresses are registered
    with the area manager, up to the end of the input or a failed
    read. *)
Fixpoint pass_one_spec (fs : list Filter) (items : list read) (a : AreaManager)
  : AreaManager :=
  match items with
  | ReadObj o :: rest =>
      pass_one_spec fs rest (if suppressed fs o then a else first_pass a o)
  | _ => a
  end.

(** What is left unread after a failed read. *)
Fixpoint unread (items : list read) : list read :=
  match items with
  | [] => []
  | ReadError _ :: rest => rest
  | ReadObj _ :: rest => unread rest
  end.

(** The internal bookkeeping over an input: every object read, up to the
    end of the input or a failed read, goes through the stages [hs];
    filters play no part in it. *)
Fixpoint bookkeeping (hs : list handler) (items : list read) (w : hstate) : hstate :=
  match items with
  | [] => flush_chain hs w
  | ReadError _ :: _ => w
  | ReadObj o :: rest => bookkeeping hs rest (fst (run_chain hs w o))
  end.

(** The stages [__iter__] creates for the location cache. *)
Definition location_handlers (self : FileProcessor) : list handler :=
  match _node_store self with
  | Some _ => [NodeLocationsForWays]
  | None => []
  end.

(** The relations pass one reads. *)
Definition relations_of (self : FileProcessor) : list read :=
  pending (Reader_open (_file self) osm_RELATION).

(** The stages' objects when the iteration starts. *)
Definition initial_world (self : FileProcessor) : hstate :=
  {| h_store := _node_store self; h_areas := _area_handler self; h_buffer := [] |}.

(** The stages' objects when pass two starts, after a pass one that
    left the area manager as [a]. *)
Definition pass_two_world (self : FileProcessor) (a : AreaManager) : hstate :=
  {| h_store := _node_store self; h_areas := Some a; h_buffer := [] |}.

(** Two states of the stages' objects with the same location table and
    the same area manager (the queues may differ). *)
Definition same_books (w1 w2 : hstate) : Prop :=
  h_store w1 = h_store w2 /\ h_areas w1 = h_areas w2.

(** The generator, resumed [n] times or less, yields [out] and ends
    with [e], leaving the stages' objects as [w]. *)
Definition runs (fr : iter_frame) (out : list Entity) (e : ending) (w : hstate)
  : Prop :=
  exists (n : nat) (fr' : iter_frame),
    iter_collect n fr = Some (out, e, fr') /\ world_of fr' = w /\ ipc fr' = IDone.

(** The same, from the outcome of a first resumption. *)
Definition runs_from (first : signal Entity * iter_frame)
           (out : list Entity) (e : ending) (w : hstate) : Prop :=
  match first with
  | (Yielded o, fr) => exists out', out = o :: out' /\ runs fr out' e w
  | (StopIteration, fr) =>
      out = [] /\ e = Finished /\ world_of fr = w /\ ipc fr = IDone
  | (Raised x, fr) =>
      out = [] /\ e = Failed x /\ world_of fr = w /\ ipc fr = IDone
  end.

(** The stages that the iterator itself puts in a chain. *)
Definition internal (h : handler) : Prop :=
  match h with
  | UserFilter _ => False
  | _ => True
  end.

End Processor.

(** *** A small instance of the collaborators, for the examples

    Objects are [(type, id, version)]; the location table lists the ids of
    the nodes recorded; the area manager lists the ids of the relations
    registered in pass one; a way gives the area [2 * id], a registered
    relation the area [2 * id + 1]. *)

Definition sample_create_map (name : string) : result (list Z) :=
  if String.eqb name "flex_mem" then Ok []
  else if String.eqb name "sparse_mem_array" then Ok []
  else Raise (ExternalError 22).

Definition sample_locations (t : list Z) (o : Rec) : list Z * Rec :=
  match rec_type o with
  | node => (rec_id o :: t, o)
  | _ => (t, o)
  end.

Definition sample_second_pass (a : list Z) (o : Rec) : list Z * list Rec :=
  match rec_type o with
  | way => (a, [(area, 2 * rec_id o, snd o)])
  | relation =>
      if existsb (Z.eqb (rec_id o)) a
      then (a, [(area, 2 * rec_id o + 1, snd o)])
      else (a, [])
  | _ => (a, [])
  end.

#[local] Instance sample_osmium : Osmium := {|
  Entity := Rec;
  entity_type := rec_type;
  LocationTable := list Z;
  AreaManager := list Z;
  create_map := sample_create_map;
  new_area_manager := [];
  locations_for_ways := sample_locations;
  first_pass := fun a o => rec_id o :: a;
  second_pass := sample_second_pass;
  second_pass_flush := fun a => (a, [])
|}.

(** A file with two nodes, a way and a relation. *)
Definition sample_file : list (@read sample_osmium) :=
  [ReadObj (node, 1, 1); ReadObj (node, 2, 1); ReadObj (way, 7, 1);
   ReadObj (relation, 5, 1)].

Definition sample_processor (entities : Z) : @FileProcessor sample_osmium :=
  {| _file := sample_file; _reader := Reader_open sample_file entities;
     _entities := entities; _node_store := None; _area_handler := None;
     _filters := [] |}.

(** Filters: one that lets nothing through, one that removes the areas,
    one that removes the ways. *)
Definition drop_all : @Filter sample_osmium := fun _ => true.
Definition drop_areas : @Filter sample_osmium :=
  fun o => match rec_type o with area => true | _ => false end.
Definition drop_ways : @Filter sample_osmium :=
  fun o => match rec_type o with way => true | _ => false end.

(** A processor in two-pass mode over [file], with a location cache. *)
Definition two_pass_processor (file : list (@read sample_osmium))
           (fs : list (@Filter sample_osmium)) : @FileProcessor sample_osmium :=
  {| _file := file; _reader := Reader_open file osm_ALL; _entities := osm_ALL;
     _node_store := Some []; _area_handler := Some []; _filters := fs |}.

(** A file with two ways, and a file whose third read fails. *)
Definition ways_file : list (@read sample_osmium) :=
  [ReadObj (way, 7, 1); ReadObj (way, 8, 1)].

Definition broken_file : list (@read sample_osmium) :=
  [ReadObj (node, 1, 1); ReadObj (relation, 5, 1); ReadError 5;
   ReadObj (relation, 6, 1)].

(** ** More vocabulary for the merge *)

Section MergeColumns.

Variable Obj : Type.
Context {K : OsmObject Obj}.

(** The records a tuple holds. *)
Definition records_of (row : list (option Obj)) : list Obj :=
  flat_map (fun v => match v with Some o => [o] | None => [] end) row.

(** The records that the tuples hold in slot [i], in the order of the
    tuples. *)
Definition column (i : nat) (rows : list (list (option Obj))) : list Obj :=
  flat_map (fun row => match nth_error row i with
                       | Some (Some o) => [o]
                       | _ => []
                       end) rows.

(** A tuple yielded for key [k]: it holds a record, and all its records
    have key [k]. *)
Definition tuple_of_key (k : Key) (row : list (option Obj)) : Prop :=
  (exists o, In (Some o) row) /\
  (forall o, In (Some o) row -> key_of o = k).

(** The smallest current keys of the successive rounds of the merge. *)
Fixpoint merge_keys (fuel : nat) (ps : list (list Obj)) : list Key :=
  match fuel with
  | O => []
  | S n =>
      if fst (min_head ps) <? 100
      then min_head ps :: merge_keys n (step_streams ps)
      else []
  end.

End MergeColumns.

Arguments records_of {Obj} _.
Arguments column {Obj} _ _.
Arguments tuple_of_key {Obj} {K} _ _.
Arguments merge_keys {Obj} {K} _ _.

(** An unsorted stream and a stream without records, for the examples. *)
Definition stream_unsorted : list Rec := [(way, 7, 1); (node, 1, 1); (node, 1, 2)].
Definition stream_empty : list Rec := [].

(** ** Chains of configuration calls *)

Section Configuration.

Context {osmium : Osmium}.

(** One call of a configuration method. *)
Inductive config_call :=
| CallLocations (storage : storage_arg)
| CallAreas
| CallFilter (filt : Filter).

Definition call (c : config_call) (self : FileProcessor)
  : result unit * FileProcessor :=
  match c with
  | CallLocations storage => with_locations storage self
  | CallAreas => with_areas self
  | CallFilter filt => with_filter filt self
  end.

(** A chain [self.m1(...).m2(...)...]: each method returns [self]; the
    chain stops at the first call that raises. *)
Fixpoint chain (cs : list config_call) (self : FileProcessor)
  : result unit * FileProcessor :=
  match cs with
  | [] => (Ok tt, self)
  | c :: cs' =>
      match call c self with
      | (Ok _, self') => chain cs' self'
      | (Raise e, self') => (Raise e, self')
      end
  end.

(** The filters a chain of calls registers, in the order of the calls. *)
Definition filters_of (cs : list config_call) : list Filter :=
  flat_map (fun c => match c with CallFilter f => [f] | _ => [] end) cs.

End Configuration.

(** A list made of the elements of two lists, each in its own order. *)
Inductive interleaved {A : Type} : list A -> list A -> list A -> Prop :=
| interleaved_nil : interleaved [] [] []
| interleaved_left (x : A) (l1 l2 l : list A) :
    interleaved l1 l2 l -> interleaved (x :: l1) l2 (x :: l)
| interleaved_right (x : A) (l1 l2 l : list A) :
    interleaved l1 l2 l -> interleaved l1 (x :: l2) (x :: l).

(** ** More vocabulary for the iterator *)

Section IterationVocabulary.

Context {osmium : Osmium}.

(** Two states of a processor with the same configuration: the same file,
    entity mask and filters, a primary reader that is open or closed in
    both, and a location cache and an area handler that are set in both
    or in neither. *)
Definition same_config (s1 s2 : FileProcessor) : Prop :=
  _file s1 = _file s2 /\
  _entities s1 = _entities s2 /\
  _filters s1 = _filters s2 /\
  closed (_reader s1) = closed (_reader s2) /\
  (_node_store s1 = None <-> _node_store s2 = None) /\
  (_area_handler s1 = None <-> _area_handler s2 = None).

(** The same for the objects of the stages. *)
Definition same_mode (w1 w2 : hstate) : Prop :=
  (h_store w1 = None <-> h_store w2 = None) /\
  (h_areas w1 = None <-> h_areas w2 = None).

(** [w1] is [w2] with the queue [b] put in front of its queue. *)
Definition buffer_ahead (b : list Entity) (w1 w2 : hstate) : Prop :=
  h_store w1 = h_store w2 /\ h_areas w1 = h_areas w2 /\
  h_buffer w1 = b ++ h_buffer w2.

End IterationVocabulary.

(** * Properties *)

(** ** Keys *)

Lemma key_eqb_eq (a b : Key) : key_eqb a b = true <-> a = b.
Proof.
  destruct a as [a1 a2], b as [b1 b2]; unfold key_eqb; simpl.
  rewrite andb_true_iff, !Z.eqb_eq. split.
  - intros [-> ->]; reflexivity.
  - intros H; inversion H; auto.
Qed.

Lemma key_eqb_refl (a : Key) : key_eqb a a = true.
Proof. apply key_eqb_eq; reflexivity. Qed.

Lemma key_eqb_neq (a b : Key) : key_eqb a b = false <-> a <> b.
Proof.
  rewrite <- key_eqb_eq. destruct (key_eqb a b); split; congruence.
Qed.

Lemma key_ltb_lt (a b : Key) : key_ltb a b = true <-> key_lt a b.
Proof.
  unfold key_ltb, key_lt.
  rewrite orb_true_iff, andb_true_iff, !Z.ltb_lt, Z.eqb_eq. tauto.
Qed.

Lemma key_ltb_ge (a b : Key) : key_ltb a b = false <-> key_le b a.
Proof.
  destruct a as [a1 a2], b as [b1 b2].
  unfold key_ltb, key_le, key_lt; simpl.
  rewrite orb_false_iff, andb_false_iff, !Z.ltb_ge, Z.eqb_neq. split.
  - intros [H1 [H2 | H2]].
    + left; lia.
    + destruct (Z.eq_dec a1 b1) as [-> | Hne]; [| left; lia].
      destruct (Z.eq_dec a2 b2) as [-> | Hne2]; [right; reflexivity | left; lia].
  - intros [[H | [H1 H2]] | H]; try lia.
    inversion H; subst; lia.
Qed.

Lemma key_lt_trans (a b c : Key) : key_lt a b -> key_lt b c -> key_lt a c.
Proof. unfold key_lt; lia. Qed.

Lemma key_lt_irrefl (a : Key) : ~ key_lt a a.
Proof. unfold key_lt; lia. Qed.

Lemma key_le_refl (a : Key) : key_le a a.
Proof. right; reflexivity. Qed.

Lemma key_le_trans (a b c : Key) : key_le a b -> key_le b c -> key_le a c.
Proof.
  intros [H1 | ->] [H2 | ->]; try (left; assumption); try (right; reflexivity).
  left; eapply key_lt_trans; eassumption.
Qed.

Lemma key_le_lt_trans (a b c : Key) : key_le a b -> key_lt b c -> key_lt a c.
Proof. intros [H1 | ->] H2; [eapply key_lt_trans; eassumption | assumption]. Qed.

Lemma key_lt_le_trans (a b c : Key) : key_lt a b -> key_le b c -> key_lt a c.
Proof. intros H1 [H2 | <-]; [eapply key_lt_trans; eassumption | assumption]. Qed.

Lemma key_le_neq_lt (a b : Key) : key_le a b -> a <> b -> key_lt a b.
Proof. intros [H | ->] Hne; [assumption | congruence]. Qed.

Lemma TID_rank (t : item_type) : dict_get TID (type_str t) = Some (rank t).
Proof. destruct t; reflexivity. Qed.

Lemma rank_bound (t : item_type) : 0 <= rank t <= 4.
Proof. destruct t; simpl; lia. Qed.

Lemma kmin_le_l (b k : Key) : key_le (kmin b k) b.
Proof.
  unfold kmin. destruct (key_ltb k b) eqn:E.
  - left; apply key_ltb_lt; assumption.
  - apply key_le_refl.
Qed.

Lemma kmin_le_r (b k : Key) : key_le (kmin b k) k.
Proof.
  unfold kmin. destruct (key_ltb k b) eqn:E.
  - apply key_le_refl.
  - apply key_ltb_ge; assumption.
Qed.

Lemma fold_kmin_le_init (ks : list Key) (b : Key) : key_le (fold_left kmin ks b) b.
Proof.
  revert b; induction ks as [| k ks IH]; intros b; simpl.
  - apply key_le_refl.
  - eapply key_le_trans; [apply IH | apply kmin_le_l].
Qed.

Lemma fold_kmin_le_in (ks : list Key) (b k : Key) :
  In k ks -> key_le (fold_left kmin ks b) k.
Proof.
  revert b; induction ks as [| k' ks IH]; intros b Hin; simpl.
  - destruct Hin.
  - destruct Hin as [-> | Hin].
    + eapply key_le_trans; [apply fold_kmin_le_init | apply kmin_le_r].
    + apply IH; assumption.
Qed.

Lemma fold_kmin_in (ks : list Key) (b : Key) :
  fold_left kmin ks b = b \/ In (fold_left kmin ks b) ks.
Proof.
  revert b; induction ks as [| k ks IH]; intros b; simpl.
  - left; reflexivity.
  - destruct (IH (kmin b k)) as [H | H].
    + rewrite H. unfold kmin. destruct (key_ltb k b); auto.
    + right; right; assumption.
Qed.

(** ** The cursors, seen through the remaining streams *)

Section MergeFacts.

Variable Obj : Type.
Context {K : OsmObject Obj}.


Lemma key_of_real (o : Obj) : fst (key_of o) < 100.
Proof. unfold key_of; simpl. pose proof (rank_bound (otype o)); lia. Qed.

Lemma next_fresh (p : list Obj) :
  CompIter_next (CompIter_init p) None
  = Ok (cursor_of p, Some (head_key p)).
Proof.
  unfold CompIter_next, CompIter_init; cbn [comp comp_eqb iter_].
  destruct p as [| o rest]; [reflexivity |].
  rewrite TID_rank. reflexivity.
Qed.

Lemma next_cursor (m : Key) (p : list Obj) :
  CompIter_next (cursor_of p) (Some m)
  = Ok (cursor_of (adv m p), Some (head_key (adv m p))).
Proof.
  unfold CompIter_next, adv.
  destruct p as [| o rest]; cbn [cursor_of head_key comp comp_eqb iter_ tl].
  - destruct (key_eqb END_MARKER m); reflexivity.
  - destruct (key_eqb (key_of o) m); [| reflexivity].
    destruct rest as [| o' rest']; [reflexivity |].
    rewrite TID_rank. reflexivity.
Qed.

Lemma min_rest_through (f : list Obj -> CompIter Obj) (g : list Obj -> list Obj)
      (nid : option Key) :
  (forall p, CompIter_next (f p) nid
             = Ok (cursor_of (g p), Some (head_key (g p)))) ->
  forall (ps : list (list Obj)) (b : Key),
    min_rest (Some b) (map f ps) nid
    = Ok (map cursor_of (map g ps),
          Some (fold_left kmin (map head_key (map g ps)) b)).
Proof.
  intros Hnext ps; induction ps as [| p ps IH]; intros b; simpl.
  - reflexivity.
  - rewrite Hnext; simpl.
    replace (if key_ltb (head_key (g p)) b then Some (head_key (g p)) else Some b)
      with (Some (kmin b (head_key (g p))))
      by (unfold kmin; destruct (key_ltb (head_key (g p)) b); reflexivity).
    rewrite IH; simpl. reflexivity.
Qed.

Lemma min_next_through (f : list Obj -> CompIter Obj) (g : list Obj -> list Obj)
      (nid : option Key) :
  (forall p, CompIter_next (f p) nid
             = Ok (cursor_of (g p), Some (head_key (g p)))) ->
  forall ps : list (list Obj),
    ps <> [] ->
    min_next (map f ps) nid
    = Ok (map cursor_of (map g ps), Some (min_head (map g ps))).
Proof.
  intros Hnext [| p ps] Hne; [congruence |]. simpl.
  rewrite Hnext; simpl.
  rewrite (min_rest_through f g nid Hnext); simpl. reflexivity.
Qed.

Lemma min_next_fresh (ps : list (list Obj)) :
  ps <> [] ->
  min_next (map CompIter_init ps) None
  = Ok (map cursor_of ps, Some (min_head ps)).
Proof.
  intros Hne.
  rewrite (min_next_through CompIter_init (fun p => p) None next_fresh ps Hne).
  rewrite map_id. reflexivity.
Qed.

Lemma min_next_cursor (m : Key) (ps : list (list Obj)) :
  ps <> [] ->
  min_next (map cursor_of ps) (Some m)
  = Ok (map cursor_of (map (adv m) ps), Some (min_head (map (adv m) ps))).
Proof.
  intros Hne. apply (min_next_through cursor_of (adv m) (Some m)); [| assumption].
  intros p; apply next_cursor.
Qed.

Lemma zip_resume_start (ps : list (list Obj)) :
  ps <> [] ->
  zip_resume (zip_init ps) = after_min ps ps.
Proof.
  intros Hne. unfold zip_resume, after_min; simpl.
  rewrite (min_next_fresh ps Hne); simpl.
  destruct (fst (min_head ps) <? 100); reflexivity.
Qed.

Lemma zip_resume_at_yield (ps0 ps : list (list Obj)) :
  ps <> [] ->
  zip_resume (frame_at ps0 ps) = after_min ps0 (step_streams ps).
Proof.
  intros Hne. unfold zip_resume, after_min, step_streams; simpl.
  rewrite (min_next_cursor (min_head ps) ps Hne); simpl.
  destruct (fst (min_head (map (adv (min_head ps)) ps)) <? 100); reflexivity.
Qed.

Lemma force_frame (ps0 ps : list (list Obj)) :
  force (frame_at ps0 ps) = map (slot (min_head ps)) ps.
Proof.
  unfold force; simpl. rewrite map_map. apply map_ext.
  intros [| o rest]; unfold CompIter_val; simpl.
  - destruct (key_eqb END_MARKER (min_head ps)); reflexivity.
  - reflexivity.
Qed.

(** *** Progress: every round consumes a record *)

Lemma min_head_in (ps : list (list Obj)) :
  ps <> [] -> In (min_head ps) (map head_key ps).
Proof.
  destruct ps as [| p ps]; [congruence |]; intros _; simpl.
  destruct (fold_kmin_in (map head_key ps) (head_key p)) as [H | H].
  - left; symmetry; exact H.
  - right; exact H.
Qed.

Lemma min_head_le (ps : list (list Obj)) (p : list Obj) :
  In p ps -> key_le (min_head ps) (head_key p).
Proof.
  destruct ps as [| p0 ps]; [intros [] |]; simpl.
  intros [-> | Hin].
  - apply fold_kmin_le_init.
  - apply fold_kmin_le_in. apply in_map; assumption.
Qed.

Lemma adv_length_le (m : Key) (p : list Obj) :
  (List.length (adv m p) <= List.length p)%nat.
Proof.
  unfold adv. destruct (key_eqb (head_key p) m); [| lia].
  destruct p; simpl; lia.
Qed.

Lemma total_length_adv (m : Key) (ps : list (list Obj)) :
  (total_length (map (adv m) ps) <= total_length ps)%nat.
Proof.
  induction ps as [| p ps IH]; simpl; [lia |].
  pose proof (adv_length_le m p). lia.
Qed.

Lemma total_length_adv_lt (m : Key) (ps : list (list Obj)) :
  fst m < 100 ->
  In m (map head_key ps) ->
  (total_length (map (adv m) ps) < total_length ps)%nat.
Proof.
  intros Hreal. induction ps as [| p ps IH]; simpl; [intros [] |].
  intros [Hhead | Hin].
  - pose proof (total_length_adv m ps) as Hle.
    assert (Hadv : adv m p = tl p)
      by (unfold adv; rewrite Hhead, key_eqb_refl; reflexivity).
    rewrite Hadv.
    destruct p as [| o rest].
    + subst m. simpl in Hreal. lia.
    + simpl. lia.
  - specialize (IH Hin). pose proof (adv_length_le m p). lia.
Qed.

Lemma step_streams_shrinks (ps : list (list Obj)) :
  ps <> [] ->
  fst (min_head ps) < 100 ->
  (total_length (step_streams ps) < total_length ps)%nat.
Proof.
  intros Hne Hreal. apply total_length_adv_lt; [assumption |].
  apply min_head_in; assumption.
Qed.

Lemma step_streams_nonempty (ps : list (list Obj)) :
  ps <> [] -> step_streams ps <> [].
Proof. destruct ps; [congruence |]. discriminate. Qed.

(** *** The generator computes [merge_rows] *)

Lemma collect_at_yield (ps0 : list (list Obj)) :
  forall (n : nat) (ps : list (list Obj)),
    ps <> [] ->
    fst (min_head ps) < 100 ->
    (total_length ps <= n)%nat ->
    zip_collect n (frame_at ps0 ps)
    = Some (merge_rows n (step_streams ps), Finished).
Proof.
  induction n as [| n IH]; intros ps Hne Hreal Hlen.
  - pose proof (step_streams_shrinks ps Hne Hreal). lia.
  - simpl. rewrite (zip_resume_at_yield ps0 ps Hne). unfold after_min.
    destruct (fst (min_head (step_streams ps)) <? 100) eqn:E; [| reflexivity].
    apply Z.ltb_lt in E.
    rewrite IH.
    + rewrite force_frame. reflexivity.
    + apply step_streams_nonempty; assumption.
    + assumption.
    + pose proof (step_streams_shrinks ps Hne Hreal). lia.
Qed.

Lemma zip_processors_merge_rows (ps : list (list Obj)) :
  ps <> [] ->
  zip_processors ps
  = Some (merge_rows (S (total_length ps)) ps, Finished).
Proof.
  intros Hne. unfold zip_processors. simpl.
  rewrite (zip_resume_start ps Hne). unfold after_min.
  destruct (fst (min_head ps) <? 100) eqn:E; [| reflexivity].
  apply Z.ltb_lt in E.
  rewrite collect_at_yield; try assumption; [| lia].
  rewrite force_frame. reflexivity.
Qed.

(** *** Strictly ascending streams *)

Lemma key_le_fst (a b : Key) : key_le a b -> fst a <= fst b.
Proof. intros [[H | [H _]] | ->]; lia. Qed.

Lemma strictly_ascending_tl (p : list Obj) :
  strictly_ascending p -> strictly_ascending (tl p).
Proof.
  destruct p as [| o rest]; simpl; [auto |].
  unfold strictly_ascending; simpl. intros H; inversion H; assumption.
Qed.

Lemma strictly_ascending_head (o : Obj) (rest : list Obj) (k : Key) :
  strictly_ascending (o :: rest) -> In k (keys_of rest) -> key_lt (key_of o) k.
Proof.
  unfold strictly_ascending; simpl. intros H Hin.
  inversion H as [| ? ? _ Hall]; subst.
  rewrite Forall_forall in Hall. apply Hall; assumption.
Qed.

Lemma adv_ascending (m : Key) (p : list Obj) :
  strictly_ascending p -> strictly_ascending (adv m p).
Proof.
  intros H. unfold adv.
  destruct (key_eqb (head_key p) m); [apply strictly_ascending_tl |]; assumption.
Qed.

Lemma lookup_none (k : Key) (p : list Obj) :
  ~ In k (keys_of p) -> lookup k p = None.
Proof.
  induction p as [| o rest IH]; simpl; [reflexivity |].
  intros Hnot. unfold lookup; simpl.
  destruct (key_eqb (key_of o) k) eqn:E.
  - apply key_eqb_eq in E. exfalso; apply Hnot; left; assumption.
  - apply IH. intros Hin; apply Hnot; right; assumption.
Qed.

Lemma slot_lookup (m : Key) (p : list Obj) :
  strictly_ascending p ->
  key_le m (head_key p) ->
  slot m p = lookup m p.
Proof.
  destruct p as [| o rest]; [reflexivity |]. simpl.
  intros Hs Hle. unfold lookup; simpl.
  destruct (key_eqb (key_of o) m) eqn:E; [reflexivity |].
  symmetry. apply lookup_none. intros Hin.
  pose proof (strictly_ascending_head o rest m Hs Hin) as Hlt.
  apply key_eqb_neq in E.
  apply (key_lt_irrefl m). eapply key_le_lt_trans; eassumption.
Qed.

Lemma lookup_adv (m k : Key) (p : list Obj) :
  k <> m -> lookup k (adv m p) = lookup k p.
Proof.
  intros Hne. unfold adv.
  destruct (key_eqb (head_key p) m) eqn:E; [| reflexivity].
  destruct p as [| o rest]; [reflexivity |]. simpl in *.
  apply key_eqb_eq in E. unfold lookup; simpl.
  replace (key_eqb (key_of o) k) with false; [reflexivity |].
  symmetry; apply key_eqb_neq; congruence.
Qed.

Lemma keys_adv_above (m k : Key) (p : list Obj) :
  strictly_ascending p ->
  key_le m (head_key p) ->
  In k (keys_of (adv m p)) ->
  In k (keys_of p) /\ key_lt m k.
Proof.
  intros Hs Hle. unfold adv.
  destruct (key_eqb (head_key p) m) eqn:E.
  - destruct p as [| o rest]; simpl; [intros [] |]. simpl in E.
    apply key_eqb_eq in E. intros Hin. split; [right; assumption |].
    rewrite <- E. eapply strictly_ascending_head; eassumption.
  - apply key_eqb_neq in E.
    destruct p as [| o rest]; simpl; [intros [] |]. simpl in *.
    assert (Hlt : key_lt m (key_of o)) by (apply key_le_neq_lt; congruence).
    intros [<- | Hin]; (split; [auto |]).
    + assumption.
    + eapply key_lt_trans; [exact Hlt |].
      eapply strictly_ascending_head; eassumption.
Qed.

Lemma keys_adv_below (m k : Key) (p : list Obj) :
  In k (keys_of p) -> k = m \/ In k (keys_of (adv m p)).
Proof.
  unfold adv. destruct (key_eqb (head_key p) m) eqn:E; [| auto].
  destruct p as [| o rest]; simpl; [intros [] |]. simpl in E.
  apply key_eqb_eq in E. intros [<- | Hin]; auto.
Qed.

Lemma in_all_keys (k : Key) (ps : list (list Obj)) :
  In k (all_keys ps) <-> exists p, In p ps /\ In k (keys_of p).
Proof. unfold all_keys. apply in_flat_map. Qed.

Lemma all_keys_step_above (k : Key) (ps : list (list Obj)) :
  Forall strictly_ascending ps ->
  In k (all_keys (step_streams ps)) ->
  In k (all_keys ps) /\ key_lt (min_head ps) k.
Proof.
  intros Hs. rewrite !in_all_keys. unfold step_streams.
  intros (p' & Hp' & Hk). apply in_map_iff in Hp' as (p & <- & Hp).
  rewrite Forall_forall in Hs.
  destruct (keys_adv_above (min_head ps) k p (Hs p Hp) (min_head_le ps p Hp) Hk)
    as [Hin Hlt].
  split; [exists p; auto | assumption].
Qed.

Lemma all_keys_step_below (k : Key) (ps : list (list Obj)) :
  In k (all_keys ps) ->
  k = min_head ps \/ In k (all_keys (step_streams ps)).
Proof.
  rewrite !in_all_keys. unfold step_streams.
  intros (p & Hp & Hk).
  destruct (keys_adv_below (min_head ps) k p Hk) as [-> | Hin]; [auto |].
  right. exists (adv (min_head ps) p). split; [apply in_map |]; assumption.
Qed.

Lemma min_head_present (ps : list (list Obj)) :
  ps <> [] -> fst (min_head ps) < 100 -> In (min_head ps) (all_keys ps).
Proof.
  intros Hne Hreal. pose proof (min_head_in ps Hne) as Hin.
  apply in_map_iff in Hin as (p & Hp & Hin).
  apply in_all_keys. exists p. split; [assumption |].
  destruct p as [| o rest]; simpl in *.
  - rewrite <- Hp in Hreal. simpl in Hreal. lia.
  - left; assumption.
Qed.

Lemma min_head_end (ps : list (list Obj)) :
  ~ fst (min_head ps) < 100 -> all_keys ps = [].
Proof.
  intros Hend.
  destruct (all_keys ps) as [| k ks] eqn:E; [reflexivity | exfalso].
  assert (Hin : In k (all_keys ps)) by (rewrite E; left; reflexivity).
  apply in_all_keys in Hin as (p & Hp & Hk).
  pose proof (min_head_le ps p Hp) as Hle. apply key_le_fst in Hle.
  destruct p as [| o rest]; [destruct Hk |].
  pose proof (key_of_real o) as Hreal.
  unfold head_key in Hle. lia.
Qed.

Lemma Forall_step_ascending (ps : list (list Obj)) :
  Forall strictly_ascending ps -> Forall strictly_ascending (step_streams ps).
Proof.
  unfold step_streams. rewrite !Forall_forall.
  intros H p' Hin. apply in_map_iff in Hin as (p & <- & Hp).
  apply adv_ascending, H, Hp.
Qed.

(** The merge of strictly ascending streams lists the aligned tuples of
    the keys present, in ascending key order. *)
Lemma merge_rows_spec :
  forall (n : nat) (ps : list (list Obj)),
    (total_length ps < n)%nat ->
    ps <> [] ->
    Forall strictly_ascending ps ->
    exists ks : list Key,
      StronglySorted key_lt ks /\
      (forall k, In k ks <-> In k (all_keys ps)) /\
      merge_rows n ps = map (fun k => aligned_row k ps) ks.
Proof.
  induction n as [| n IH]; intros ps Hlen Hne Hs; [lia |].
  simpl. destruct (fst (min_head ps) <? 100) eqn:E.
  - apply Z.ltb_lt in E.
    pose proof (step_streams_shrinks ps Hne E) as Hshrink.
    destruct (IH (step_streams ps)) as (ks & Hsorted & Hmem & Hrows);
      [lia | apply step_streams_nonempty; assumption
       | apply Forall_step_ascending; assumption |].
    exists (min_head ps :: ks). split; [| split].
    + constructor; [assumption |]. apply Forall_forall. intros k Hk.
      apply Hmem in Hk. apply all_keys_step_above in Hk; tauto.
    + intros k; simpl. rewrite Hmem. split.
      * intros [<- | Hk]; [apply min_head_present; assumption |].
        apply all_keys_step_above in Hk; tauto.
      * intros Hk. destruct (all_keys_step_below k ps Hk); auto.
    + simpl. f_equal.
      * unfold aligned_row. apply map_ext_in. intros p Hp.
        rewrite Forall_forall in Hs.
        apply slot_lookup; [apply Hs, Hp | apply min_head_le, Hp].
      * rewrite Hrows. apply map_ext_in. intros k Hk.
        apply Hmem in Hk. apply all_keys_step_above in Hk as [_ Hlt]; [| assumption].
        unfold aligned_row, step_streams. rewrite map_map.
        apply map_ext. intros p. apply lookup_adv.
        intros ->. exact (key_lt_irrefl _ Hlt).
  - apply Z.ltb_ge in E. exists []. split; [constructor | split; [| reflexivity]].
    intros k. rewrite min_head_end by lia. tauto.
Qed.

Lemma sorted_lt_NoDup (ks : list Key) : StronglySorted key_lt ks -> NoDup ks.
Proof.
  induction 1 as [| k ks Hs IH Hall]; constructor; [| assumption].
  intros Hin. rewrite Forall_forall in Hall.
  exact (key_lt_irrefl k (Hall k Hin)).
Qed.

Lemma lookup_some (k : Key) (p : list Obj) (o : Obj) :
  strictly_ascending p ->
  (lookup k p = Some o <-> In o p /\ key_of o = k).
Proof.
  intros Hs. induction p as [| o' rest IH]; simpl.
  - unfold lookup; simpl. split; [discriminate | tauto].
  - unfold lookup; simpl.
    destruct (key_eqb (key_of o') k) eqn:E.
    + apply key_eqb_eq in E. split.
      * intros H; inversion H; subst; auto.
      * intros [[-> | Hin] Hk]; [reflexivity | exfalso].
        assert (Hlt : key_lt (key_of o') (key_of o)).
        { eapply strictly_ascending_head; [exact Hs |].
          apply in_map; assumption. }
        rewrite Hk, E in Hlt. exact (key_lt_irrefl _ Hlt).
    + apply key_eqb_neq in E.
      fold (lookup k rest). rewrite (IH (strictly_ascending_tl _ Hs)).
      split; [tauto |]. intros [[-> | Hin] Hk]; [congruence | auto].
Qed.

Lemma lookup_absent (k : Key) (p : list Obj) :
  lookup k p = None <-> ~ In k (keys_of p).
Proof.
  split; [| apply lookup_none].
  intros Hnone Hin. apply in_map_iff in Hin as (o & Hk & Hin).
  unfold lookup in Hnone.
  pose proof (find_none _ _ Hnone o Hin) as Hf. simpl in Hf.
  apply key_eqb_neq in Hf. congruence.
Qed.

(** *** Frames reached by the generator *)

Lemma reachable_shape (ps : list (list Obj)) (f : zip_frame Obj) :
  ps <> [] ->
  reachable ps f ->
  f = zip_init ps \/ (exists qs, qs <> [] /\ f = frame_at ps qs) \/ zpc f = ZDone.
Proof.
  intros Hne Hreach. induction Hreach as [| f f' sig Hreach IH Hres].
  - left; reflexivity.
  - right. destruct IH as [-> | [(qs & Hqs & ->) | Hdone]].
    + rewrite (zip_resume_start ps Hne) in Hres. unfold after_min in Hres.
      destruct (fst (min_head ps) <? 100); inversion Hres; subst;
        [left; exists ps; auto | right; reflexivity].
    + rewrite (zip_resume_at_yield ps qs Hqs) in Hres. unfold after_min in Hres.
      destruct (fst (min_head (step_streams qs)) <? 100); inversion Hres; subst;
        [left; exists (step_streams qs); split;
           [apply step_streams_nonempty; assumption | reflexivity]
        | right; reflexivity].
    + unfold zip_resume in Hres. rewrite Hdone in Hres.
      inversion Hres; subst. right; assumption.
Qed.

Lemma min_comp_cursors (qs : list (list Obj)) :
  qs <> [] -> min_comp (map cursor_of qs) = Some (min_head qs).
Proof.
  destruct qs as [| q qs]; [congruence |]; intros _. simpl.
  assert (Hc : forall p, comp (cursor_of p) = Some (head_key p))
    by (intros [| o rest]; reflexivity).
  rewrite Hc. generalize (head_key q) as b.
  induction qs as [| p qs IH]; intros b; simpl; [reflexivity |].
  rewrite Hc. apply IH.
Qed.

Lemma min_head_sentinel (qs : list (list Obj)) :
  qs <> [] ->
  ((fst (min_head qs) <? 100) = false <-> min_head qs = END_MARKER).
Proof.
  intros Hne. split.
  - intros Hge. apply Z.ltb_ge in Hge.
    pose proof (min_head_in qs Hne) as Hin.
    apply in_map_iff in Hin as (p & Hp & _).
    destruct p as [| o rest]; [symmetry; exact Hp |].
    pose proof (key_of_real o) as Hreal.
    unfold head_key in Hp. rewrite Hp in Hreal. lia.
  - intros ->. reflexivity.
Qed.

Lemma after_min_stops (ps qs : list (list Obj)) (sig : signal genexpr) (f' : zip_frame Obj) :
  qs <> [] ->
  after_min ps qs = (sig, f') ->
  (sig = StopIteration <-> min_comp (iters f') = Some END_MARKER).
Proof.
  intros Hne. unfold after_min.
  destruct (fst (min_head qs) <? 100) eqn:E; intros H; inversion H; subst; simpl;
    rewrite (min_comp_cursors qs Hne).
  - split; [discriminate |]. intros Heq. inversion Heq as [Hend].
    apply (min_head_sentinel qs Hne) in Hend. congruence.
  - apply (min_head_sentinel qs Hne) in E. rewrite E. tauto.
Qed.

Lemma resume_stops_at_sentinel (ps : list (list Obj)) (f f' : zip_frame Obj)
      (sig : signal genexpr) :
  ps <> [] ->
  reachable ps f ->
  zpc f <> ZDone ->
  zip_resume f = (sig, f') ->
  (sig = StopIteration <-> min_comp (iters f') = Some END_MARKER).
Proof.
  intros Hne Hreach Hpc Hres.
  destruct (reachable_shape ps f Hne Hreach) as [-> | [(qs & Hqs & ->) | Hdone]].
  - rewrite (zip_resume_start ps Hne) in Hres.
    eapply after_min_stops; eassumption.
  - rewrite (zip_resume_at_yield ps qs Hqs) in Hres.
    eapply after_min_stops; [| eassumption].
    apply step_streams_nonempty; assumption.
  - contradiction.
Qed.

Lemma sentinel_above (o : Obj) : key_lt (key_of o) END_MARKER.
Proof. left. simpl. pose proof (rank_bound (otype o)). lia. Qed.

(** *** Keys and tuples *)

Lemma lookup_present (k : Key) (p : list Obj) :
  In k (keys_of p) -> exists o, lookup k p = Some o /\ key_of o = k.
Proof.
  intros Hin. destruct (lookup k p) as [o |] eqn:E.
  - exists o. split; [reflexivity |].
    unfold lookup in E. apply find_some in E as [_ E].
    apply key_eqb_eq; exact E.
  - apply lookup_absent in E. contradiction.
Qed.

Lemma lookup_key (k : Key) (p : list Obj) (o : Obj) :
  lookup k p = Some o -> key_of o = k.
Proof.
  unfold lookup. intros E. apply find_some in E as [_ E].
  apply key_eqb_eq; exact E.
Qed.

Lemma appears_in_aligned (k k' : Key) (ps : list (list Obj)) :
  appears_in k (aligned_row k' ps) -> k = k'.
Proof.
  intros (o & Hin & Hk). unfold aligned_row in Hin.
  apply in_map_iff in Hin as (p & Hl & _).
  apply lookup_key in Hl. congruence.
Qed.

Lemma aligned_appears (k : Key) (ps : list (list Obj)) :
  In k (all_keys ps) -> appears_in k (aligned_row k ps).
Proof.
  intros Hin. apply in_all_keys in Hin as (p & Hp & Hk).
  destruct (lookup_present k p Hk) as (o & Hl & Ho).
  exists o. split; [| assumption].
  unfold aligned_row. rewrite <- Hl. apply in_map; assumption.
Qed.

Lemma merge_aligned_once (ps : list (list Obj)) (rows : list (list (option Obj))) :
  merge_aligned ps rows ->
  forall k, In k (all_keys ps) ->
    exists! j, exists row, nth_error rows j = Some row /\ appears_in k row.
Proof.
  intros (ks & Hnd & Hmem & ->) k Hk.
  destruct (In_nth_error ks k (proj2 (Hmem k) Hk)) as [j Hj].
  exists j. split.
  - exists (aligned_row k ps). split.
    + rewrite nth_error_map, Hj. reflexivity.
    + apply aligned_appears; assumption.
  - intros j' (row & Hrow & Happ).
    rewrite nth_error_map in Hrow.
    destruct (nth_error ks j') as [k' |] eqn:Hj'; [| discriminate].
    simpl in Hrow. inversion Hrow; subst row.
    apply appears_in_aligned in Happ. subst k'.
    apply (proj1 (NoDup_nth_error ks) Hnd); [| congruence].
    apply nth_error_Some. congruence.
Qed.

Lemma merge_aligned_width (ps : list (list Obj)) (rows : list (list (option Obj))) :
  merge_aligned ps rows ->
  forall row, In row rows -> List.length row = List.length ps.
Proof.
  intros (ks & _ & _ & ->) row Hin.
  apply in_map_iff in Hin as (k & <- & _).
  unfold aligned_row. apply length_map.
Qed.

Lemma merge_aligned_count (ps : list (list Obj)) (rows : list (list (option Obj))) :
  merge_aligned ps rows ->
  List.length rows = List.length (distinct_keys ps).
Proof.
  intros (ks & Hnd & Hmem & ->). rewrite length_map.
  apply Permutation_length. apply NoDup_Permutation.
  - assumption.
  - apply NoDup_nodup.
  - intros k. unfold distinct_keys. rewrite nodup_In. apply Hmem.
Qed.

Lemma zip_processors_sorted (ps : list (list Obj)) :
  ps <> [] ->
  Forall strictly_ascending ps ->
  exists rows ks,
    zip_processors ps = Some (rows, Finished) /\
    StronglySorted key_lt ks /\
    (forall k, In k ks <-> In k (all_keys ps)) /\
    rows = map (fun k => aligned_row k ps) ks.
Proof.
  intros Hne Hs.
  destruct (merge_rows_spec (S (total_length ps)) ps) as (ks & H1 & H2 & H3);
    [lia | assumption | assumption |].
  exists (merge_rows (S (total_length ps)) ps), ks.
  split; [apply zip_processors_merge_rows; assumption | auto].
Qed.

(** *** Reading the yielded values late *)

Lemma force_all_empty (qs : list (list Obj)) (nid : option Key) :
  (forall p, In p qs -> p = []) ->
  map (fun i => CompIter_val i nid) (map cursor_of qs)
  = repeat None (List.length qs).
Proof.
  induction qs as [| q qs IH]; intros Hall; simpl; [reflexivity |].
  rewrite IH by (intros p Hp; apply Hall; right; assumption).
  rewrite (Hall q) by (left; reflexivity).
  unfold CompIter_val; cbn [cursor_of comp current].
  destruct (comp_eqb (Some END_MARKER) nid); reflexivity.
Qed.

Lemma exhausted_streams (qs : list (list Obj)) :
  (fst (min_head qs) <? 100) = false -> forall p, In p qs -> p = [].
Proof.
  intros E p Hp. destruct p as [| o rest]; [reflexivity | exfalso].
  assert (Hin : In (key_of o) (all_keys qs)).
  { apply in_all_keys. exists (o :: rest). split; [assumption |].
    left; reflexivity. }
  rewrite min_head_end in Hin by (apply Z.ltb_ge in E; lia).
  destruct Hin.
Qed.

Lemma collect_late_at_yield (ps0 : list (list Obj)) :
  forall (n : nat) (ps : list (list Obj)),
    ps <> [] ->
    fst (min_head ps) < 100 ->
    (total_length ps <= n)%nat ->
    exists (k : nat) (g : zip_frame Obj),
      zip_collect_late n (frame_at ps0 ps) = Some (k, g, Finished) /\
      force g = repeat None (List.length ps).
Proof.
  induction n as [| n IH]; intros ps Hne Hreal Hlen.
  - pose proof (step_streams_shrinks ps Hne Hreal). lia.
  - simpl. rewrite (zip_resume_at_yield ps0 ps Hne). unfold after_min.
    pose proof (step_streams_shrinks ps Hne Hreal) as Hshrink.
    pose proof (step_streams_nonempty ps Hne) as Hne'.
    assert (Hl : List.length (step_streams ps) = List.length ps)
      by (unfold step_streams; apply length_map).
    destruct (fst (min_head (step_streams ps)) <? 100) eqn:E.
    + apply Z.ltb_lt in E.
      destruct (IH (step_streams ps) Hne' E) as (k & g & Hc & Hf); [lia |].
      rewrite Hc. exists (S k), g. split; [reflexivity |].
      rewrite Hf, Hl. reflexivity.
    + eexists O, _. split; [reflexivity |].
      unfold force; simpl. rewrite force_all_empty, Hl; [reflexivity |].
      apply exhausted_streams; assumption.
Qed.

(** A consumer that keeps the yielded values and reads them only after
    the generator is exhausted finds nothing but absence markers in
    them: the values are views of the cursors, not tuples. *)
Lemma zip_processors_read_late (ps : list (list Obj)) :
  ps <> [] ->
  exists (k : nat) (g : zip_frame Obj),
    zip_collect_late (S (total_length ps)) (zip_init ps)
    = Some (k, g, Finished) /\
    force g = repeat None (List.length ps).
Proof.
  intros Hne. simpl. rewrite (zip_resume_start ps Hne). unfold after_min.
  destruct (fst (min_head ps) <? 100) eqn:E.
  - apply Z.ltb_lt in E.
    destruct (collect_late_at_yield ps (total_length ps) ps Hne E) as (k & g & Hc & Hf);
      [lia |].
    rewrite Hc. exists (S k), g. auto.
  - eexists O, _. split; [reflexivity |].
    unfold force; simpl. apply force_all_empty.
    apply exhausted_streams; assumption.
Qed.

(** *** The claims about the merge *)

(** C1 (amended).  For N >= 1 streams, each strictly ascending by composite
    key (ascending, and no key repeated inside a stream), [zip_processors],
    read tuple by tuple, ends normally and yields one N-length tuple per
    distinct key present in some stream: every such key appears in
    exactly one tuple, and in the tuple of key [k] slot [i] is stream
    [i]'s record with key [k] when the stream has one and the absence
    marker [None] otherwise. *)
Theorem zip_processors_aligned (ps : list (list Obj)) :
  ps <> [] ->
  Forall strictly_ascending ps ->
  exists rows : list (list (option Obj)),
    zip_processors ps = Some (rows, Finished) /\
    merge_aligned ps rows /\
    (forall k, In k (all_keys ps) ->
       exists! j, exists row,
         nth_error rows j = Some row /\ appears_in k row) /\
    (forall row, In row rows -> List.length row = List.length ps) /\
    (forall k s o, In s ps -> (lookup k s = Some o <-> In o s /\ key_of o = k)) /\
    (forall k s, lookup k s = None <-> ~ In k (keys_of s)).
Proof.
  intros Hne Hs.
  destruct (zip_processors_sorted ps Hne Hs) as (rows & ks & Hrun & Hsorted & Hmem & Hrows).
  assert (Ha : merge_aligned ps rows).
  { exists ks. split; [apply sorted_lt_NoDup; assumption | split; assumption]. }
  exists rows. split; [assumption | split; [assumption |]].
  split; [apply merge_aligned_once; assumption |].
  split; [apply merge_aligned_width; assumption |].
  split.
  - intros k s o Hin. apply lookup_some.
    rewrite Forall_forall in Hs. apply Hs; assumption.
  - intros k s. apply lookup_absent.
Qed.

(** C4 (amended).  For N >= 1 finite streams, each strictly ascending by
    composite key, [zip_processors] terminates normally and the number of
    its yield steps is the number of distinct composite keys across all
    streams; a resumption of the generator ends the iteration exactly
    when the smallest key held by the cursors is the end marker, and the
    end marker is greater than the key of every record. *)
Theorem zip_processors_terminates (ps : list (list Obj)) :
  ps <> [] ->
  Forall strictly_ascending ps ->
  (exists rows : list (list (option Obj)),
     zip_processors ps = Some (rows, Finished) /\
     List.length rows = List.length (distinct_keys ps)) /\
  (forall (f f' : zip_frame Obj) (sig : signal genexpr),
     reachable ps f ->
     zpc f <> ZDone ->
     zip_resume f = (sig, f') ->
     (sig = StopIteration <-> min_comp (iters f') = Some END_MARKER)) /\
  (forall o : Obj, key_lt (key_of o) END_MARKER).
Proof.
  intros Hne Hs. split; [| split].
  - destruct (zip_processors_sorted ps Hne Hs) as (rows & ks & Hrun & Hsorted & Hmem & Hrows).
    exists rows. split; [assumption |].
    apply merge_aligned_count. exists ks.
    split; [apply sorted_lt_NoDup; assumption | split; assumption].
  - intros f f' sig Hreach Hpc Hres.
    eapply resume_stops_at_sentinel; eassumption.
  - apply sentinel_above.
Qed.

(** Termination does not depend on the order of the records. *)
Lemma zip_processors_total (ps : list (list Obj)) :
  exists rows e, zip_processors ps = Some (rows, e).
Proof.
  destruct ps as [| p ps].
  - exists [], (Failed ValueError). reflexivity.
  - eexists _, _. apply zip_processors_merge_rows. discriminate.
Qed.

(** C3.  Called with no stream at all, the generator does not end
    quietly: its first resumption evaluates [min] over an empty sequence,
    which raises [ValueError]; no tuple is yielded. *)
Theorem zip_processors_no_streams :
  zip_resume (zip_init []) = (Raised ValueError, zip_dead (zip_init [])) /\
  zip_processors [] = Some ([], Failed ValueError).
Proof. split; reflexivity. Qed.


End MergeFacts.

(** *** The merge on the example streams *)

Lemma stream_A_B_strictly_ascending :
  Forall strictly_ascending [stream_A; stream_B].
Proof.
  repeat constructor; unfold key_lt; simpl; lia.
Defined.

(** The scenario of the specification: (node,1) comes from A only,
    (node,2) from B only, (node,3) from both. *)
Example zip_processors_scenario :
  zip_processors [stream_A; stream_B]
  = Some ([[Some (node, 1, 1); None];
           [None; Some (node, 2, 1)];
           [Some (node, 3, 1); Some (node, 3, 2)]], Finished).
Proof. reflexivity. Qed.

(** The same streams, the yielded values being read only after the
    generator is exhausted: three values were yielded, and each of them
    now reads as absence markers only. *)
Example zip_processors_scenario_read_late :
  match zip_collect_late 5 (zip_init [stream_A; stream_B]) with
  | Some (n, g, e) => n = 3%nat /\ e = Finished /\ force g = [None; None]
  | None => False
  end.
Proof. vm_compute. repeat split; reflexivity. Qed.

Lemma zip_processors_aligned_witness :
  [stream_A; stream_B] <> [] /\
  Forall strictly_ascending [stream_A; stream_B] /\
  exists rows : list (list (option Rec)),
    zip_processors [stream_A; stream_B] = Some (rows, Finished) /\
    merge_aligned [stream_A; stream_B] rows /\
    (forall k, In k (all_keys [stream_A; stream_B]) ->
       exists! j, exists row,
         nth_error rows j = Some row /\ appears_in k row) /\
    (forall row, In row rows -> List.length row = List.length [stream_A; stream_B]) /\
    (forall k s o, In s [stream_A; stream_B] ->
       (lookup k s = Some o <-> In o s /\ key_of o = k)) /\
    (forall k s, lookup k s = None <-> ~ In k (keys_of s)).
Proof.
  split; [discriminate |].
  split; [exact stream_A_B_strictly_ascending |].
  apply (zip_processors_aligned Rec [stream_A; stream_B]);
    [discriminate | exact stream_A_B_strictly_ascending].
Defined.

Lemma zip_processors_terminates_witness :
  [stream_A; stream_B] <> [] /\
  Forall strictly_ascending [stream_A; stream_B] /\
  (exists rows : list (list (option Rec)),
     zip_processors [stream_A; stream_B] = Some (rows, Finished) /\
     List.length rows = List.length (distinct_keys [stream_A; stream_B])) /\
  (forall (f f' : zip_frame Rec) (sig : signal genexpr),
     reachable [stream_A; stream_B] f ->
     zpc f <> ZDone ->
     zip_resume f = (sig, f') ->
     (sig = StopIteration <-> min_comp (iters f') = Some END_MARKER)) /\
  (forall o : Rec, key_lt (key_of o) END_MARKER).
Proof.
  split; [discriminate |].
  split; [exact stream_A_B_strictly_ascending |].
  apply (zip_processors_terminates Rec [stream_A; stream_B]);
    [discriminate | exact stream_A_B_strictly_ascending].
Defined.

Lemma stream_history_ascending :
  Forall ascending [stream_history; stream_B].
Proof.
  repeat constructor; unfold key_le, key_lt; simpl;
    first [left; lia | right; reflexivity].
Qed.

(** C1, as stated, fails on a stream that is sorted ascending but holds a
    key twice (two versions of node 1): the key (0, 1) appears in two
    tuples. *)
Lemma zip_processors_repeated_key :
  Forall ascending [stream_history] /\
  zip_processors [stream_history]
  = Some ([[Some (node, 1, 1)]; [Some (node, 1, 2)]; [Some (way, 7, 1)]], Finished) /\
  In (0, 1) (all_keys [stream_history]) /\
  ~ (exists! j, exists row,
       nth_error [[Some (node, 1, 1)]; [Some (node, 1, 2)]; [Some (way, 7, 1)]] j
       = Some row /\
       appears_in (0, 1) row) /\
  ~ merge_aligned [stream_history]
      [[Some (node, 1, 1)]; [Some (node, 1, 2)]; [Some (way, 7, 1)]].
Proof.
  split.
  { pose proof stream_history_ascending as H. inversion H; subst.
    constructor; [assumption | constructor]. }
  split; [reflexivity |].
  split; [left; reflexivity |].
  split.
  - intros (j & _ & Huniq).
    assert (H0 : j = 0%nat).
    { apply Huniq. exists [Some (node, 1, 1)]. split; [reflexivity |].
      exists (node, 1, 1). split; [left |]; reflexivity. }
    assert (H1 : j = 1%nat).
    { apply Huniq. exists [Some (node, 1, 2)]. split; [reflexivity |].
      exists (node, 1, 2). split; [left |]; reflexivity. }
    congruence.
  - intros Ha. apply merge_aligned_count in Ha. vm_compute in Ha. discriminate.
Qed.

(** C4, as stated, fails on the same kind of input: five yield steps for
    four distinct keys. *)
Lemma zip_processors_repeated_key_steps :
  Forall ascending [stream_history; stream_B] /\
  exists rows : list (list (option Rec)),
    zip_processors [stream_history; stream_B] = Some (rows, Finished) /\
    List.length rows = 5%nat /\
    List.length (distinct_keys [stream_history; stream_B]) = 4%nat.
Proof.
  split; [exact stream_history_ascending |].
  eexists. split; [reflexivity |]. split; reflexivity.
Qed.

(** ** The iterator of [FileProcessor] *)

Section ProcessorFacts.

Context {osmium : Osmium}.

(** *** Chains *)

Lemma run_chain_app (hs1 hs2 : list handler) (w : hstate) (o : Entity) :
  run_chain (hs1 ++ hs2) w o
  = match run_chain hs1 w o with
    | (w', Some o') => run_chain hs2 w' o'
    | (w', None) => (w', None)
    end.
Proof.
  revert w o; induction hs1 as [| h hs1 IH]; intros w o; simpl.
  - reflexivity.
  - destruct (apply_handler h w o) as [w' [o' |]]; [apply IH | reflexivity].
Qed.

Lemma run_chain_filters (fs : list Filter) (w : hstate) (o : Entity) :
  run_chain (map UserFilter fs) w o
  = (w, if suppressed fs o then None else Some o).
Proof.
  induction fs as [| f fs IH]; simpl.
  - reflexivity.
  - destruct (f o); simpl; [reflexivity | apply IH].
Qed.

Lemma run_chain_filtered (hs : list handler) (fs : list Filter) (w : hstate) (o : Entity) :
  run_chain (hs ++ map UserFilter fs) w o
  = match run_chain hs w o with
    | (w', Some o') => (w', if suppressed fs o' then None else Some o')
    | (w', None) => (w', None)
    end.
Proof.
  rewrite run_chain_app.
  destruct (run_chain hs w o) as [w' [o' |]]; [apply run_chain_filters | reflexivity].
Qed.

Lemma flush_chain_filtered (hs : list handler) (fs : list Filter) (w : hstate) :
  flush_chain (hs ++ map UserFilter fs) w = flush_chain hs w.
Proof.
  unfold flush_chain. rewrite fold_left_app.
  generalize (fold_left (fun w' h => flush_handler h w') hs w) as w0.
  induction fs as [| f fs IH]; intros w0; simpl; [reflexivity | apply IH].
Qed.

(** The internal stages let every object through. *)
Lemma internal_passes (hs : list handler) (w : hstate) (o : Entity) :
  Forall internal hs -> exists w' o', run_chain hs w o = (w', Some o').
Proof.
  intros Hint; revert w o; induction Hint as [| h hs Hh _ IH]; intros w o; simpl.
  - eauto.
  - destruct h; simpl in *; try contradiction.
    + destruct (h_store w) as [t |]; [destruct (locations_for_ways t o) |]; apply IH.
    + destruct (h_areas w); apply IH.
    + destruct (h_areas w) as [a |]; [destruct (second_pass a o) |]; apply IH.
Qed.

(** *** Frames *)

Lemma put_world_same (fr : iter_frame) : put_world fr (world_of fr) = fr.
Proof. destruct fr as [pc [f r e s a fs] hs rd q]; reflexivity. Qed.

Lemma world_of_put (fr : iter_frame) (w : hstate) : world_of (put_world fr w) = w.
Proof. destruct w; reflexivity. Qed.

Lemma BufferIterator_next_scan (fs : list Filter) (q : list Entity) (w : hstate) :
  BufferIterator_next (map UserFilter fs) q w
  = (fst (buffer_scan fs q), snd (buffer_scan fs q), w).
Proof.
  induction q as [| a q IH]; simpl; [reflexivity |].
  rewrite run_chain_filters. destruct (suppressed fs a); [apply IH | reflexivity].
Qed.

Lemma next_buffered_scan (fr : iter_frame) :
  next_buffered fr
  = (fst (buffer_scan (_filters (self_ fr)) (buffer_it fr)),
     set_buffer fr (snd (buffer_scan (_filters (self_ fr)) (buffer_it fr)))).
Proof.
  unfold next_buffered, user_filters.
  rewrite BufferIterator_next_scan, put_world_same. reflexivity.
Qed.

(** The buffer iterator is exhausted only when its queue is empty. *)
Lemma buffer_scan_none (fs : list Filter) (q : list Entity) :
  fst (buffer_scan fs q) = None -> snd (buffer_scan fs q) = [].
Proof.
  induction q as [| a q IH]; simpl; [reflexivity |].
  destruct (suppressed fs a); [exact IH | discriminate].
Qed.

Lemma next_buffered_exhausted (fr fr' : iter_frame) :
  next_buffered fr = (None, fr') -> buffer_it fr' = [].
Proof.
  rewrite next_buffered_scan. intros H. injection H as Hnone <-.
  simpl. apply buffer_scan_none. exact Hnone.
Qed.

Lemma next_primary_nil (fr : iter_frame) :
  pending (_reader (self_ fr)) = [] ->
  next_primary fr
  = (Ok None,
     set_pending (put_world fr (flush_chain (handlers fr) (world_of fr))) spent).
Proof.
  intros Hp. unfold next_primary. rewrite Hp; simpl.
  unfold user_filters. rewrite flush_chain_filtered. reflexivity.
Qed.

Lemma next_primary_error (fr : iter_frame) (code : Z) (rest : list read) :
  pending (_reader (self_ fr)) = ReadError code :: rest ->
  next_primary fr = (Raise (ExternalError code), set_pending fr spent).
Proof.
  intros Hp. unfold next_primary. rewrite Hp; simpl.
  rewrite put_world_same. reflexivity.
Qed.

Lemma next_primary_obj (fr : iter_frame) (o : Entity) (rest : list read) :
  pending (_reader (self_ fr)) = ReadObj o :: rest ->
  next_primary fr
  = match run_chain (handlers fr) (world_of fr) o with
    | (w', Some o') =>
        if suppressed (_filters (self_ fr)) o'
        then next_primary (set_pending (put_world fr w') rest)
        else (Ok (Some o'), set_pending (put_world fr w') rest)
    | (w', None) => next_primary (set_pending (put_world fr w') rest)
    end.
Proof.
  intros Hp. unfold next_primary at 1. rewrite Hp; simpl.
  unfold user_filters. rewrite run_chain_filtered.
  destruct (run_chain (handlers fr) (world_of fr) o) as [[s a q] [o' |]].
  - destruct (suppressed (_filters (self_ fr)) o'); reflexivity.
  - reflexivity.
Qed.

(** What a resumption does depends on the program counter only through
    [iter_resume]. *)
Lemma next_primary_pc (fr : iter_frame) (pc : iter_pc) :
  next_primary (set_pc fr pc)
  = (fst (next_primary fr), set_pc (snd (next_primary fr)) pc).
Proof.
  unfold next_primary; simpl.
  change (user_filters (set_pc fr pc)) with (user_filters fr).
  change (world_of (set_pc fr pc)) with (world_of fr).
  destruct (OsmFileIterator_next (handlers fr ++ user_filters fr)
              (pending (_reader (self_ fr))) (world_of fr)) as [[r rest] w].
  reflexivity.
Qed.

Lemma next_buffered_pc (fr : iter_frame) (pc : iter_pc) :
  next_buffered (set_pc fr pc)
  = (fst (next_buffered fr), set_pc (snd (next_buffered fr)) pc).
Proof. rewrite !next_buffered_scan. reflexivity. Qed.

Lemma resume_final_pc (fr : iter_frame) (pc : iter_pc) :
  resume_final (set_pc fr pc) = resume_final fr.
Proof.
  unfold resume_final. rewrite next_buffered_pc.
  destruct (next_buffered fr) as [[a |] fr']; reflexivity.
Qed.

Lemma resume_loop_pc (fr : iter_frame) (pc : iter_pc) :
  resume_loop (set_pc fr pc) = resume_loop fr.
Proof.
  unfold resume_loop. rewrite next_primary_pc.
  destruct (next_primary fr) as [[[o |] | e] fr']; simpl; try reflexivity.
  destruct (buffer_it fr'); [reflexivity | apply resume_final_pc].
Qed.

(** *** Complete runs *)

Lemma runs_unfold (fr : iter_frame) (out : list Entity) (e : ending) (w : hstate) :
  runs_from (iter_resume fr) out e w -> runs fr out e w.
Proof.
  unfold runs_from, runs.
  destruct (iter_resume fr) as [[o | | x] fr1] eqn:E.
  - intros (out' & -> & n & fr' & Hc & Hw & Hpc).
    exists (S n), fr'. simpl. rewrite E, Hc. auto.
  - intros (-> & -> & Hw & Hpc). exists 1%nat, fr1. simpl. rewrite E. auto.
  - intros (-> & -> & Hw & Hpc). exists 1%nat, fr1. simpl. rewrite E. auto.
Qed.

Lemma runs_from_yield (o : Entity) (fr : iter_frame) (out : list Entity)
      (e : ending) (w : hstate) :
  runs fr out e w -> runs_from (Yielded o, fr) (o :: out) e w.
Proof. intros H. exists out. auto. Qed.

(** The final drain yields the queued objects that pass the filters. *)
Lemma final_drain_runs :
  forall (q : list Entity) (fr : iter_frame),
    buffer_it fr = q ->
    runs_from (resume_final fr) (passing (_filters (self_ fr)) q) Finished
              (clear_buffer (world_of fr)).
Proof.
  induction q as [| a q IH]; intros fr Hq; unfold resume_final;
    rewrite next_buffered_scan, Hq; simpl.
  - repeat split; reflexivity.
  - destruct (suppressed (_filters (self_ fr)) a) eqn:Ea; simpl.
    + specialize (IH (set_buffer fr q) eq_refl).
      unfold resume_final in IH. rewrite next_buffered_scan in IH. exact IH.
    + apply runs_from_yield. apply runs_unfold. simpl.
      exact (IH (set_pc (set_buffer fr q) IFinalDrain) eq_refl).
Qed.

(** The drain inside the loop yields the queued objects that pass the
    filters, and then the loop goes on with an empty queue. *)
Lemma loop_drain_runs (out : list Entity) (e : ending) (w : hstate) :
  forall (q : list Entity) (fr : iter_frame),
    buffer_it fr = q ->
    runs_from (resume_loop (set_buffer fr [])) out e w ->
    runs_from (resume_drain fr) (passing (_filters (self_ fr)) q ++ out) e w.
Proof.
  induction q as [| a q IH]; intros fr Hq Hloop; unfold resume_drain;
    rewrite next_buffered_scan, Hq; simpl.
  - exact Hloop.
  - destruct (suppressed (_filters (self_ fr)) a) eqn:Ea; simpl.
    + specialize (IH (set_buffer fr q) eq_refl Hloop).
      unfold resume_drain in IH. rewrite next_buffered_scan in IH. exact IH.
    + apply runs_from_yield. apply runs_unfold. simpl.
      apply (IH (set_pc (set_buffer fr q) IDrain) eq_refl).
      change (set_buffer (set_pc (set_buffer fr q) IDrain) [])
        with (set_pc (set_buffer fr []) IDrain).
      rewrite resume_loop_pc. exact Hloop.
Qed.

(** The loop of pass two computes [pass_two_spec], draining the queue
    through the filters. *)
Lemma loop_runs :
  forall (items : list read) (fr : iter_frame),
    pending (_reader (self_ fr)) = items ->
    forall out e w,
      pass_two_spec (passing (_filters (self_ fr))) (handlers fr)
                    (_filters (self_ fr)) items (world_of fr) = (out, e, w) ->
      runs_from (resume_loop fr) out e w.
Proof.
  induction items as [| [o | code] rest IH]; intros fr Hp out e w Hspec.
  - simpl in Hspec. injection Hspec as Hout He Hw; subst out e w.
    unfold resume_loop. rewrite (next_primary_nil fr Hp).
    destruct (flush_chain (handlers fr) (world_of fr)) as [s a q] eqn:Ew.
    destruct q as [| b q]; simpl.
    + repeat split; reflexivity.
    + exact (final_drain_runs (b :: q)
               (set_pending (put_world fr (mkHState s a (b :: q))) spent) eq_refl).
  - simpl in Hspec. unfold resume_loop. rewrite (next_primary_obj fr o rest Hp).
    destruct (run_chain (handlers fr) (world_of fr) o) as [[s a q] [o' |]].
    + destruct (suppressed (_filters (self_ fr)) o').
      * exact (IH (set_pending (put_world fr (mkHState s a q)) rest) eq_refl _ _ _ Hspec).
      * destruct (pass_two_spec (passing (_filters (self_ fr))) (handlers fr)
                    (_filters (self_ fr)) rest (clear_buffer (mkHState s a q)))
          as [[out' e'] w'] eqn:Erest.
        injection Hspec as Hout He Hw; subst out e w.
        apply runs_from_yield. apply runs_unfold.
        unfold iter_resume; simpl.
        destruct q as [| b q].
        -- exact (IH (set_pc (set_pending (put_world fr (mkHState s a [])) rest)
                             IAfterPrimary) eq_refl _ _ _ Erest).
        -- apply (loop_drain_runs out' e' w' (b :: q)
                    (set_pc (set_pending (put_world fr (mkHState s a (b :: q))) rest)
                            IAfterPrimary) eq_refl).
           exact (IH (set_buffer
                        (set_pc (set_pending (put_world fr (mkHState s a (b :: q))) rest)
                                IAfterPrimary) [])
                     eq_refl _ _ _ Erest).
    + exact (IH (set_pending (put_world fr (mkHState s a q)) rest) eq_refl _ _ _ Hspec).
  - simpl in Hspec. injection Hspec as Hout He Hw; subst out e w.
    unfold resume_loop. rewrite (next_primary_error fr code rest Hp). simpl.
    repeat split; reflexivity.
Qed.

(** Single-pass mode computes [single_pass_spec]. *)
Lemma single_runs :
  forall (items : list read) (fr : iter_frame),
    pending (_reader (self_ fr)) = items ->
    forall out e w,
      single_pass_spec (handlers fr) (_filters (self_ fr)) items (world_of fr)
      = (out, e, w) ->
      runs_from (resume_single fr) out e w.
Proof.
  induction items as [| [o | code] rest IH]; intros fr Hp out e w Hspec.
  - simpl in Hspec. injection Hspec as Hout He Hw; subst out e w.
    unfold resume_single. rewrite (next_primary_nil fr Hp). simpl.
    repeat split; try reflexivity.
    destruct (flush_chain (handlers fr) (world_of fr)); reflexivity.
  - simpl in Hspec. unfold resume_single. rewrite (next_primary_obj fr o rest Hp).
    destruct (run_chain (handlers fr) (world_of fr) o) as [[s a q] [o' |]].
    + destruct (single_pass_spec (handlers fr) (_filters (self_ fr)) rest (mkHState s a q))
        as [[out' e'] w'] eqn:Erest.
      injection Hspec as Hout He Hw; subst out e w.
      destruct (suppressed (_filters (self_ fr)) o').
      * exact (IH (set_pending (put_world fr (mkHState s a q)) rest) eq_refl _ _ _ Erest).
      * apply runs_from_yield. apply runs_unfold.
        exact (IH (set_pc (set_pending (put_world fr (mkHState s a q)) rest) ISingle)
                  eq_refl _ _ _ Erest).
    + exact (IH (set_pending (put_world fr (mkHState s a q)) rest) eq_refl _ _ _ Hspec).
  - simpl in Hspec. injection Hspec as Hout He Hw; subst out e w.
    unfold resume_single. rewrite (next_primary_error fr code rest Hp). simpl.
    repeat split; reflexivity.
Qed.

(** *** Pass one *)

Lemma flush_chain_filters_first (fs : list Filter) (hs : list handler) (w : hstate) :
  flush_chain (map UserFilter fs ++ hs) w = flush_chain hs w.
Proof.
  unfold flush_chain. rewrite fold_left_app. f_equal.
  induction fs as [| f fs IH]; simpl; [reflexivity | apply IH].
Qed.

Lemma apply_first_pass (fs : list Filter) :
  forall (items : list read) (w : hstate) (a : AreaManager),
    h_areas w = Some a ->
    apply_ (map UserFilter fs ++ [FirstPassHandler]) items w
    = (match read_ending items with
       | Finished => Ok tt
       | Failed x => Raise x
       end,
       unread items,
       {| h_store := h_store w; h_areas := Some (pass_one_spec fs items a);
          h_buffer := h_buffer w |}).
Proof.
  induction items as [| [o | code] rest IH]; intros [s a0 q] a Ha;
    simpl in Ha; subst a0.
  - simpl. rewrite flush_chain_filters_first. reflexivity.
  - cbn [apply_ read_ending unread pass_one_spec].
    rewrite run_chain_app, run_chain_filters.
    destruct (suppressed fs o); simpl.
    + apply (IH (mkHState s (Some a) q)). reflexivity.
    + apply (IH (mkHState s (Some (first_pass a o)) q)). reflexivity.
  - reflexivity.
Qed.

Lemma pass_one_result (fr : iter_frame) (self : FileProcessor) (a : AreaManager) :
  self_ fr = self ->
  _area_handler self = Some a ->
  pass_one fr
  = (match read_ending (relations_of self) with
     | Finished => Ok tt
     | Failed x => Raise x
     end,
     set_rd (put_world fr
               {| h_store := _node_store self;
                  h_areas := Some (pass_one_spec (_filters self) (relations_of self) a);
                  h_buffer := buffer_it fr |})
            (Some {| pending := spent; closed := true |})).
Proof.
  intros <- Ha. unfold pass_one, user_filters.
  rewrite (apply_first_pass _ _ (world_of fr) a) by exact Ha.
  reflexivity.
Qed.

(** *** From [iter(self)] *)

Lemma single_pass_runs (self : FileProcessor) :
  _area_handler self = None ->
  forall out e w,
    single_pass_spec (location_handlers self) (_filters self)
                     (pending (_reader self)) (initial_world self) = (out, e, w) ->
    runs (FileProcessor_iter self) out e w.
Proof.
  intros Ha out e w Hspec. apply runs_unfold.
  unfold iter_resume, resume_start; simpl. rewrite Ha.
  apply (single_runs (pending (_reader self))
           (set_handlers (FileProcessor_iter self) (location_handlers self)) eq_refl).
  exact Hspec.
Qed.

Lemma two_pass_runs (self : FileProcessor) (a : AreaManager) :
  _area_handler self = Some a ->
  read_ending (relations_of self) = Finished ->
  forall out e w,
    pass_two_spec (passing (_filters self))
                  (location_handlers self ++ [SecondPassToBuffer]) (_filters self)
                  (pending (_reader self))
                  (pass_two_world self (pass_one_spec (_filters self) (relations_of self) a))
    = (out, e, w) ->
    runs (FileProcessor_iter self) out e w.
Proof.
  intros Ha Hrel out e w Hspec. apply runs_unfold.
  unfold iter_resume, resume_start.
  cbn [ipc FileProcessor_iter self_ set_handlers]. rewrite Ha.
  fold (location_handlers self).
  rewrite (pass_one_result
             (set_handlers (FileProcessor_iter self) (location_handlers self))
             self a eq_refl Ha), Hrel.
  match goal with
  | |- runs_from (resume_loop ?fr) _ _ _ =>
      apply (loop_runs (pending (_reader self)) fr eq_refl)
  end.
  exact Hspec.
Qed.

Lemma two_pass_fails (self : FileProcessor) (a : AreaManager) (x : exn) :
  _area_handler self = Some a ->
  read_ending (relations_of self) = Failed x ->
  exists fr' : iter_frame,
    iter_resume (FileProcessor_iter self) = (Raised x, fr') /\
    ipc fr' = IDone /\
    rd fr' = Some {| pending := spent; closed := true |} /\
    _reader (self_ fr') = _reader self /\
    _node_store (self_ fr') = _node_store self /\
    _area_handler (self_ fr')
    = Some (pass_one_spec (_filters self) (relations_of self) a) /\
    buffer_it fr' = [].
Proof.
  intros Ha Hrel. eexists.
  unfold iter_resume, resume_start.
  cbn [ipc FileProcessor_iter self_ set_handlers]. rewrite Ha.
  fold (location_handlers self).
  rewrite (pass_one_result
             (set_handlers (FileProcessor_iter self) (location_handlers self))
             self a eq_refl Ha), Hrel.
  split; [reflexivity |]. repeat split; reflexivity.
Qed.

(** *** More fuel changes nothing *)

Lemma iter_collect_more (n : nat) :
  forall (fr : iter_frame) (r : list Entity * ending * iter_frame) (m : nat),
    iter_collect n fr = Some r -> (n <= m)%nat -> iter_collect m fr = Some r.
Proof.
  induction n as [| n IH]; intros fr r m Hc Hle; [discriminate |].
  destruct m as [| m]; [lia |]. simpl in *.
  destruct (iter_resume fr) as [[o | | x] fr1]; try assumption.
  destruct (iter_collect n fr1) as [[[out e] fr2] |] eqn:E; [| discriminate].
  rewrite (IH fr1 _ m E) by lia. assumption.
Qed.

Lemma runs_any_fuel (fr : iter_frame) (out : list Entity) (e : ending) (w : hstate) :
  runs fr out e w ->
  exists (n : nat) (fr' : iter_frame),
    world_of fr' = w /\
    forall m, (n <= m)%nat -> iter_collect m fr = Some (out, e, fr').
Proof.
  intros (n & fr' & Hc & Hw & _). exists n, fr'. split; [assumption |].
  intros m Hle. eapply iter_collect_more; eassumption.
Qed.

(** *** What the expected runs look like *)

Lemma single_pass_plain (items : list read) (w : hstate) :
  single_pass_spec [] [] items w = (emitted items, read_ending items, w).
Proof.
  induction items as [| [o | code] rest IH]; simpl; try reflexivity.
  rewrite IH. reflexivity.
Qed.

Lemma emitted_all (objs : list Entity) :
  emitted (map ReadObj objs) = objs /\ read_ending (map ReadObj objs) = Finished.
Proof.
  induction objs as [| o objs [IH1 IH2]]; simpl; [auto |].
  rewrite IH1. auto.
Qed.

Lemma passing_unsuppressed (fs : list Filter) (q : list Entity) (o : Entity) :
  In o (passing fs q) -> suppressed fs o = false.
Proof.
  unfold passing. rewrite filter_In. intros [_ H].
  apply negb_true_iff in H. exact H.
Qed.

Lemma single_pass_books (hs : list handler) (fs : list Filter) :
  forall (items : list read) (w : hstate) out e w',
    single_pass_spec hs fs items w = (out, e, w') ->
    (forall o, In o out -> suppressed fs o = false) /\
    e = read_ending items /\
    w' = bookkeeping hs items w.
Proof.
  induction items as [| [o | code] rest IH]; intros w out e w' Hspec; simpl in *.
  - injection Hspec as <- <- <-. repeat split; intros o [].
  - destruct (run_chain hs w o) as [w1 [o' |]]; simpl.
    + destruct (single_pass_spec hs fs rest w1) as [[out1 e1] w2] eqn:E.
      injection Hspec as <- <- <-.
      destruct (IH w1 _ _ _ E) as (H1 & H2 & H3).
      repeat split; try assumption.
      intros x Hx. destruct (suppressed fs o') eqn:Es; [auto |].
      destruct Hx as [<- | Hx]; auto.
    + exact (IH w1 _ _ _ Hspec).
  - injection Hspec as <- <- <-. repeat split; intros o [].
Qed.

Lemma same_books_refl (w : hstate) : same_books w w.
Proof. split; reflexivity. Qed.

Lemma same_books_clear (w1 w2 : hstate) :
  same_books w1 w2 -> same_books (clear_buffer w1) w2.
Proof. intros [H1 H2]; split; assumption. Qed.

Lemma apply_handler_books (h : handler) (w1 w2 : hstate) (o : Entity) :
  same_books w1 w2 ->
  same_books (fst (apply_handler h w1 o)) (fst (apply_handler h w2 o)) /\
  snd (apply_handler h w1 o) = snd (apply_handler h w2 o).
Proof.
  destruct w1 as [s1 a1 q1], w2 as [s2 a2 q2]. intros [Hs Ha]; simpl in *; subst.
  destruct h; simpl.
  - destruct s2 as [t |]; [destruct (locations_for_ways t o) |];
      simpl; repeat split; reflexivity.
  - destruct a2; simpl; repeat split; reflexivity.
  - destruct a2 as [a |]; [destruct (second_pass a o) |];
      simpl; repeat split; reflexivity.
  - repeat split; reflexivity.
Qed.

Lemma run_chain_books (hs : list handler) :
  forall (w1 w2 : hstate) (o : Entity),
    same_books w1 w2 ->
    same_books (fst (run_chain hs w1 o)) (fst (run_chain hs w2 o)) /\
    snd (run_chain hs w1 o) = snd (run_chain hs w2 o).
Proof.
  induction hs as [| h hs IH]; intros w1 w2 o Hb; simpl.
  - split; [assumption | reflexivity].
  - destruct (apply_handler_books h w1 w2 o Hb) as [Hb' Ho].
    destruct (apply_handler h w1 o) as [w1' r1], (apply_handler h w2 o) as [w2' r2].
    simpl in *. subst r2. destruct r1 as [o' |]; [apply IH; assumption |].
    split; [assumption | reflexivity].
Qed.

Lemma flush_chain_books (hs : list handler) :
  forall w1 w2 : hstate,
    same_books w1 w2 -> same_books (flush_chain hs w1) (flush_chain hs w2).
Proof.
  unfold flush_chain. induction hs as [| h hs IH]; intros w1 w2 Hb; simpl.
  - assumption.
  - apply IH. destruct w1 as [s1 a1 q1], w2 as [s2 a2 q2], Hb as [Hs Ha].
    simpl in *; subst. destruct h; simpl; try (split; reflexivity).
    destruct a2 as [a |]; [destruct (second_pass_flush a) |]; split; reflexivity.
Qed.

Lemma pass_two_books (drain : list Entity -> list Entity)
      (hs : list handler) (fs : list Filter) :
  forall (items : list read) (w1 w2 : hstate) out e w',
    same_books w1 w2 ->
    pass_two_spec drain hs fs items w1 = (out, e, w') ->
    e = read_ending items /\ same_books w' (bookkeeping hs items w2).
Proof.
  induction items as [| [o | code] rest IH]; intros w1 w2 out e w' Hb Hspec;
    simpl in *.
  - injection Hspec as <- <- <-. split; [reflexivity |].
    apply same_books_clear, flush_chain_books; assumption.
  - destruct (run_chain_books hs w1 w2 o Hb) as [Hb' _].
    destruct (run_chain hs w1 o) as [w1' [o' |]]; simpl in Hb'.
    + destruct (suppressed fs o').
      * exact (IH _ _ _ _ _ Hb' Hspec).
      * destruct (pass_two_spec drain hs fs rest (clear_buffer w1'))
          as [[out1 e1] w2'] eqn:E.
        injection Hspec as <- <- <-.
        exact (IH _ _ _ _ _ (same_books_clear _ _ Hb') E).
    + exact (IH _ _ _ _ _ Hb' Hspec).
  - injection Hspec as <- <- <-. split; [reflexivity | assumption].
Qed.

Lemma pass_two_unsuppressed (hs : list handler) (fs : list Filter) :
  forall (items : list read) (w : hstate) out e w',
    pass_two_spec (passing fs) hs fs items w = (out, e, w') ->
    forall o, In o out -> suppressed fs o = false.
Proof.
  induction items as [| [o | code] rest IH]; intros w out e w' Hspec x Hx;
    simpl in *.
  - injection Hspec as <- <- <-. eapply passing_unsuppressed; eassumption.
  - destruct (run_chain hs w o) as [w1 [o' |]].
    + destruct (suppressed fs o') eqn:Es.
      * exact (IH _ _ _ _ Hspec x Hx).
      * destruct (pass_two_spec (passing fs) hs fs rest (clear_buffer w1))
          as [[out1 e1] w2] eqn:E.
        injection Hspec as <- <- <-.
        destruct Hx as [<- | Hx]; [assumption |].
        apply in_app_or in Hx as [Hx | Hx];
          [eapply passing_unsuppressed; eassumption | exact (IH _ _ _ _ E x Hx)].
    + exact (IH _ _ _ _ Hspec x Hx).
  - injection Hspec as <- <- <-. destruct Hx.
Qed.

Lemma pass_two_buffer_empty (drain : list Entity -> list Entity)
      (hs : list handler) (fs : list Filter) :
  forall (items : list read) (w : hstate) out w',
    pass_two_spec drain hs fs items w = (out, Finished, w') -> h_buffer w' = [].
Proof.
  induction items as [| [o | code] rest IH]; intros w out w' Hspec; simpl in *.
  - injection Hspec as <- <-. reflexivity.
  - destruct (run_chain hs w o) as [w1 [o' |]].
    + destruct (suppressed fs o').
      * exact (IH _ _ _ Hspec).
      * destruct (pass_two_spec drain hs fs rest (clear_buffer w1))
          as [[out1 e1] w2] eqn:E.
        injection Hspec as <- -> <-. exact (IH _ _ _ E).
    + exact (IH _ _ _ Hspec).
  - discriminate.
Qed.

(** *** Errors raised by the iterator *)

Lemma OsmFileIterator_next_raises (hs : list handler) :
  forall (items : list read) (w : hstate) x rest w',
    OsmFileIterator_next hs items w = (Raise x, rest, w') ->
    exists code, x = ExternalError code.
Proof.
  induction items as [| [o | code] items IH]; intros w x rest w' H; simpl in H.
  - discriminate.
  - destruct (run_chain hs w o) as [w1 [o' |]]; [discriminate | eauto].
  - injection H as <- _ _. eauto.
Qed.

Lemma apply_raises (hs : list handler) :
  forall (items : list read) (w : hstate) x rest w',
    apply_ hs items w = (Raise x, rest, w') ->
    exists code, x = ExternalError code.
Proof.
  induction items as [| [o | code] items IH]; intros w x rest w' H; simpl in H.
  - discriminate.
  - eauto.
  - injection H as <- _ _. eauto.
Qed.

Lemma next_primary_raises (fr fr' : iter_frame) (x : exn) :
  next_primary fr = (Raise x, fr') -> exists code, x = ExternalError code.
Proof.
  unfold next_primary.
  destruct (OsmFileIterator_next (handlers fr ++ user_filters fr)
              (pending (_reader (self_ fr))) (world_of fr)) as [[r rest] w] eqn:E.
  intros H; injection H as -> _. eapply OsmFileIterator_next_raises; eassumption.
Qed.

Lemma resume_final_raises (fr fr' : iter_frame) (x : exn) :
  resume_final fr = (Raised x, fr') -> False.
Proof.
  unfold resume_final. destruct (next_buffered fr) as [[a |] f]; discriminate.
Qed.

Lemma resume_loop_raises (fr fr' : iter_frame) (x : exn) :
  resume_loop fr = (Raised x, fr') -> exists code, x = ExternalError code.
Proof.
  unfold resume_loop.
  destruct (next_primary fr) as [[[o |] | x0] fr1] eqn:E.
  - discriminate.
  - destruct (buffer_it fr1); [discriminate |].
    intros H; destruct (resume_final_raises _ _ _ H).
  - intros H; injection H as <- _. eapply next_primary_raises; eassumption.
Qed.

Lemma resume_single_raises (fr fr' : iter_frame) (x : exn) :
  resume_single fr = (Raised x, fr') -> exists code, x = ExternalError code.
Proof.
  unfold resume_single.
  destruct (next_primary fr) as [[[o |] | x0] fr1] eqn:E; try discriminate.
  intros H; injection H as <- _. eapply next_primary_raises; eassumption.
Qed.

Lemma resume_drain_raises (fr fr' : iter_frame) (x : exn) :
  resume_drain fr = (Raised x, fr') -> exists code, x = ExternalError code.
Proof.
  unfold resume_drain. destruct (next_buffered fr) as [[a |] f]; [discriminate |].
  apply resume_loop_raises.
Qed.

Lemma pass_one_raises (fr fr' : iter_frame) (x : exn) :
  pass_one fr = (Raise x, fr') -> exists code, x = ExternalError code.
Proof.
  unfold pass_one.
  destruct (apply_ (user_filters fr ++ [FirstPassHandler])
              (pending (Reader_open (_file (self_ fr)) osm_RELATION)) (world_of fr))
    as [[r rest] w] eqn:E.
  intros H; injection H as -> _. eapply apply_raises; eassumption.
Qed.

(** Whatever the iterator raises comes from a failed read. *)
Lemma iter_resume_raises (fr fr' : iter_frame) (x : exn) :
  iter_resume fr = (Raised x, fr') -> exists code, x = ExternalError code.
Proof.
  unfold iter_resume. destruct (ipc fr).
  - unfold resume_start.
    destruct (_area_handler (self_ (set_handlers fr _))); [| apply resume_single_raises].
    destruct (pass_one _) as [[u | x0] fr1] eqn:E.
    + apply resume_loop_raises.
    + intros H; injection H as <- _. eapply pass_one_raises; eassumption.
  - apply resume_single_raises.
  - destruct (buffer_it fr); [apply resume_loop_raises | apply resume_drain_raises].
  - apply resume_drain_raises.
  - intros H; destruct (resume_final_raises _ _ _ H).
  - discriminate.
Qed.

(** *** Frames keep the reader of pass one *)

Lemma next_primary_rd (fr : iter_frame) : rd (snd (next_primary fr)) = rd fr.
Proof.
  unfold next_primary.
  destruct (OsmFileIterator_next (handlers fr ++ user_filters fr)
              (pending (_reader (self_ fr))) (world_of fr)) as [[r rest] w].
  reflexivity.
Qed.

Lemma resume_final_rd (fr : iter_frame) : rd (snd (resume_final fr)) = rd fr.
Proof.
  unfold resume_final. rewrite next_buffered_scan.
  destruct (fst (buffer_scan (_filters (self_ fr)) (buffer_it fr))); reflexivity.
Qed.

Lemma resume_loop_rd (fr : iter_frame) : rd (snd (resume_loop fr)) = rd fr.
Proof.
  unfold resume_loop. pose proof (next_primary_rd fr) as H.
  destruct (next_primary fr) as [[[o |] | x] fr1]; simpl in *; try assumption.
  destruct (buffer_it fr1); [assumption |].
  rewrite resume_final_rd. assumption.
Qed.

Lemma resume_start_rd (self : FileProcessor) (a : AreaManager) :
  _area_handler self = Some a ->
  rd (snd (iter_resume (FileProcessor_iter self)))
  = Some {| pending := spent; closed := true |}.
Proof.
  intros Ha. unfold iter_resume, resume_start.
  cbn [ipc FileProcessor_iter self_ set_handlers]. rewrite Ha.
  fold (location_handlers self).
  rewrite (pass_one_result
             (set_handlers (FileProcessor_iter self) (location_handlers self))
             self a eq_refl Ha).
  destruct (read_ending (relations_of self)); [| reflexivity].
  rewrite resume_loop_rd. reflexivity.
Qed.

(** *** The claims about the configuration *)

(** C6.  When the entity mask of a processor excludes nodes,
    [with_locations] raises its RuntimeError for every [storage]
    argument, at the call itself: the processor, and with it the reader,
    is left as it was, so no record has been read.  The iterator never
    raises that error: whatever it raises comes from a failed read. *)
Theorem with_locations_requires_nodes (self : FileProcessor) (storage : storage_arg) :
  Z.land (_entities self) osm_NODE = 0 ->
  with_locations storage self = (Raise (RuntimeError no_nodes_msg), self) /\
  _reader (snd (with_locations storage self)) = _reader self /\
  (forall (fr fr' : iter_frame) (x : exn),
     iter_resume fr = (Raised x, fr') -> x <> RuntimeError no_nodes_msg).
Proof.
  intros Hmask.
  assert (H : with_locations storage self = (Raise (RuntimeError no_nodes_msg), self)).
  { unfold with_locations. rewrite Hmask. reflexivity. }
  split; [exact H |]. split; [rewrite H; reflexivity |].
  intros fr fr' x Hres Hx.
  destruct (iter_resume_raises fr fr' x Hres) as [code Hc]. congruence.
Qed.

(** C8.  [with_areas] is idempotent on the configuration: the processor
    after two calls is the processor after one call (area handler,
    location cache, filters, mask and all), and the second call returns
    normally.  After the call the processor has an area handler (the one
    it had, or a new one), the filters and the mask it had, and the
    location cache it had if it had one.  When neither an area handler
    nor a location cache is set, the call does, after setting the area
    handler, exactly what [with_locations] does with its default storage;
    so, when nodes are read and the factory knows the default name, the
    call returns normally and leaves the processor with a new area
    handler and with the cache the factory made for that name, which
    [node_location_storage] returns, also after a second call. *)
Theorem with_areas_idempotent (self : FileProcessor) :
  snd (with_areas (snd (with_areas self))) = snd (with_areas self) /\
  fst (with_areas (snd (with_areas self))) = Ok tt /\
  _area_handler (snd (with_areas self))
  = Some (match _area_handler self with
          | Some a => a
          | None => new_area_manager
          end) /\
  _filters (snd (with_areas self)) = _filters self /\
  _entities (snd (with_areas self)) = _entities self /\
  (forall t : LocationTable,
     _node_store self = Some t ->
     node_location_storage (snd (with_areas self)) = Some t) /\
  (_area_handler self = None ->
   _node_store self = None ->
   with_areas self
   = with_locations default_storage (set_area_handler self (Some new_area_manager)) /\
   (forall t : LocationTable,
      Z.land (_entities self) osm_NODE <> 0 ->
      create_map "flex_mem" = Ok t ->
      with_areas self
      = (Ok tt,
         set_node_store (set_area_handler self (Some new_area_manager)) (Some t)) /\
      fst (with_areas self) = Ok tt /\
      node_location_storage (snd (with_areas self)) = Some t /\
      _area_handler (snd (with_areas self)) = Some new_area_manager /\
      node_location_storage (snd (with_areas (snd (with_areas self)))) = Some t /\
      _area_handler (snd (with_areas (snd (with_areas self)))) = Some new_area_manager)).
Proof.
  assert (Hset : forall (s : FileProcessor) (a : AreaManager),
             _area_handler s = Some a -> with_areas s = (Ok tt, s)).
  { intros s a Hs. unfold with_areas. rewrite Hs. reflexivity. }
  assert (Hframe : _area_handler (snd (with_areas self))
                   = Some (match _area_handler self with
                           | Some a => a
                           | None => new_area_manager
                           end) /\
                   _filters (snd (with_areas self)) = _filters self /\
                   _entities (snd (with_areas self)) = _entities self).
  { unfold with_areas. destruct (_area_handler self) as [a |] eqn:Ha.
    - simpl. auto.
    - cbn [_node_store set_area_handler]. destruct (_node_store self).
      + simpl. auto.
      + unfold with_locations. cbn [_entities set_area_handler].
        destruct (Z.land (_entities self) osm_NODE =? 0); [simpl; auto |].
        cbn [default_storage]. destruct (create_map "flex_mem"); simpl; auto. }
  destruct Hframe as (Hhandler & Hfilters & Hmask).
  pose proof (Hset _ _ Hhandler) as Hsecond.
  split; [rewrite Hsecond; reflexivity |].
  split; [rewrite Hsecond; reflexivity |].
  split; [exact Hhandler |]. split; [exact Hfilters |]. split; [exact Hmask |].
  split.
  - intros t Hs. unfold with_areas, node_location_storage.
    destruct (_area_handler self) as [a |]; [exact Hs |].
    cbn [_node_store set_area_handler]. rewrite Hs. exact Hs.
  - intros Ha Hs.
    assert (Hloc : with_areas self
                   = with_locations default_storage
                       (set_area_handler self (Some new_area_manager))).
    { unfold with_areas. rewrite Ha. cbn [_node_store set_area_handler].
      rewrite Hs. reflexivity. }
    split; [exact Hloc |].
    intros t Hm Hmap. apply Z.eqb_neq in Hm.
    assert (Hcall : with_areas self
                    = (Ok tt,
                       set_node_store (set_area_handler self (Some new_area_manager))
                                      (Some t))).
    { rewrite Hloc. unfold with_locations. cbn [_entities set_area_handler].
      rewrite Hm. cbn [default_storage]. rewrite Hmap. reflexivity. }
    split; [exact Hcall |].
    rewrite Hsecond. rewrite Hcall. repeat split; reflexivity.
Qed.

(** C10.  On a processor that reads no nodes and has neither area
    handler nor location cache, [with_areas] raises the error
    [with_locations] raises; but the area handler it assigned before
    that call stays on the processor, without a location cache, and a
    second [with_areas] then returns normally. *)
Theorem with_areas_without_nodes (self : FileProcessor) :
  Z.land (_entities self) osm_NODE = 0 ->
  _area_handler self = None ->
  _node_store self = None ->
  fst (with_areas self) = Raise (RuntimeError no_nodes_msg) /\
  fst (with_areas self) = fst (with_locations default_storage self) /\
  _area_handler (snd (with_areas self)) = Some new_area_manager /\
  _node_store (snd (with_areas self)) = None /\
  with_areas (snd (with_areas self)) = (Ok tt, snd (with_areas self)).
Proof.
  intros Hmask Ha Hs.
  assert (H : with_areas self
              = (Raise (RuntimeError no_nodes_msg),
                 set_area_handler self (Some new_area_manager))).
  { unfold with_areas. rewrite Ha. simpl. rewrite Hs.
    unfold with_locations; simpl. rewrite Hmask. reflexivity. }
  rewrite H. simpl. repeat split; try assumption.
  unfold with_locations. rewrite Hmask. reflexivity.
Qed.

(** *** The claims about the iteration *)

(** C9.  In single-pass mode with no filter and no location cache the
    iterator yields what the reader emits, in that order and unchanged,
    and ends as the reader ends (with enough resumptions, and with any
    larger number of them); when every read succeeds, that is the
    whole sequence of objects of the reader. *)
Theorem single_pass_plain_order (self : FileProcessor) :
  _area_handler self = None ->
  _filters self = [] ->
  _node_store self = None ->
  (exists (n : nat) (fr' : iter_frame),
     forall m, (n <= m)%nat ->
       iter_collect m (FileProcessor_iter self)
       = Some (emitted (pending (_reader self)),
               read_ending (pending (_reader self)), fr')) /\
  (forall objs : list Entity,
     pending (_reader self) = map ReadObj objs ->
     exists (n : nat) (fr' : iter_frame),
       iter_collect n (FileProcessor_iter self) = Some (objs, Finished, fr')).
Proof.
  intros Ha Hf Hs.
  assert (Hruns : runs (FileProcessor_iter self)
                       (emitted (pending (_reader self)))
                       (read_ending (pending (_reader self)))
                       (initial_world self)).
  { apply single_pass_runs; [assumption |].
    unfold location_handlers. rewrite Hs, Hf. apply single_pass_plain. }
  split.
  - destruct (runs_any_fuel _ _ _ _ Hruns) as (n & fr' & _ & Hall). eauto.
  - intros objs Hobjs. destruct Hruns as (n & fr' & Hc & _).
    rewrite Hobjs in Hc. destruct (emitted_all objs) as [He Hr].
    rewrite He, Hr in Hc. eauto.
Qed.

(** C7.  In two-pass mode the first resumption leaves the reader of pass
    one closed, however it ends.  When a read of pass one fails, the
    error is raised to the caller by that resumption; nothing has been
    yielded, the primary reader has not been read, no buffer has been
    filled, and the generator is finished. *)
Theorem pass_one_reader_closed (self : FileProcessor) (a : AreaManager) :
  _area_handler self = Some a ->
  (forall (sig : signal Entity) (fr' : iter_frame),
     iter_resume (FileProcessor_iter self) = (sig, fr') ->
     exists r : Reader, rd fr' = Some r /\ closed r = true) /\
  (forall x : exn,
     read_ending (relations_of self) = Failed x ->
     exists fr' : iter_frame,
       iter_resume (FileProcessor_iter self) = (Raised x, fr') /\
       ipc fr' = IDone /\
       _reader (self_ fr') = _reader self /\
       buffer_it fr' = [] /\
       (forall n, iter_collect (S n) (FileProcessor_iter self)
                  = Some ([], Failed x, fr')) /\
       iter_resume fr' = (StopIteration, fr')).
Proof.
  intros Ha. split.
  - intros sig fr' Hres. pose proof (resume_start_rd self a Ha) as Hrd.
    rewrite Hres in Hrd. simpl in Hrd. rewrite Hrd. eexists; split; reflexivity.
  - intros x Hrel.
    destruct (two_pass_fails self a x Ha Hrel)
      as (fr' & Hres & Hpc & _ & Hreader & _ & _ & Hbuf).
    exists fr'. repeat split; try assumption.
    + intros n. simpl. rewrite Hres. reflexivity.
    + unfold iter_resume. rewrite Hpc. reflexivity.
Qed.

(** C5 (amended).  In a two-pass run whose pass one completes, the
    iterator yields what [pass_two_spec] describes: after each primary
    object that is yielded, the objects staged in the buffer that pass
    the filters are yielded at once, before the next primary object,
    and the buffer is emptied (the staged objects that a filter
    suppresses are dropped); when the primary reader is exhausted the
    buffer is drained once more, and is empty at the end.  A drain ends,
    and the reading goes on, only when the queue is empty. *)
Theorem two_pass_drains_buffer (self : FileProcessor) (a : AreaManager) :
  _area_handler self = Some a ->
  read_ending (relations_of self) = Finished ->
  (exists (out : list Entity) (e : ending) (w : hstate),
     runs (FileProcessor_iter self) out e w /\
     pass_two_spec (passing (_filters self))
                   (location_handlers self ++ [SecondPassToBuffer]) (_filters self)
                   (pending (_reader self))
                   (pass_two_world self (pass_one_spec (_filters self) (relations_of self) a))
     = (out, e, w) /\
     (e = Finished -> h_buffer w = [])) /\
  (forall fr fr' : iter_frame, next_buffered fr = (None, fr') -> buffer_it fr' = []).
Proof.
  intros Ha Hrel. split; [| apply next_buffered_exhausted].
  destruct (pass_two_spec (passing (_filters self))
              (location_handlers self ++ [SecondPassToBuffer]) (_filters self)
              (pending (_reader self))
              (pass_two_world self (pass_one_spec (_filters self) (relations_of self) a)))
    as [[out e] w] eqn:Hspec.
  exists out, e, w. split; [| split; [reflexivity |]].
  - eapply two_pass_runs; eassumption.
  - intros ->. eapply pass_two_buffer_empty; eassumption.
Qed.

(** C2 (amended).  Whatever the filters, a complete iteration yields no
    object that a filter suppresses, while the internal bookkeeping of
    the reading of the primary source does not depend on the filters:
    every object read goes through the location handler (if a cache is
    set) and, in pass two, through the second pass of the area manager.
    Pass one is different: there the filters come first, so the area
    manager registers only the relations that no filter suppresses. *)
Theorem filters_act_on_output (self : FileProcessor) :
  exists (out : list Entity) (e : ending) (w : hstate),
    runs (FileProcessor_iter self) out e w /\
    (forall o, In o out -> suppressed (_filters self) o = false) /\
    (_area_handler self = None ->
     w = bookkeeping (location_handlers self) (pending (_reader self))
                     (initial_world self)) /\
    (forall a : AreaManager,
       _area_handler self = Some a ->
       (read_ending (relations_of self) = Finished ->
        same_books w
          (bookkeeping (location_handlers self ++ [SecondPassToBuffer])
             (pending (_reader self))
             (pass_two_world self
                (pass_one_spec (_filters self) (relations_of self) a)))) /\
       (read_ending (relations_of self) <> Finished ->
        out = [] /\
        h_areas w = Some (pass_one_spec (_filters self) (relations_of self) a))).
Proof.
  destruct (_area_handler self) as [a |] eqn:Ha.
  - destruct (read_ending (relations_of self)) as [| x] eqn:Hrel.
    + destruct (pass_two_spec (passing (_filters self))
                  (location_handlers self ++ [SecondPassToBuffer]) (_filters self)
                  (pending (_reader self))
                  (pass_two_world self
                     (pass_one_spec (_filters self) (relations_of self) a)))
        as [[out e] w] eqn:Hspec.
      exists out, e, w. split; [eapply two_pass_runs; eassumption |].
      split; [eapply pass_two_unsuppressed; eassumption |].
      split; [discriminate |].
      intros a' Ha'. injection Ha' as <-. split; [| congruence].
      intros _. eapply pass_two_books; [apply same_books_refl | eassumption].
    + destruct (two_pass_fails self a x Ha Hrel)
        as (fr' & Hres & Hpc & _ & _ & Hstore & Hareas & Hbuf).
      exists [], (Failed x), (world_of fr').
      split.
      { exists 1%nat, fr'. simpl. rewrite Hres. auto. }
      split; [intros o [] |]. split; [discriminate |].
      intros a' Ha'. injection Ha' as <-. split; [congruence |].
      intros _. split; [reflexivity | exact Hareas].
  - destruct (single_pass_spec (location_handlers self) (_filters self)
                (pending (_reader self)) (initial_world self))
      as [[out e] w] eqn:Hspec.
    exists out, e, w. split; [apply single_pass_runs; assumption |].
    destruct (single_pass_books _ _ _ _ _ _ _ Hspec) as (H1 & H2 & H3).
    split; [assumption |]. split; [intros _; assumption | discriminate].
Qed.

End ProcessorFacts.

(** *** The configuration and the iterator on the sample processors *)

Lemma with_locations_requires_nodes_witness :
  Z.land (_entities (sample_processor osm_WAY)) osm_NODE = 0 /\
  with_locations default_storage (sample_processor osm_WAY)
  = (Raise (RuntimeError no_nodes_msg), sample_processor osm_WAY) /\
  _reader (snd (with_locations default_storage (sample_processor osm_WAY)))
  = _reader (sample_processor osm_WAY) /\
  (forall (fr fr' : iter_frame) (x : exn),
     iter_resume fr = (Raised x, fr') -> x <> RuntimeError no_nodes_msg).
Proof.
  split; [reflexivity |].
  apply (with_locations_requires_nodes (sample_processor osm_WAY) default_storage).
  reflexivity.
Defined.

Lemma with_areas_idempotent_witness :
  _area_handler (sample_processor osm_ALL) = None /\
  _node_store (sample_processor osm_ALL) = None /\
  Z.land (_entities (sample_processor osm_ALL)) osm_NODE <> 0 /\
  create_map "flex_mem" = Ok [] /\
  snd (with_areas (snd (with_areas (sample_processor osm_ALL))))
  = snd (with_areas (sample_processor osm_ALL)) /\
  fst (with_areas (snd (with_areas (sample_processor osm_ALL)))) = Ok tt /\
  with_areas (sample_processor osm_ALL)
  = with_locations default_storage
      (set_area_handler (sample_processor osm_ALL) (Some new_area_manager)) /\
  with_areas (sample_processor osm_ALL)
  = (Ok tt,
     set_node_store (set_area_handler (sample_processor osm_ALL) (Some new_area_manager))
                    (Some [])) /\
  fst (with_areas (sample_processor osm_ALL)) = Ok tt /\
  node_location_storage (snd (with_areas (sample_processor osm_ALL))) = Some [] /\
  _area_handler (snd (with_areas (sample_processor osm_ALL))) = Some new_area_manager /\
  node_location_storage (snd (with_areas (snd (with_areas (sample_processor osm_ALL)))))
  = Some [] /\
  _area_handler (snd (with_areas (snd (with_areas (sample_processor osm_ALL)))))
  = Some new_area_manager.
Proof.
  assert (Hmask : Z.land (_entities (sample_processor osm_ALL)) osm_NODE <> 0)
    by (vm_compute; discriminate).
  destruct (with_areas_idempotent (sample_processor osm_ALL))
    as (Hidem & Hok & _ & _ & _ & _ & Hfirst).
  destruct (Hfirst eq_refl eq_refl) as [Hloc Hdefault].
  split; [reflexivity |]. split; [reflexivity |]. split; [exact Hmask |].
  split; [reflexivity |]. split; [exact Hidem |]. split; [exact Hok |].
  split; [exact Hloc |].
  exact (Hdefault [] Hmask eq_refl).
Defined.

Lemma with_areas_without_nodes_witness :
  Z.land (_entities (sample_processor osm_WAY)) osm_NODE = 0 /\
  _area_handler (sample_processor osm_WAY) = None /\
  _node_store (sample_processor osm_WAY) = None /\
  fst (with_areas (sample_processor osm_WAY)) = Raise (RuntimeError no_nodes_msg) /\
  fst (with_areas (sample_processor osm_WAY))
  = fst (with_locations default_storage (sample_processor osm_WAY)) /\
  _area_handler (snd (with_areas (sample_processor osm_WAY))) = Some new_area_manager /\
  _node_store (snd (with_areas (sample_processor osm_WAY))) = None /\
  with_areas (snd (with_areas (sample_processor osm_WAY)))
  = (Ok tt, snd (with_areas (sample_processor osm_WAY))).
Proof.
  split; [reflexivity |]. split; [reflexivity |]. split; [reflexivity |].
  apply (with_areas_without_nodes (sample_processor osm_WAY)); reflexivity.
Defined.

Lemma single_pass_plain_order_witness :
  _area_handler (sample_processor osm_ALL) = None /\
  _filters (sample_processor osm_ALL) = [] /\
  _node_store (sample_processor osm_ALL) = None /\
  (exists (n : nat) (fr' : iter_frame),
     forall m, (n <= m)%nat ->
       iter_collect m (FileProcessor_iter (sample_processor osm_ALL))
       = Some (emitted (pending (_reader (sample_processor osm_ALL))),
               read_ending (pending (_reader (sample_processor osm_ALL))), fr')) /\
  (forall objs : list Entity,
     pending (_reader (sample_processor osm_ALL)) = map ReadObj objs ->
     exists (n : nat) (fr' : iter_frame),
       iter_collect n (FileProcessor_iter (sample_processor osm_ALL))
       = Some (objs, Finished, fr')).
Proof.
  split; [reflexivity |]. split; [reflexivity |]. split; [reflexivity |].
  apply (single_pass_plain_order (sample_processor osm_ALL)); reflexivity.
Defined.

(** The sample file read in single-pass mode, as it is. *)
Example single_pass_sample :
  iter_outcome 5 (FileProcessor_iter (sample_processor osm_ALL))
  = Some ([(node, 1, 1); (node, 2, 1); (way, 7, 1); (relation, 5, 1)], Finished,
          {| h_store := None; h_areas := None; h_buffer := [] |}).
Proof. vm_compute. reflexivity. Qed.

Lemma pass_one_reader_closed_witness :
  _area_handler (two_pass_processor broken_file []) = Some [] /\
  read_ending (relations_of (two_pass_processor broken_file []))
  = Failed (ExternalError 5) /\
  (forall (sig : signal Entity) (fr' : iter_frame),
     iter_resume (FileProcessor_iter (two_pass_processor broken_file [])) = (sig, fr') ->
     exists r : Reader, rd fr' = Some r /\ closed r = true) /\
  exists fr' : iter_frame,
    iter_resume (FileProcessor_iter (two_pass_processor broken_file []))
    = (Raised (ExternalError 5), fr') /\
    ipc fr' = IDone /\
    _reader (self_ fr') = _reader (two_pass_processor broken_file []) /\
    buffer_it fr' = [] /\
    (forall n, iter_collect (S n) (FileProcessor_iter (two_pass_processor broken_file []))
               = Some ([], Failed (ExternalError 5), fr')) /\
    iter_resume fr' = (StopIteration, fr').
Proof.
  destruct (pass_one_reader_closed (two_pass_processor broken_file []) [] eq_refl)
    as [Hclosed Hfail].
  split; [reflexivity |]. split; [reflexivity |]. split; [exact Hclosed |].
  exact (Hfail (ExternalError 5) eq_refl).
Defined.

Lemma two_pass_drains_buffer_witness :
  _area_handler (two_pass_processor sample_file [drop_ways]) = Some [] /\
  read_ending (relations_of (two_pass_processor sample_file [drop_ways])) = Finished /\
  (exists (out : list Entity) (e : ending) (w : hstate),
     runs (FileProcessor_iter (two_pass_processor sample_file [drop_ways])) out e w /\
     pass_two_spec (passing (_filters (two_pass_processor sample_file [drop_ways])))
       (location_handlers (two_pass_processor sample_file [drop_ways])
        ++ [SecondPassToBuffer])
       (_filters (two_pass_processor sample_file [drop_ways]))
       (pending (_reader (two_pass_processor sample_file [drop_ways])))
       (pass_two_world (two_pass_processor sample_file [drop_ways])
          (pass_one_spec (_filters (two_pass_processor sample_file [drop_ways]))
             (relations_of (two_pass_processor sample_file [drop_ways])) []))
     = (out, e, w) /\
     (e = Finished -> h_buffer w = [])) /\
  (forall fr fr' : iter_frame, next_buffered fr = (None, fr') -> buffer_it fr' = []).
Proof.
  split; [reflexivity |]. split; [reflexivity |].
  apply (two_pass_drains_buffer (two_pass_processor sample_file [drop_ways]) []);
    reflexivity.
Defined.

(** The way is suppressed, but its area is staged all the same and comes
    out after the next primary object that is yielded. *)
Example two_pass_sample :
  iter_outcome 6 (FileProcessor_iter (two_pass_processor sample_file [drop_ways]))
  = Some ([(node, 1, 1); (node, 2, 1); (relation, 5, 1); (area, 14, 1); (area, 11, 1)],
          Finished,
          {| h_store := Some [2; 1]; h_areas := Some [5]; h_buffer := [] |}).
Proof. vm_compute. reflexivity. Qed.

(** C5, as stated, fails when a filter suppresses staged areas: after the
    way 7 is yielded its area 14 is in the buffer, yet the next object
    yielded is the way 8, and the area is never yielded. *)
Lemma staged_area_not_yielded :
  fst (iter_resume (FileProcessor_iter (two_pass_processor ways_file [drop_areas])))
  = Yielded (way, 7, 1) /\
  buffer_it (iter_advance 1 (FileProcessor_iter (two_pass_processor ways_file [drop_areas])))
  = [(area, 14, 1)] /\
  fst (iter_resume
         (iter_advance 1 (FileProcessor_iter (two_pass_processor ways_file [drop_areas]))))
  = Yielded (way, 8, 1) /\
  buffer_it (iter_advance 2 (FileProcessor_iter (two_pass_processor ways_file [drop_areas])))
  = [(area, 16, 1)] /\
  fst (iter_resume
         (iter_advance 2 (FileProcessor_iter (two_pass_processor ways_file [drop_areas]))))
  = StopIteration /\
  iter_outcome 3 (FileProcessor_iter (two_pass_processor ways_file [drop_areas]))
  = Some ([(way, 7, 1); (way, 8, 1)], Finished,
          {| h_store := Some []; h_areas := Some []; h_buffer := [] |}) /\
  ~ In (area, 14, 1) [(way, 7, 1); (way, 8, 1)] /\
  fst (fst (pass_two_spec (fun q => q)
              [NodeLocationsForWays; SecondPassToBuffer] [drop_areas]
              (pending (_reader (two_pass_processor ways_file [drop_areas])))
              (pass_two_world (two_pass_processor ways_file [drop_areas]) [])))
  = [(way, 7, 1); (area, 14, 1); (way, 8, 1); (area, 16, 1)].
Proof.
  vm_compute. repeat split; try reflexivity.
  intros [H | [H | []]]; discriminate H.
Qed.

Lemma filters_act_on_output_witness :
  _area_handler (two_pass_processor sample_file [drop_ways]) = Some [] /\
  read_ending (relations_of (two_pass_processor sample_file [drop_ways])) = Finished /\
  exists (out : list Entity) (e : ending) (w : hstate),
    runs (FileProcessor_iter (two_pass_processor sample_file [drop_ways])) out e w /\
    (forall o, In o out ->
       suppressed (_filters (two_pass_processor sample_file [drop_ways])) o = false) /\
    same_books w
      (bookkeeping
         (location_handlers (two_pass_processor sample_file [drop_ways])
          ++ [SecondPassToBuffer])
         (pending (_reader (two_pass_processor sample_file [drop_ways])))
         (pass_two_world (two_pass_processor sample_file [drop_ways])
            (pass_one_spec (_filters (two_pass_processor sample_file [drop_ways]))
               (relations_of (two_pass_processor sample_file [drop_ways])) []))).
Proof.
  split; [reflexivity |]. split; [reflexivity |].
  destruct (filters_act_on_output (two_pass_processor sample_file [drop_ways]))
    as (out & e & w & Hruns & Hout & _ & Htwo).
  exists out, e, w. split; [exact Hruns |]. split; [exact Hout |].
  exact (proj1 (Htwo [] eq_refl) eq_refl).
Defined.

(** C2, as stated, fails in pass one: with a filter that suppresses
    everything, the relation 5 is read by pass one but is not registered
    with the area manager (while the nodes are still recorded in the
    location table); without the filter it is registered. *)
Lemma suppressed_relation_not_registered :
  In (ReadObj (relation, 5, 1)) (relations_of (two_pass_processor sample_file [drop_all])) /\
  suppressed (_filters (two_pass_processor sample_file [drop_all])) (relation, 5, 1) = true /\
  iter_outcome 1 (FileProcessor_iter (two_pass_processor sample_file [drop_all]))
  = Some ([], Finished,
          {| h_store := Some [2; 1]; h_areas := Some []; h_buffer := [] |}) /\
  iter_outcome 7 (FileProcessor_iter (two_pass_processor sample_file []))
  = Some ([(node, 1, 1); (node, 2, 1); (way, 7, 1); (area, 14, 1);
           (relation, 5, 1); (area, 11, 1)], Finished,
          {| h_store := Some [2; 1]; h_areas := Some [5]; h_buffer := [] |}).
Proof.
  split; [left; reflexivity |]. split; [reflexivity |].
  split; vm_compute; reflexivity.
Qed.

(** ** More about the merge: any streams, sorted or not *)

Section MergeMore.

Variable Obj : Type.
Context {K : OsmObject Obj}.

Lemma slot_adv (m : Key) (p : list Obj) :
  match slot m p with Some o => [o] | None => [] end ++ adv m p = p.
Proof.
  unfold adv. destruct p as [| o rest]; simpl.
  - destruct (key_eqb END_MARKER m); reflexivity.
  - destruct (key_eqb (key_of o) m); reflexivity.
Qed.

Lemma step_streams_length (ps : list (list Obj)) :
  List.length (step_streams ps) = List.length ps.
Proof. unfold step_streams. apply length_map. Qed.

Lemma merge_rows_column :
  forall (n : nat) (ps : list (list Obj)),
    (total_length ps < n)%nat ->
    ps <> [] ->
    forall (i : nat) (p : list Obj),
      nth_error ps i = Some p -> column i (merge_rows n ps) = p.
Proof.
  induction n as [| n IH]; intros ps Hlen Hne i p Hi; [lia |].
  simpl. destruct (fst (min_head ps) <? 100) eqn:E.
  - apply Z.ltb_lt in E.
    pose proof (step_streams_shrinks Obj ps Hne E) as Hshrink.
    unfold column; simpl. fold (column i (merge_rows n (step_streams ps))).
    rewrite nth_error_map, Hi. simpl.
    rewrite (IH (step_streams ps)) with (p := adv (min_head ps) p).
    + apply slot_adv.
    + lia.
    + apply step_streams_nonempty; assumption.
    + unfold step_streams. rewrite nth_error_map, Hi. reflexivity.
  - symmetry. apply (exhausted_streams Obj ps E).
    eapply nth_error_In; eassumption.
Qed.

Lemma merge_rows_tuples :
  forall (n : nat) (ps : list (list Obj)),
    ps <> [] ->
    Forall2 tuple_of_key (merge_keys n ps) (merge_rows n ps) /\
    (forall row, In row (merge_rows n ps) -> List.length row = List.length ps).
Proof.
  induction n as [| n IH]; intros ps Hne; simpl.
  - split; [constructor | intros row []].
  - destruct (fst (min_head ps) <? 100) eqn:E; [| split; [constructor | intros row []]].
    apply Z.ltb_lt in E.
    destruct (IH (step_streams ps) (step_streams_nonempty Obj ps Hne)) as [IH1 IH2].
    split.
    + constructor; [| exact IH1]. split.
      * pose proof (min_head_in Obj ps Hne) as Hin.
        apply in_map_iff in Hin as (p & Hp & Hin).
        destruct p as [| o rest].
        -- simpl in Hp. rewrite <- Hp in E. simpl in E. lia.
        -- exists o. apply in_map_iff. exists (o :: rest). split; [| assumption].
           simpl in *. rewrite Hp, key_eqb_refl. reflexivity.
      * intros o Hin. apply in_map_iff in Hin as (p & Hs & _).
        destruct p as [| o' rest]; simpl in Hs; [discriminate |].
        destruct (key_eqb (key_of o') (min_head ps)) eqn:Ek; [| discriminate].
        injection Hs as <-. apply key_eqb_eq; assumption.
    + intros row [<- | Hin]; [apply length_map |].
      rewrite (IH2 row Hin). apply step_streams_length.
Qed.

Lemma merge_keys_length (n : nat) :
  forall ps : list (list Obj), List.length (merge_keys n ps) = List.length (merge_rows n ps).
Proof.
  induction n as [| n IH]; intros ps; simpl; [reflexivity |].
  destruct (fst (min_head ps) <? 100); simpl; [rewrite IH |]; reflexivity.
Qed.

(** *** Keys in ascending streams *)

Lemma ascending_tl (p : list Obj) : ascending p -> ascending (tl p).
Proof.
  destruct p as [| o rest]; simpl; [auto |].
  unfold ascending; simpl. intros H; inversion H; assumption.
Qed.

Lemma ascending_head_le (p : list Obj) (k : Key) :
  ascending p -> In k (keys_of p) -> key_le (head_key p) k.
Proof.
  destruct p as [| o rest]; simpl; [intros _ [] |].
  unfold ascending; simpl. intros H [<- | Hin]; [apply key_le_refl |].
  inversion H as [| ? ? _ Hall]; subst.
  rewrite Forall_forall in Hall. apply Hall; assumption.
Qed.

Lemma Forall_step_ascending_le (ps : list (list Obj)) :
  Forall ascending ps -> Forall ascending (step_streams ps).
Proof.
  unfold step_streams. rewrite !Forall_forall.
  intros H p' Hin. apply in_map_iff in Hin as (p & <- & Hp).
  unfold adv. destruct (key_eqb (head_key p) (min_head ps));
    [apply ascending_tl |]; apply H, Hp.
Qed.

Lemma all_keys_ge_min (ps : list (list Obj)) (k : Key) :
  Forall ascending ps -> In k (all_keys ps) -> key_le (min_head ps) k.
Proof.
  intros Hs Hin. apply in_all_keys in Hin as (p & Hp & Hk).
  rewrite Forall_forall in Hs.
  eapply key_le_trans; [apply min_head_le; exact Hp |].
  apply ascending_head_le; [apply Hs, Hp | exact Hk].
Qed.

Lemma all_keys_step_subset (ps : list (list Obj)) (k : Key) :
  In k (all_keys (step_streams ps)) -> In k (all_keys ps).
Proof.
  rewrite !in_all_keys. unfold step_streams.
  intros (p' & Hp' & Hk). apply in_map_iff in Hp' as (p & <- & Hp).
  exists p. split; [assumption |].
  unfold adv in Hk. destruct (key_eqb (head_key p) (min_head ps)); [| assumption].
  destruct p as [| o rest]; simpl in *; [destruct Hk | right; assumption].
Qed.

Lemma merge_keys_present (n : nat) :
  forall (ps : list (list Obj)) (k : Key),
    ps <> [] -> In k (merge_keys n ps) -> In k (all_keys ps).
Proof.
  induction n as [| n IH]; intros ps k Hne; simpl; [intros [] |].
  destruct (fst (min_head ps) <? 100) eqn:E; [| intros []].
  apply Z.ltb_lt in E. intros [<- | Hin].
  - apply min_head_present; assumption.
  - apply all_keys_step_subset.
    apply IH; [apply step_streams_nonempty; assumption | assumption].
Qed.

Lemma merge_keys_ascending (n : nat) :
  forall ps : list (list Obj),
    ps <> [] -> Forall ascending ps -> StronglySorted key_le (merge_keys n ps).
Proof.
  induction n as [| n IH]; intros ps Hne Hs; simpl; [constructor |].
  destruct (fst (min_head ps) <? 100) eqn:E; [| constructor].
  pose proof (step_streams_nonempty Obj ps Hne) as Hne'.
  constructor.
  - apply IH; [assumption | apply Forall_step_ascending_le; assumption].
  - apply Forall_forall. intros k Hk.
    apply all_keys_ge_min; [assumption |].
    apply all_keys_step_subset. eapply merge_keys_present; eassumption.
Qed.

(** *** Bounds *)

Lemma merge_rows_at_most (n : nat) :
  forall ps : list (list Obj),
    ps <> [] -> (List.length (merge_rows n ps) <= total_length ps)%nat.
Proof.
  induction n as [| n IH]; intros ps Hne; simpl; [lia |].
  destruct (fst (min_head ps) <? 100) eqn:E; simpl; [| lia].
  apply Z.ltb_lt in E.
  pose proof (step_streams_shrinks Obj ps Hne E).
  pose proof (IH (step_streams ps) (step_streams_nonempty Obj ps Hne)). lia.
Qed.

Lemma column_length (i : nat) (rows : list (list (option Obj))) :
  (List.length (column i rows) <= List.length rows)%nat.
Proof.
  induction rows as [| row rows IH]; simpl; [lia |].
  unfold column in *; simpl. rewrite length_app.
  destruct (nth_error row i) as [[o |] |]; simpl; lia.
Qed.

(** *** One stream *)

Lemma merge_rows_single :
  forall (n : nat) (s : list Obj),
    (List.length s < n)%nat ->
    merge_rows n [s] = map (fun o => [Some o]) s.
Proof.
  induction n as [| n IH]; intros s Hlen; [lia |].
  destruct s as [| o rest]; [reflexivity |].
  cbn [merge_rows map].
  change (min_head [o :: rest]) with (key_of o).
  pose proof (key_of_real Obj o) as Hreal.
  apply Z.ltb_lt in Hreal. rewrite Hreal.
  assert (Hstep : step_streams [o :: rest] = [rest]).
  { unfold step_streams. change (min_head [o :: rest]) with (key_of o).
    unfold adv. cbn [map head_key tl]. rewrite key_eqb_refl. reflexivity. }
  rewrite Hstep. cbn [slot]. rewrite key_eqb_refl.
  f_equal. apply IH. simpl in Hlen. lia.
Qed.

(** *** Reading late, counted *)

Lemma collect_late_count (ps0 : list (list Obj)) :
  forall (n : nat) (ps : list (list Obj)),
    ps <> [] ->
    fst (min_head ps) < 100 ->
    (total_length ps <= n)%nat ->
    exists g : zip_frame Obj,
      zip_collect_late n (frame_at ps0 ps)
      = Some (List.length (merge_rows n (step_streams ps)), g, Finished) /\
      force g = repeat None (List.length ps).
Proof.
  induction n as [| n IH]; intros ps Hne Hreal Hlen.
  - pose proof (step_streams_shrinks Obj ps Hne Hreal). lia.
  - simpl. rewrite (zip_resume_at_yield Obj ps0 ps Hne). unfold after_min.
    pose proof (step_streams_shrinks Obj ps Hne Hreal) as Hshrink.
    pose proof (step_streams_nonempty Obj ps Hne) as Hne'.
    pose proof (step_streams_length ps) as Hl.
    destruct (fst (min_head (step_streams ps)) <? 100) eqn:E.
    + apply Z.ltb_lt in E.
      destruct (IH (step_streams ps) Hne' E) as (g & Hc & Hf); [lia |].
      rewrite Hc. exists g. split; [reflexivity |].
      rewrite Hf, Hl. reflexivity.
    + eexists. split; [reflexivity |].
      unfold force; simpl. rewrite (@force_all_empty Obj K), Hl; [reflexivity |].
      apply (@exhausted_streams Obj K _ E).
Qed.

(** *** The merge on any streams *)

(** X1.  With at least one stream, whatever the order of the records,
    the merge ends normally and loses, repeats and reorders nothing: the
    records found in slot [i] of the successive tuples are exactly the
    records of stream [i], in the order of the stream. *)
Theorem zip_processors_keeps_records (ps : list (list Obj)) :
  ps <> [] ->
  exists rows : list (list (option Obj)),
    zip_processors ps = Some (rows, Finished) /\
    forall (i : nat) (s : list Obj), nth_error ps i = Some s -> column i rows = s.
Proof.
  intros Hne. exists (merge_rows (S (total_length ps)) ps).
  split; [apply zip_processors_merge_rows; assumption |].
  intros i s Hi. apply merge_rows_column; [lia | assumption | assumption].
Qed.

(** X2.  With at least one stream, whatever the order of the records,
    every tuple has one slot per stream, holds at least one record, and
    holds only records of one and the same composite key. *)
Theorem zip_processors_tuples_share_key (ps : list (list Obj)) :
  ps <> [] ->
  exists (rows : list (list (option Obj))) (ks : list Key),
    zip_processors ps = Some (rows, Finished) /\
    Forall2 tuple_of_key ks rows /\
    (forall row, In row rows -> List.length row = List.length ps).
Proof.
  intros Hne.
  exists (merge_rows (S (total_length ps)) ps), (merge_keys (S (total_length ps)) ps).
  split; [apply zip_processors_merge_rows; assumption |].
  apply merge_rows_tuples; assumption.
Qed.

(** X3.  When every stream is sorted ascending by composite key (a key
    may be repeated inside a stream), the tuples come in ascending order
    of their keys. *)
Theorem zip_processors_key_order (ps : list (list Obj)) :
  ps <> [] ->
  Forall ascending ps ->
  exists (rows : list (list (option Obj))) (ks : list Key),
    zip_processors ps = Some (rows, Finished) /\
    Forall2 tuple_of_key ks rows /\
    StronglySorted key_le ks.
Proof.
  intros Hne Hs.
  exists (merge_rows (S (total_length ps)) ps), (merge_keys (S (total_length ps)) ps).
  split; [apply zip_processors_merge_rows; assumption |].
  split; [apply merge_rows_tuples; assumption |].
  apply merge_keys_ascending; assumption.
Qed.

(** X4.  The values yielded are views of the cursors: a consumer that
    exhausts the generator before reading them receives as many values as
    a consumer that reads at once receives tuples, but every one of them
    then reads as absence markers only. *)
Theorem zip_processors_late_reader (ps : list (list Obj)) :
  ps <> [] ->
  exists (rows : list (list (option Obj))) (g : zip_frame Obj),
    zip_processors ps = Some (rows, Finished) /\
    zip_collect_late (S (total_length ps)) (zip_init ps)
    = Some (List.length rows, g, Finished) /\
    force g = repeat None (List.length ps).
Proof.
  intros Hne. exists (merge_rows (S (total_length ps)) ps).
  simpl. rewrite (zip_resume_start Obj ps Hne). unfold after_min.
  destruct (fst (min_head ps) <? 100) eqn:E.
  - apply Z.ltb_lt in E.
    destruct (collect_late_count ps (total_length ps) ps Hne E) as (g & Hc & Hf); [lia |].
    exists g. rewrite Hc.
    split; [| split; [reflexivity | assumption]].
    rewrite (zip_processors_merge_rows Obj ps Hne). simpl.
    apply Z.ltb_lt in E. rewrite E. reflexivity.
  - eexists. split; [| split; [reflexivity |]].
    + rewrite (zip_processors_merge_rows Obj ps Hne). simpl. rewrite E. reflexivity.
    + unfold force; simpl. apply (@force_all_empty Obj K).
      apply (@exhausted_streams Obj K _ E).
Qed.

(** X5.  With at least one stream, the number of tuples yielded is at
    most the total number of records and at least the length of every
    stream. *)
Theorem zip_processors_step_bounds (ps : list (list Obj)) :
  ps <> [] ->
  exists rows : list (list (option Obj)),
    zip_processors ps = Some (rows, Finished) /\
    (List.length rows <= total_length ps)%nat /\
    (forall s, In s ps -> (List.length s <= List.length rows)%nat).
Proof.
  intros Hne. exists (merge_rows (S (total_length ps)) ps).
  split; [apply zip_processors_merge_rows; assumption |].
  split; [apply merge_rows_at_most; assumption |].
  intros s Hin. destruct (In_nth_error ps s Hin) as [i Hi].
  rewrite <- (merge_rows_column (S (total_length ps)) ps) with (i := i) (p := s) at 1;
    [apply column_length | lia | assumption | assumption].
Qed.

(** X6.  Called on a single stream, the merge yields every record of the
    stream in a tuple of its own, in the order of the stream, sorted or
    not. *)
Theorem zip_processors_single_stream (s : list Obj) :
  zip_processors [s] = Some (map (fun o => [Some o]) s, Finished).
Proof.
  rewrite zip_processors_merge_rows by discriminate.
  rewrite merge_rows_single; [reflexivity |]. simpl. lia.
Qed.

End MergeMore.

(** *** The merge on unsorted and empty streams *)

Example zip_processors_unsorted :
  zip_processors [stream_unsorted; stream_empty; stream_B]
  = Some ([[None; None; Some (node, 2, 1)];
           [None; None; Some (node, 3, 2)];
           [Some (way, 7, 1); None; None];
           [Some (node, 1, 1); None; None];
           [Some (node, 1, 2); None; None]], Finished).
Proof. reflexivity. Qed.

Lemma zip_processors_keeps_records_witness :
  [stream_unsorted; stream_empty; stream_B] <> [] /\
  exists rows : list (list (option Rec)),
    zip_processors [stream_unsorted; stream_empty; stream_B] = Some (rows, Finished) /\
    forall (i : nat) (s : list Rec),
      nth_error [stream_unsorted; stream_empty; stream_B] i = Some s ->
      column i rows = s.
Proof.
  split; [discriminate |].
  apply (zip_processors_keeps_records Rec [stream_unsorted; stream_empty; stream_B]).
  discriminate.
Defined.

Lemma zip_processors_tuples_share_key_witness :
  [stream_unsorted; stream_empty; stream_B] <> [] /\
  exists (rows : list (list (option Rec))) (ks : list Key),
    zip_processors [stream_unsorted; stream_empty; stream_B] = Some (rows, Finished) /\
    Forall2 tuple_of_key ks rows /\
    (forall row, In row rows ->
       List.length row = List.length [stream_unsorted; stream_empty; stream_B]).
Proof.
  split; [discriminate |].
  apply (zip_processors_tuples_share_key Rec [stream_unsorted; stream_empty; stream_B]).
  discriminate.
Defined.

Lemma zip_processors_key_order_witness :
  [stream_history; stream_B] <> [] /\
  Forall ascending [stream_history; stream_B] /\
  exists (rows : list (list (option Rec))) (ks : list Key),
    zip_processors [stream_history; stream_B] = Some (rows, Finished) /\
    Forall2 tuple_of_key ks rows /\
    StronglySorted key_le ks.
Proof.
  assert (Hs : Forall ascending [stream_history; stream_B]).
  { repeat constructor; unfold key_le, key_lt; simpl;
      first [left; lia | right; reflexivity]. }
  split; [discriminate |]. split; [exact Hs |].
  apply (zip_processors_key_order Rec [stream_history; stream_B]);
    [discriminate | exact Hs].
Defined.

Lemma zip_processors_late_reader_witness :
  [stream_A; stream_B] <> [] /\
  exists (rows : list (list (option Rec))) (g : zip_frame Rec),
    zip_processors [stream_A; stream_B] = Some (rows, Finished) /\
    zip_collect_late (S (total_length [stream_A; stream_B])) (zip_init [stream_A; stream_B])
    = Some (List.length rows, g, Finished) /\
    force g = repeat None (List.length [stream_A; stream_B]).
Proof.
  split; [discriminate |].
  apply (zip_processors_late_reader Rec [stream_A; stream_B]). discriminate.
Defined.

Lemma zip_processors_step_bounds_witness :
  [stream_unsorted; stream_empty; stream_B] <> [] /\
  exists rows : list (list (option Rec)),
    zip_processors [stream_unsorted; stream_empty; stream_B] = Some (rows, Finished) /\
    (List.length rows <= total_length [stream_unsorted; stream_empty; stream_B])%nat /\
    (forall s, In s [stream_unsorted; stream_empty; stream_B] ->
       (List.length s <= List.length rows)%nat).
Proof.
  split; [discriminate |].
  apply (zip_processors_step_bounds Rec [stream_unsorted; stream_empty; stream_B]).
  discriminate.
Defined.

(** ** More about the configuration *)

Section ConfigurationFacts.

Context {osmium : Osmium}.

Lemma with_locations_frame (storage : storage_arg) (self : FileProcessor) :
  _file (snd (with_locations storage self)) = _file self /\
  _reader (snd (with_locations storage self)) = _reader self /\
  _entities (snd (with_locations storage self)) = _entities self /\
  _filters (snd (with_locations storage self)) = _filters self /\
  _area_handler (snd (with_locations storage self)) = _area_handler self.
Proof.
  unfold with_locations.
  destruct (Z.land (_entities self) osm_NODE =? 0); [repeat split |].
  destruct storage as [name | | t |]; try (repeat split; reflexivity).
  destruct (create_map name); repeat split; reflexivity.
Qed.

Lemma with_areas_frame (self : FileProcessor) :
  _file (snd (with_areas self)) = _file self /\
  _reader (snd (with_areas self)) = _reader self /\
  _entities (snd (with_areas self)) = _entities self /\
  _filters (snd (with_areas self)) = _filters self.
Proof.
  unfold with_areas. destruct (_area_handler self); [repeat split |].
  simpl. destruct (_node_store self); [repeat split |].
  destruct (with_locations_frame default_storage
              (set_area_handler self (Some new_area_manager)))
    as (H1 & H2 & H3 & H4 & _).
  repeat split; assumption.
Qed.

Lemma call_frame (c : config_call) (self : FileProcessor) :
  _file (snd (call c self)) = _file self /\
  _reader (snd (call c self)) = _reader self /\
  _entities (snd (call c self)) = _entities self /\
  exists added : list Filter,
    _filters (snd (call c self)) = _filters self ++ added /\
    (fst (call c self) = Ok tt -> added = filters_of [c]).
Proof.
  destruct c as [storage | | f]; simpl.
  - destruct (with_locations_frame storage self) as (H1 & H2 & H3 & H4 & _).
    repeat split; try assumption. exists []. rewrite app_nil_r. auto.
  - destruct (with_areas_frame self) as (H1 & H2 & H3 & H4).
    repeat split; try assumption. exists []. rewrite app_nil_r. auto.
  - repeat split. exists [f]. auto.
Qed.

Lemma call_without_nodes (c : config_call) (self : FileProcessor) :
  Z.land (_entities self) osm_NODE = 0 ->
  _node_store (snd (call c self)) = _node_store self.
Proof.
  intros Hmask. destruct c as [storage | | f]; simpl.
  - unfold with_locations. rewrite Hmask. reflexivity.
  - unfold with_areas. destruct (_area_handler self); [reflexivity |].
    simpl. destruct (_node_store self) eqn:Hs; [simpl; assumption |].
    unfold with_locations; simpl. rewrite Hmask. simpl. assumption.
  - reflexivity.
Qed.

(** X7.  A [with_locations] that raises leaves the processor exactly as
    it was, and raises for one of three reasons: nodes are not read
    (RuntimeError), the storage is a name that the index factory rejects
    (the factory's own error, passed on), or the storage is neither a
    name, nor None, nor a location table (TypeError). *)
Theorem with_locations_fails_cleanly (storage : storage_arg) (self : FileProcessor)
        (e : exn) :
  fst (with_locations storage self) = Raise e ->
  snd (with_locations storage self) = self /\
  ((Z.land (_entities self) osm_NODE = 0 /\ e = RuntimeError no_nodes_msg) \/
   (Z.land (_entities self) osm_NODE <> 0 /\
    exists name, storage = StorageStr name /\ create_map name = Raise e) \/
   (Z.land (_entities self) osm_NODE <> 0 /\ storage = StorageOther /\ e = TypeError)).
Proof.
  unfold with_locations.
  destruct (Z.land (_entities self) osm_NODE =? 0) eqn:Hmask.
  - apply Z.eqb_eq in Hmask. simpl. intros H; injection H as <-. auto.
  - apply Z.eqb_neq in Hmask.
    destruct storage as [name | | t |]; simpl; try discriminate.
    + destruct (create_map name) as [t | x] eqn:Hmap; simpl; [discriminate |].
      intros H; injection H as <-. split; [reflexivity |].
      right; left. split; [assumption |]. exists name. auto.
    + intros H; injection H as <-. split; [reflexivity |].
      right; right. auto.
Qed.

Lemma with_locations_same (storage : storage_arg) (s1 s2 : FileProcessor) :
  _entities s1 = _entities s2 ->
  (forall x, set_node_store s1 x = set_node_store s2 x) ->
  fst (with_locations storage s2) = Ok tt ->
  with_locations storage s1 = with_locations storage s2.
Proof.
  intros Hent Hset. unfold with_locations. rewrite Hent.
  destruct (Z.land (_entities s2) osm_NODE =? 0); [discriminate |].
  destruct storage as [name | | t |]; simpl; try (rewrite Hset; reflexivity).
  - destruct (create_map name); [rewrite Hset; reflexivity | discriminate].
  - discriminate.
Qed.

Lemma with_locations_overwrites (first : storage_arg) (self : FileProcessor) (x : option LocationTable) :
  set_node_store (snd (with_locations first self)) x = set_node_store self x.
Proof.
  unfold with_locations.
  destruct (Z.land (_entities self) osm_NODE =? 0); [reflexivity |].
  destruct first as [name | | t |]; try reflexivity.
  destruct (create_map name); reflexivity.
Qed.

(** X8.  The last successful [with_locations] wins: it does to a
    processor on which [with_locations] was already called what it would
    have done without that call, and [node_location_storage] then
    returns what was asked for: the table the factory made for the name,
    the table given, or nothing for None. *)
Theorem with_locations_last_wins (first second : storage_arg) (self : FileProcessor) :
  fst (with_locations second self) = Ok tt ->
  with_locations second (snd (with_locations first self)) = with_locations second self /\
  match second with
  | StorageStr name =>
      exists t, create_map name = Ok t /\
                node_location_storage (snd (with_locations second self)) = Some t
  | StorageNone => node_location_storage (snd (with_locations second self)) = None
  | StorageTable t => node_location_storage (snd (with_locations second self)) = Some t
  | StorageOther => False
  end.
Proof.
  intros Hok. split.
  - apply with_locations_same; [| apply with_locations_overwrites | exact Hok].
    apply (with_locations_frame first self).
  - unfold with_locations in *.
    destruct (Z.land (_entities self) osm_NODE =? 0); [discriminate |].
    destruct second as [name | | t |]; simpl in *; try reflexivity; try discriminate.
    destruct (create_map name) as [t | x]; [eauto | discriminate].
Qed.

(** X9.  A chain of configuration calls never touches the file, the
    reader or the entity mask of the processor, whatever the calls and
    wherever the chain stops; it only ever appends to the filters, and
    when no call raises the filters added are those of the [with_filter]
    calls, in the order of the calls. *)
Theorem configuration_keeps_source (cs : list config_call) (self : FileProcessor) :
  _file (snd (chain cs self)) = _file self /\
  _reader (snd (chain cs self)) = _reader self /\
  _entities (snd (chain cs self)) = _entities self /\
  exists added : list Filter,
    _filters (snd (chain cs self)) = _filters self ++ added /\
    (fst (chain cs self) = Ok tt -> added = filters_of cs).
Proof.
  revert self. induction cs as [| c cs IH]; intros self; simpl.
  - repeat split. exists []. rewrite app_nil_r. auto.
  - destruct (call_frame c self) as (H1 & H2 & H3 & added & H4 & H5).
    destruct (call c self) as [[u | e] self'] eqn:E; simpl in *.
    + destruct (IH self') as (I1 & I2 & I3 & added' & I4 & I5).
      repeat split; try congruence.
      exists (added ++ added'). split.
      * rewrite I4, H4, app_assoc. reflexivity.
      * intros Hok. destruct u. rewrite (H5 eq_refl), (I5 Hok).
        unfold filters_of; simpl. rewrite app_nil_r. reflexivity.
    + repeat split; try assumption. exists added. split; [assumption | discriminate].
Qed.

(** X10.  On a processor that reads no nodes, no chain of configuration
    calls installs or changes a location cache; a chain that contains a
    [with_locations] call does not complete. *)
Theorem no_cache_without_nodes (cs : list config_call) (self : FileProcessor) :
  Z.land (_entities self) osm_NODE = 0 ->
  _node_store (snd (chain cs self)) = _node_store self /\
  (forall storage, In (CallLocations storage) cs -> fst (chain cs self) <> Ok tt).
Proof.
  revert self. induction cs as [| c cs IH]; intros self Hmask; simpl.
  - split; [reflexivity | intros storage []].
  - pose proof (call_without_nodes c self Hmask) as Hstore.
    destruct (call_frame c self) as (_ & _ & Hent & _).
    destruct (call c self) as [[u | e] self'] eqn:E; simpl in *.
    + rewrite <- Hent in Hmask. destruct (IH self' Hmask) as [I1 I2].
      split; [congruence |].
      intros storage [-> | Hin]; [| eauto].
      simpl in E. unfold with_locations in E.
      rewrite <- Hent in E. rewrite Hent in Hmask.
      exfalso. rewrite Hent in E. rewrite Hmask in E. discriminate.
    + split; [assumption | intros; discriminate].
Qed.

Lemma with_locations_installs (storage : storage_arg) (self : FileProcessor)
      (x : option LocationTable) :
  (Z.land (_entities self) osm_NODE =? 0) = false ->
  match storage with
  | StorageStr name => exists t, create_map name = Ok t /\ x = Some t
  | StorageNone => x = None
  | StorageTable t => x = Some t
  | StorageOther => False
  end ->
  with_locations storage self = (Ok tt, set_node_store self x).
Proof.
  intros Hmask Hx. unfold with_locations. rewrite Hmask.
  destruct storage as [name | | t |].
  - destruct Hx as (t & Hmap & ->). rewrite Hmap. reflexivity.
  - subst x. reflexivity.
  - subst x. reflexivity.
  - destruct Hx.
Qed.

Lemma with_areas_installs (self : FileProcessor) (t0 : LocationTable) :
  (Z.land (_entities self) osm_NODE =? 0) = false ->
  _area_handler self = None ->
  create_map "flex_mem" = Ok t0 ->
  with_areas self
  = (Ok tt,
     match _node_store self with
     | Some _ => set_area_handler self (Some new_area_manager)
     | None => set_node_store (set_area_handler self (Some new_area_manager)) (Some t0)
     end).
Proof.
  intros Hmask Ha Hmap. unfold with_areas. rewrite Ha.
  cbn [_node_store set_area_handler].
  destruct (_node_store self); [reflexivity |].
  apply (with_locations_installs default_storage
           (set_area_handler self (Some new_area_manager)) (Some t0) Hmask).
  exists t0. split; [exact Hmap | reflexivity].
Qed.

(** X16.  On a processor that reads nodes and has no area handler yet,
    [with_areas] and a [with_locations] that installs a table commute:
    in either order both calls return normally and the processor ends
    with a new area handler and with that table as its location cache,
    the default cache made by [with_areas] being replaced.  They do not
    commute for [with_locations(None)]: called first it is overridden by
    the default cache of [with_areas], called last it leaves the
    processor in two-pass mode without a location cache. *)
Theorem with_areas_and_with_locations (storage : storage_arg) (self : FileProcessor)
        (t0 : LocationTable) :
  Z.land (_entities self) osm_NODE <> 0 ->
  _area_handler self = None ->
  create_map "flex_mem" = Ok t0 ->
  (forall t,
     match storage with
     | StorageStr name => create_map name = Ok t
     | StorageTable t' => t' = t
     | _ => False
     end ->
     fst (chain [CallLocations storage; CallAreas] self) = Ok tt /\
     fst (chain [CallAreas; CallLocations storage] self) = Ok tt /\
     snd (chain [CallLocations storage; CallAreas] self)
     = snd (chain [CallAreas; CallLocations storage] self) /\
     node_location_storage (snd (chain [CallLocations storage; CallAreas] self))
     = Some t /\
     _area_handler (snd (chain [CallLocations storage; CallAreas] self))
     = Some new_area_manager) /\
  (storage = StorageNone ->
     fst (chain [CallLocations storage; CallAreas] self) = Ok tt /\
     fst (chain [CallAreas; CallLocations storage] self) = Ok tt /\
     node_location_storage (snd (chain [CallLocations storage; CallAreas] self))
     = Some t0 /\
     node_location_storage (snd (chain [CallAreas; CallLocations storage] self))
     = None /\
     _area_handler (snd (chain [CallLocations storage; CallAreas] self))
     = Some new_area_manager /\
     _area_handler (snd (chain [CallAreas; CallLocations storage] self))
     = Some new_area_manager /\
     snd (chain [CallLocations storage; CallAreas] self)
     <> snd (chain [CallAreas; CallLocations storage] self)).
Proof.
  intros Hmask Ha Hmap. apply Z.eqb_neq in Hmask. split.
  - intros t Ht.
    assert (Hx : match storage with
                 | StorageStr name => exists t1, create_map name = Ok t1 /\ Some t = Some t1
                 | StorageNone => Some t = None
                 | StorageTable t1 => Some t = Some t1
                 | StorageOther => False
                 end).
    { destruct storage as [name | | t1 |].
      - exists t. split; [exact Ht | reflexivity].
      - destruct Ht.
      - now subst t1.
      - destruct Ht. }
    assert (Hla : chain [CallLocations storage; CallAreas] self
                  = (Ok tt,
                     set_node_store (set_area_handler self (Some new_area_manager))
                                    (Some t))).
    { cbn [chain call].
      rewrite (with_locations_installs storage self (Some t) Hmask Hx).
      rewrite (with_areas_installs (set_node_store self (Some t)) t0 Hmask Ha Hmap).
      reflexivity. }
    assert (Hal : chain [CallAreas; CallLocations storage] self
                  = (Ok tt,
                     set_node_store (set_area_handler self (Some new_area_manager))
                                    (Some t))).
    { cbn [chain call].
      rewrite (with_areas_installs self t0 Hmask Ha Hmap).
      destruct (_node_store self);
        match goal with
        | |- context [with_locations storage ?s] =>
            rewrite (with_locations_installs storage s (Some t) Hmask Hx)
        end; reflexivity. }
    rewrite Hla, Hal. repeat split; reflexivity.
  - intros ->.
    assert (Hla : chain [CallLocations StorageNone; CallAreas] self
                  = (Ok tt,
                     set_node_store (set_area_handler self (Some new_area_manager))
                                    (Some t0))).
    { cbn [chain call].
      rewrite (with_locations_installs StorageNone self None Hmask eq_refl).
      rewrite (with_areas_installs (set_node_store self None) t0 Hmask Ha Hmap).
      reflexivity. }
    assert (Hal : chain [CallAreas; CallLocations StorageNone] self
                  = (Ok tt,
                     set_node_store (set_area_handler self (Some new_area_manager))
                                    None)).
    { cbn [chain call].
      rewrite (with_areas_installs self t0 Hmask Ha Hmap).
      destruct (_node_store self);
        match goal with
        | |- context [with_locations StorageNone ?s] =>
            rewrite (with_locations_installs StorageNone s None Hmask eq_refl)
        end; reflexivity. }
    rewrite Hla, Hal. repeat split; try reflexivity.
    simpl. intros Heq. apply (f_equal _node_store) in Heq. discriminate Heq.
Qed.

End ConfigurationFacts.

(** ** More about the iterator *)

Section IterationMore.

Context {osmium : Osmium}.

(** *** Filters in single-pass mode *)

Lemma single_pass_filtered (fs : list Filter) (items : list read) (w : hstate) :
  single_pass_spec [] fs items w
  = (passing fs (emitted items), read_ending items, w).
Proof.
  induction items as [| [o | code] rest IH]; simpl; try reflexivity.
  rewrite IH. unfold passing; simpl.
  destruct (suppressed fs o); reflexivity.
Qed.

Lemma suppressed_app (fs : list Filter) (f : Filter) (o : Entity) :
  suppressed (fs ++ [f]) o = suppressed fs o || f o.
Proof.
  unfold suppressed. rewrite existsb_app. simpl. rewrite orb_false_r. reflexivity.
Qed.

Lemma single_pass_add_filter (hs : list handler) (fs : list Filter) (f : Filter) :
  forall (items : list read) (w : hstate),
    single_pass_spec hs (fs ++ [f]) items w
    = (filter (fun o => negb (f o)) (fst (fst (single_pass_spec hs fs items w))),
       snd (fst (single_pass_spec hs fs items w)),
       snd (single_pass_spec hs fs items w)).
Proof.
  induction items as [| [o | code] rest IH]; intros w; simpl; try reflexivity.
  destruct (run_chain hs w o) as [w1 [o' |]]; [| apply IH].
  rewrite IH.
  destruct (single_pass_spec hs fs rest w1) as [[out e] w2]; simpl.
  rewrite suppressed_app.
  destruct (suppressed fs o'); simpl; [reflexivity |].
  destruct (f o'); reflexivity.
Qed.

Lemma chain_filters (fs : list Filter) :
  forall self : FileProcessor,
    chain (map CallFilter fs) self = (Ok tt, set_filters self (_filters self ++ fs)).
Proof.
  induction fs as [| f fs IH]; intros self; simpl.
  - rewrite app_nil_r. destruct self; reflexivity.
  - rewrite IH. unfold set_filters; simpl. rewrite <- app_assoc. reflexivity.
Qed.

(** X11.  A processor that was constructed and then given the filters
    [fs] by [with_filter] calls, and nothing else, yields the objects its
    reader emits that no filter suppresses, unchanged and in the order of
    the reader, and ends as the reader ends (normally, or with the error
    of the first failed read after the objects read before it). *)
Theorem constructed_processor_yields_filtered
        (filename : filename_arg) (entities : Z) (self : FileProcessor)
        (fs : list Filter) :
  FileProcessor_init filename entities = Ok self ->
  fst (chain (map CallFilter fs) self) = Ok tt /\
  runs (FileProcessor_iter (snd (chain (map CallFilter fs) self)))
       (passing fs (emitted (pending (_reader self))))
       (read_ending (pending (_reader self)))
       (initial_world self).
Proof.
  intros Hinit. rewrite chain_filters. split; [reflexivity |]. simpl.
  assert (Hfresh : _node_store self = None /\ _area_handler self = None /\ _filters self = []).
  { destruct filename; simpl in Hinit; try discriminate;
      injection Hinit as <-; repeat split. }
  destruct Hfresh as (Hs & Ha & Hf).
  apply single_pass_runs; [exact Ha |].
  unfold location_handlers; simpl. rewrite Hs, Hf. simpl.
  rewrite single_pass_filtered. unfold initial_world; simpl. reflexivity.
Qed.

(** X12.  In single-pass mode, with or without a location cache, adding
    a filter with [with_filter] removes from the output the objects that
    filter suppresses and changes nothing else: the other objects are
    yielded as before and in the same order, the iteration ends the same
    way, and the location table ends up the same. *)
Theorem with_filter_restricts_output (filt : Filter) (self : FileProcessor) :
  _area_handler self = None ->
  exists (out : list Entity) (e : ending) (w : hstate),
    runs (FileProcessor_iter self) out e w /\
    runs (FileProcessor_iter (snd (with_filter filt self)))
         (filter (fun o => negb (filt o)) out) e w.
Proof.
  intros Ha.
  destruct (single_pass_spec (location_handlers self) (_filters self)
              (pending (_reader self)) (initial_world self)) as [[out e] w] eqn:Hspec.
  exists out, e, w. split; [apply single_pass_runs; assumption |].
  apply single_pass_runs; [exact Ha |]. simpl.
  change (location_handlers (set_filters self (_filters self ++ [filt])))
    with (location_handlers self).
  change (initial_world (set_filters self (_filters self ++ [filt])))
    with (initial_world self).
  rewrite single_pass_add_filter, Hspec. reflexivity.
Qed.

(** *** What an iteration leaves of the configuration *)

Lemma same_mode_refl (w : hstate) : same_mode w w.
Proof. split; reflexivity. Qed.

Lemma same_mode_trans (w1 w2 w3 : hstate) :
  same_mode w1 w2 -> same_mode w2 w3 -> same_mode w1 w3.
Proof. unfold same_mode. intros [H1 H2] [H3 H4]. split; tauto. Qed.

Lemma apply_handler_mode (h : handler) (w : hstate) (o : Entity) :
  same_mode (fst (apply_handler h w o)) w.
Proof.
  destruct w as [s a q]. destruct h; simpl.
  - destruct s as [t |]; [destruct (locations_for_ways t o) |]; simpl;
      split; simpl; split; congruence.
  - destruct a; simpl; split; simpl; split; congruence.
  - destruct a as [a |]; [destruct (second_pass a o) |]; simpl;
      split; simpl; split; congruence.
  - apply same_mode_refl.
Qed.

Lemma run_chain_mode (hs : list handler) :
  forall (w : hstate) (o : Entity), same_mode (fst (run_chain hs w o)) w.
Proof.
  induction hs as [| h hs IH]; intros w o; simpl; [apply same_mode_refl |].
  pose proof (apply_handler_mode h w o) as Hh.
  destruct (apply_handler h w o) as [w1 [o' |]]; simpl in *; [| assumption].
  eapply same_mode_trans; [apply IH | assumption].
Qed.

Lemma flush_chain_mode (hs : list handler) :
  forall w : hstate, same_mode (flush_chain hs w) w.
Proof.
  unfold flush_chain. induction hs as [| h hs IH]; intros w; simpl;
    [apply same_mode_refl |].
  eapply same_mode_trans; [apply IH |].
  destruct w as [s a q]. destruct h; simpl; try apply same_mode_refl.
  destruct a as [a |]; [destruct (second_pass_flush a) |]; simpl;
    split; simpl; split; congruence.
Qed.

Lemma OsmFileIterator_next_mode (hs : list handler) :
  forall (items : list read) (w : hstate),
    same_mode (snd (OsmFileIterator_next hs items w)) w.
Proof.
  induction items as [| [o | code] rest IH]; intros w; simpl.
  - apply flush_chain_mode.
  - pose proof (run_chain_mode hs w o) as Hc.
    destruct (run_chain hs w o) as [w1 [o' |]]; simpl in *; [assumption |].
    eapply same_mode_trans; [apply IH | assumption].
  - apply same_mode_refl.
Qed.

Lemma apply_mode (hs : list handler) :
  forall (items : list read) (w : hstate), same_mode (snd (apply_ hs items w)) w.
Proof.
  induction items as [| [o | code] rest IH]; intros w; simpl.
  - apply flush_chain_mode.
  - eapply same_mode_trans; [apply IH | apply run_chain_mode].
  - apply same_mode_refl.
Qed.

Lemma same_config_refl (s : FileProcessor) : same_config s s.
Proof. unfold same_config. repeat split; auto. Qed.

Lemma same_config_trans (s1 s2 s3 : FileProcessor) :
  same_config s1 s2 -> same_config s2 s3 -> same_config s1 s3.
Proof.
  unfold same_config. intros (A1 & A2 & A3 & A4 & A5 & A6) (B1 & B2 & B3 & B4 & B5 & B6).
  repeat split; try congruence; tauto.
Qed.

Lemma put_world_config (fr : iter_frame) (w : hstate) (rest : list read) :
  same_mode w (world_of fr) ->
  same_config (self_ (set_pending (put_world fr w) rest)) (self_ fr).
Proof.
  intros [Hs Ha]. unfold same_config; simpl. repeat split; try reflexivity;
    first [apply Hs | apply Ha].
Qed.

Lemma next_primary_config (fr : iter_frame) :
  same_config (self_ (snd (next_primary fr))) (self_ fr).
Proof.
  unfold next_primary.
  pose proof (OsmFileIterator_next_mode (handlers fr ++ user_filters fr)
                (pending (_reader (self_ fr))) (world_of fr)) as Hm.
  destruct (OsmFileIterator_next (handlers fr ++ user_filters fr)
              (pending (_reader (self_ fr))) (world_of fr)) as [[r rest] w].
  simpl in Hm. apply put_world_config; assumption.
Qed.

Lemma next_buffered_self (fr : iter_frame) :
  self_ (snd (next_buffered fr)) = self_ fr.
Proof. rewrite next_buffered_scan. reflexivity. Qed.

Lemma resume_final_self (fr : iter_frame) :
  self_ (snd (resume_final fr)) = self_ fr.
Proof.
  unfold resume_final. pose proof (next_buffered_self fr) as H.
  destruct (next_buffered fr) as [[a |] fr1]; simpl in *; assumption.
Qed.

Lemma resume_single_config (fr : iter_frame) :
  same_config (self_ (snd (resume_single fr))) (self_ fr).
Proof.
  unfold resume_single. pose proof (next_primary_config fr) as H.
  destruct (next_primary fr) as [[[o |] | e] fr1]; simpl in *; assumption.
Qed.

Lemma resume_loop_config (fr : iter_frame) :
  same_config (self_ (snd (resume_loop fr))) (self_ fr).
Proof.
  unfold resume_loop. pose proof (next_primary_config fr) as H.
  destruct (next_primary fr) as [[[o |] | e] fr1]; simpl in *; try assumption.
  destruct (buffer_it fr1); [assumption |].
  rewrite resume_final_self. assumption.
Qed.

Lemma resume_drain_config (fr : iter_frame) :
  same_config (self_ (snd (resume_drain fr))) (self_ fr).
Proof.
  unfold resume_drain. pose proof (next_buffered_self fr) as H.
  destruct (next_buffered fr) as [[a |] fr1]; simpl in *.
  - rewrite H. apply same_config_refl.
  - rewrite <- H. apply resume_loop_config.
Qed.

Lemma pass_one_config (fr : iter_frame) :
  same_config (self_ (snd (pass_one fr))) (self_ fr).
Proof.
  unfold pass_one.
  pose proof (apply_mode (user_filters fr ++ [FirstPassHandler])
                (pending (Reader_open (_file (self_ fr)) osm_RELATION)) (world_of fr))
    as Hm.
  destruct (apply_ (user_filters fr ++ [FirstPassHandler])
              (pending (Reader_open (_file (self_ fr)) osm_RELATION)) (world_of fr))
    as [[r rest] w].
  simpl in Hm. destruct Hm as [Hs Ha].
  unfold same_config; simpl. repeat split; try reflexivity;
    first [apply Hs | apply Ha].
Qed.

Lemma iter_resume_config (fr : iter_frame) :
  same_config (self_ (snd (iter_resume fr))) (self_ fr).
Proof.
  unfold iter_resume. destruct (ipc fr).
  - unfold resume_start.
    destruct (_area_handler (self_ (set_handlers fr _))).
    + pose proof (pass_one_config (set_handlers fr
                    match _node_store (self_ fr) with
                    | Some _ => [NodeLocationsForWays]
                    | None => []
                    end)) as Hp.
      destruct (pass_one _) as [[u | x] fr1]; simpl in *; [| assumption].
      eapply same_config_trans; [apply resume_loop_config | assumption].
    + apply (resume_single_config (set_handlers fr _)).
  - apply resume_single_config.
  - destruct (buffer_it fr); [apply resume_loop_config | apply resume_drain_config].
  - apply resume_drain_config.
  - rewrite resume_final_self. apply same_config_refl.
  - apply same_config_refl.
Qed.

Lemma iter_collect_config (n : nat) :
  forall (fr : iter_frame) out e fr',
    iter_collect n fr = Some (out, e, fr') -> same_config (self_ fr') (self_ fr).
Proof.
  induction n as [| n IH]; intros fr out e fr' Hc; [discriminate |].
  simpl in Hc. pose proof (iter_resume_config fr) as Hr.
  destruct (iter_resume fr) as [[o | | x] fr1]; simpl in Hr.
  - destruct (iter_collect n fr1) as [[[out1 e1] fr2] |] eqn:E; [| discriminate].
    injection Hc as <- <- <-.
    eapply same_config_trans; [eapply IH; eassumption | assumption].
  - injection Hc as <- <- <-. assumption.
  - injection Hc as <- <- <-. assumption.
Qed.

(** X15.  Iterating never alters the configuration of the processor: the
    file, the entity mask and the filters stay the same, the primary
    reader is not closed, and a location cache or an area handler is
    neither installed nor removed; the iteration only reads the reader
    and updates the cache and the area manager that are there. *)
Theorem iteration_keeps_configuration (n : nat) (self : FileProcessor)
        (out : list Entity) (e : ending) (fr' : iter_frame) :
  iter_collect n (FileProcessor_iter self) = Some (out, e, fr') ->
  _file (self_ fr') = _file self /\
  _entities (self_ fr') = _entities self /\
  _filters (self_ fr') = _filters self /\
  closed (_reader (self_ fr')) = closed (_reader self) /\
  (_node_store (self_ fr') = None <-> _node_store self = None) /\
  (_area_handler (self_ fr') = None <-> _area_handler self = None).
Proof.
  intros Hc. exact (iter_collect_config n (FileProcessor_iter self) out e fr' Hc).
Qed.

(** *** Iterating twice *)

Lemma next_primary_stop (fr fr' : iter_frame) :
  next_primary fr = (Ok None, fr') -> pending (_reader (self_ fr')) = spent.
Proof.
  unfold next_primary.
  destruct (OsmFileIterator_next (handlers fr ++ user_filters fr)
              (pending (_reader (self_ fr))) (world_of fr)) as [[r rest] w].
  intros H; injection H as -> <-. reflexivity.
Qed.

Lemma resume_single_finish (fr : iter_frame) :
  _area_handler (self_ fr) = None ->
  match resume_single fr with
  | (Yielded _, fr1) => ipc fr1 = ISingle /\ _area_handler (self_ fr1) = None
  | (StopIteration, fr1) =>
      pending (_reader (self_ fr1)) = spent /\ _area_handler (self_ fr1) = None
  | (Raised _, _) => True
  end.
Proof.
  intros Ha. unfold resume_single.
  pose proof (next_primary_config fr) as Hcfg.
  destruct (next_primary fr) as [[[o |] | x] fr1] eqn:E; simpl in *; [| | exact I].
  - split; [reflexivity |]. apply Hcfg; assumption.
  - split; [eapply next_primary_stop; eassumption |]. apply Hcfg; assumption.
Qed.

Lemma single_mode_finish (n : nat) :
  forall (fr : iter_frame) out fr',
    ipc fr = ISingle \/ ipc fr = IStart ->
    _area_handler (self_ fr) = None ->
    iter_collect n fr = Some (out, Finished, fr') ->
    pending (_reader (self_ fr')) = spent /\ _area_handler (self_ fr') = None.
Proof.
  induction n as [| n IH]; intros fr out fr' Hpc Ha Hc; [discriminate |].
  simpl in Hc.
  assert (Hres : exists fr0, iter_resume fr = resume_single fr0 /\
                             _area_handler (self_ fr0) = None).
  { unfold iter_resume. destruct Hpc as [-> | ->].
    - exists fr. auto.
    - unfold resume_start. simpl. rewrite Ha. eexists. split; [reflexivity | exact Ha]. }
  destruct Hres as (fr0 & Hres & Ha0). rewrite Hres in Hc.
  pose proof (resume_single_finish fr0 Ha0) as Hfin.
  destruct (resume_single fr0) as [[o | | x] fr1].
  - destruct Hfin as [Hpc1 Ha1].
    destruct (iter_collect n fr1) as [[[out1 e1] fr2] |] eqn:E; [| discriminate].
    injection Hc as Hout He Hfr. subst e1 fr2.
    exact (IH fr1 out1 fr' (or_introl Hpc1) Ha1 E).
  - injection Hc as <- <-. exact Hfin.
  - discriminate.
Qed.

(** X13.  A processor can be iterated once: after a single-pass iteration
    that ran to its normal end the reader made by [__init__] is at its
    end, and a new iteration over the same processor, which reads that
    same reader, raises at its first resumption the error of osmium for
    reading a reader at its end, with nothing yielded. *)
Theorem second_iteration_raises (n : nat) (self : FileProcessor)
        (out : list Entity) (fr' : iter_frame) :
  _area_handler self = None ->
  iter_collect n (FileProcessor_iter self) = Some (out, Finished, fr') ->
  pending (_reader (self_ fr')) = spent /\
  forall m : nat,
    exists fr'' : iter_frame,
      iter_collect (S m) (FileProcessor_iter (self_ fr'))
      = Some ([], Failed (ExternalError reader_status_error), fr'') /\
      ipc fr'' = IDone.
Proof.
  intros Ha Hc.
  destruct (single_mode_finish n (FileProcessor_iter self) out fr'
              (or_intror eq_refl) Ha Hc) as [Hp Ha'].
  split; [exact Hp |]. intros m. simpl.
  unfold iter_resume, resume_start; simpl. rewrite Ha'.
  unfold resume_single. rewrite (next_primary_error _ reader_status_error []) by exact Hp.
  eexists. split; reflexivity.
Qed.

(** *** No staged area is lost in pass two *)

Lemma interleaved_right_only {A : Type} (l : list A) : interleaved [] l l.
Proof. induction l; constructor; assumption. Qed.

Lemma interleaved_app {A : Type} (a1 b1 l1 a2 b2 l2 : list A) :
  interleaved a1 b1 l1 -> interleaved a2 b2 l2 ->
  interleaved (a1 ++ a2) (b1 ++ b2) (l1 ++ l2).
Proof.
  intros H1 H2. induction H1; simpl; [assumption | |]; constructor; assumption.
Qed.

Lemma passing_app (fs : list Filter) (q1 q2 : list Entity) :
  passing fs (q1 ++ q2) = passing fs q1 ++ passing fs q2.
Proof. unfold passing. apply filter_app. Qed.

Lemma apply_handler_ahead (b : list Entity) (h : handler) (w1 w2 : hstate) (o : Entity) :
  buffer_ahead b w1 w2 ->
  buffer_ahead b (fst (apply_handler h w1 o)) (fst (apply_handler h w2 o)) /\
  snd (apply_handler h w1 o) = snd (apply_handler h w2 o).
Proof.
  destruct w1 as [s1 a1 q1], w2 as [s2 a2 q2].
  intros (Hs & Ha & Hq); simpl in *; subst.
  destruct h; simpl.
  - destruct s2 as [t |]; [destruct (locations_for_ways t o) |];
      simpl; repeat split; reflexivity.
  - destruct a2; simpl; repeat split; reflexivity.
  - destruct a2 as [a |]; [destruct (second_pass a o) |];
      simpl; repeat split; try reflexivity.
    simpl. rewrite app_assoc. reflexivity.
  - repeat split; reflexivity.
Qed.

Lemma run_chain_ahead (b : list Entity) (hs : list handler) :
  forall (w1 w2 : hstate) (o : Entity),
    buffer_ahead b w1 w2 ->
    buffer_ahead b (fst (run_chain hs w1 o)) (fst (run_chain hs w2 o)) /\
    snd (run_chain hs w1 o) = snd (run_chain hs w2 o).
Proof.
  induction hs as [| h hs IH]; intros w1 w2 o Hb; simpl.
  - split; [assumption | reflexivity].
  - destruct (apply_handler_ahead b h w1 w2 o Hb) as [Hb' Ho].
    destruct (apply_handler h w1 o) as [w1' r1], (apply_handler h w2 o) as [w2' r2].
    simpl in *. subst r2. destruct r1 as [o' |]; [apply IH; assumption |].
    split; [assumption | reflexivity].
Qed.

Lemma flush_chain_ahead (b : list Entity) (hs : list handler) :
  forall w1 w2 : hstate,
    buffer_ahead b w1 w2 -> buffer_ahead b (flush_chain hs w1) (flush_chain hs w2).
Proof.
  unfold flush_chain. induction hs as [| h hs IH]; intros w1 w2 Hb; simpl.
  - assumption.
  - apply IH. destruct w1 as [s1 a1 q1], w2 as [s2 a2 q2], Hb as (Hs & Ha & Hq).
    simpl in *; subst. destruct h; simpl; try (repeat split; reflexivity).
    destruct a2 as [a |]; [destruct (second_pass_flush a) |];
      repeat split; try reflexivity.
    simpl. rewrite app_assoc. reflexivity.
Qed.

Lemma bookkeeping_ahead (b : list Entity) (hs : list handler) :
  forall (items : list read) (w1 w2 : hstate),
    buffer_ahead b w1 w2 ->
    buffer_ahead b (bookkeeping hs items w1) (bookkeeping hs items w2).
Proof.
  induction items as [| [o | code] rest IH]; intros w1 w2 Hb; simpl.
  - apply flush_chain_ahead; assumption.
  - apply IH. apply run_chain_ahead; assumption.
  - assumption.
Qed.

Lemma single_pass_ahead (b : list Entity) (hs : list handler) (fs : list Filter) :
  forall (items : list read) (w1 w2 : hstate),
    buffer_ahead b w1 w2 ->
    fst (fst (single_pass_spec hs fs items w1))
    = fst (fst (single_pass_spec hs fs items w2)).
Proof.
  induction items as [| [o | code] rest IH]; intros w1 w2 Hb; simpl; try reflexivity.
  destruct (run_chain_ahead b hs w1 w2 o Hb) as [Hb' Ho].
  destruct (run_chain hs w1 o) as [w1' r1], (run_chain hs w2 o) as [w2' r2].
  simpl in *. subst r2. specialize (IH w1' w2' Hb').
  destruct r1 as [o' |]; [| exact IH].
  destruct (single_pass_spec hs fs rest w1') as [[out1 e1] v1],
           (single_pass_spec hs fs rest w2') as [[out2 e2] v2].
  simpl in *. subst out2. reflexivity.
Qed.

Lemma buffer_ahead_clear (w : hstate) : buffer_ahead (h_buffer w) w (clear_buffer w).
Proof. unfold buffer_ahead; simpl. rewrite app_nil_r. auto. Qed.

Lemma pass_two_interleaves (hs : list handler) (fs : list Filter) :
  forall (items : list read) (w : hstate) out w',
    pass_two_spec (passing fs) hs fs items w = (out, Finished, w') ->
    interleaved (fst (fst (single_pass_spec hs fs items w)))
                (passing fs (h_buffer (bookkeeping hs items w)))
                out.
Proof.
  induction items as [| [o | code] rest IH]; intros w out w' Hspec; simpl in *.
  - injection Hspec as <- _. apply interleaved_right_only.
  - destruct (run_chain hs w o) as [w1 [o' |]] eqn:Hc; simpl.
    + destruct (suppressed fs o') eqn:Es.
      * specialize (IH w1 out w' Hspec).
        destruct (single_pass_spec hs fs rest w1) as [[out1 e1] v1]. exact IH.
      * destruct (pass_two_spec (passing fs) hs fs rest (clear_buffer w1))
          as [[out2 e2] w2] eqn:E.
        injection Hspec as <- -> <-.
        specialize (IH (clear_buffer w1) out2 w2 E).
        pose proof (buffer_ahead_clear w1) as Hb.
        rewrite <- (single_pass_ahead (h_buffer w1) hs fs rest w1 _ Hb) in IH.
        destruct (bookkeeping_ahead (h_buffer w1) hs rest w1 _ Hb) as (_ & _ & Hq).
        rewrite Hq, passing_app.
        destruct (single_pass_spec hs fs rest w1) as [[out1 e1] v1]. simpl in *.
        constructor.
        apply (interleaved_app [] (passing fs (h_buffer w1)) (passing fs (h_buffer w1))
                 out1 _ out2); [apply interleaved_right_only | exact IH].
    + exact (IH w1 out w' Hspec).
  - discriminate.
Qed.

(** X14.  In a two-pass run that reads both passes to the end, no staged
    area is lost, repeated or reordered, whatever the filters suppress
    among the primary objects: the sequence yielded is made of the
    primary objects a single-pass iteration through the same stages would
    yield, in that order, and of all the areas that the second pass
    staged over the whole input (the final flush included) and that pass
    the filters, in the order in which they were staged. *)
Theorem two_pass_loses_no_area (self : FileProcessor) (a : AreaManager) :
  _area_handler self = Some a ->
  read_ending (relations_of self) = Finished ->
  read_ending (pending (_reader self)) = Finished ->
  exists (out : list Entity) (w : hstate),
    runs (FileProcessor_iter self) out Finished w /\
    interleaved
      (fst (fst (single_pass_spec (location_handlers self ++ [SecondPassToBuffer])
                   (_filters self) (pending (_reader self))
                   (pass_two_world self
                      (pass_one_spec (_filters self) (relations_of self) a)))))
      (passing (_filters self)
         (h_buffer (bookkeeping (location_handlers self ++ [SecondPassToBuffer])
                      (pending (_reader self))
                      (pass_two_world self
                         (pass_one_spec (_filters self) (relations_of self) a)))))
      out.
Proof.
  intros Ha Hrel Hprim.
  destruct (pass_two_spec (passing (_filters self))
              (location_handlers self ++ [SecondPassToBuffer]) (_filters self)
              (pending (_reader self))
              (pass_two_world self (pass_one_spec (_filters self) (relations_of self) a)))
    as [[out e] w] eqn:Hspec.
  destruct (pass_two_books _ _ _ _ _ _ _ _ _ (same_books_refl _) Hspec) as [He _].
  rewrite Hprim in He. subst e.
  exists out, w. split; [eapply two_pass_runs; eassumption |].
  eapply pass_two_interleaves; eassumption.
Qed.

End IterationMore.

(** *** The configuration calls and the iterator on the sample processors *)

Lemma with_locations_fails_cleanly_witness :
  fst (with_locations (StorageStr "no_such_index") (sample_processor osm_ALL))
  = Raise (ExternalError 22) /\
  snd (with_locations (StorageStr "no_such_index") (sample_processor osm_ALL))
  = sample_processor osm_ALL /\
  ((Z.land (_entities (sample_processor osm_ALL)) osm_NODE = 0 /\
    ExternalError 22 = RuntimeError no_nodes_msg) \/
   (Z.land (_entities (sample_processor osm_ALL)) osm_NODE <> 0 /\
    exists name, StorageStr "no_such_index" = StorageStr name /\
                 create_map name = Raise (ExternalError 22)) \/
   (Z.land (_entities (sample_processor osm_ALL)) osm_NODE <> 0 /\
    StorageStr "no_such_index" = StorageOther /\ ExternalError 22 = TypeError)).
Proof.
  split; [reflexivity |].
  apply (with_locations_fails_cleanly (StorageStr "no_such_index")
           (sample_processor osm_ALL) (ExternalError 22)).
  reflexivity.
Defined.

Lemma with_locations_last_wins_witness :
  fst (with_locations (@StorageTable sample_osmium [42]) (sample_processor osm_ALL)) = Ok tt /\
  with_locations (@StorageTable sample_osmium [42])
    (snd (with_locations (StorageStr "sparse_mem_array") (sample_processor osm_ALL)))
  = with_locations (@StorageTable sample_osmium [42]) (sample_processor osm_ALL) /\
  node_location_storage
    (snd (with_locations (@StorageTable sample_osmium [42]) (sample_processor osm_ALL)))
  = Some [42].
Proof.
  split; [reflexivity |].
  apply (with_locations_last_wins (StorageStr "sparse_mem_array") (@StorageTable sample_osmium [42])
           (sample_processor osm_ALL)).
  reflexivity.
Defined.

Lemma no_cache_without_nodes_witness :
  Z.land (_entities (sample_processor osm_WAY)) osm_NODE = 0 /\
  _node_store
    (snd (chain [CallFilter drop_ways; CallLocations default_storage; CallAreas]
                (sample_processor osm_WAY)))
  = _node_store (sample_processor osm_WAY) /\
  (forall storage,
     In (CallLocations storage)
        [CallFilter drop_ways; CallLocations default_storage; CallAreas] ->
     fst (chain [CallFilter drop_ways; CallLocations default_storage; CallAreas]
                (sample_processor osm_WAY)) <> Ok tt).
Proof.
  split; [reflexivity |].
  apply (no_cache_without_nodes
           [CallFilter drop_ways; CallLocations default_storage; CallAreas]
           (sample_processor osm_WAY)).
  reflexivity.
Defined.

Lemma with_areas_and_with_locations_witness :
  Z.land (_entities (sample_processor osm_ALL)) osm_NODE <> 0 /\
  _area_handler (sample_processor osm_ALL) = None /\
  create_map "flex_mem" = Ok [] /\
  (fst (chain [CallLocations (@StorageTable sample_osmium [42]); CallAreas]
              (sample_processor osm_ALL)) = Ok tt /\
   fst (chain [CallAreas; CallLocations (@StorageTable sample_osmium [42])]
              (sample_processor osm_ALL)) = Ok tt /\
   snd (chain [CallLocations (@StorageTable sample_osmium [42]); CallAreas]
              (sample_processor osm_ALL))
   = snd (chain [CallAreas; CallLocations (@StorageTable sample_osmium [42])]
                (sample_processor osm_ALL)) /\
   node_location_storage
     (snd (chain [CallLocations (@StorageTable sample_osmium [42]); CallAreas]
                 (sample_processor osm_ALL)))
   = Some [42] /\
   _area_handler
     (snd (chain [CallLocations (@StorageTable sample_osmium [42]); CallAreas]
                 (sample_processor osm_ALL)))
   = Some new_area_manager) /\
  (fst (chain [CallLocations StorageNone; CallAreas] (sample_processor osm_ALL))
   = Ok tt /\
   fst (chain [CallAreas; CallLocations StorageNone] (sample_processor osm_ALL))
   = Ok tt /\
   node_location_storage
     (snd (chain [CallLocations StorageNone; CallAreas] (sample_processor osm_ALL)))
   = Some [] /\
   node_location_storage
     (snd (chain [CallAreas; CallLocations StorageNone] (sample_processor osm_ALL)))
   = None /\
   _area_handler
     (snd (chain [CallLocations StorageNone; CallAreas] (sample_processor osm_ALL)))
   = Some new_area_manager /\
   _area_handler
     (snd (chain [CallAreas; CallLocations StorageNone] (sample_processor osm_ALL)))
   = Some new_area_manager /\
   snd (chain [CallLocations StorageNone; CallAreas] (sample_processor osm_ALL))
   <> snd (chain [CallAreas; CallLocations StorageNone] (sample_processor osm_ALL))).
Proof.
  assert (Hmask : Z.land (_entities (sample_processor osm_ALL)) osm_NODE <> 0)
    by (vm_compute; discriminate).
  split; [exact Hmask |]. split; [reflexivity |]. split; [reflexivity |].
  split.
  - exact (proj1 (with_areas_and_with_locations (@StorageTable sample_osmium [42])
                    (sample_processor osm_ALL) [] Hmask eq_refl eq_refl)
                 [42] eq_refl).
  - exact (proj2 (with_areas_and_with_locations StorageNone
                    (sample_processor osm_ALL) [] Hmask eq_refl eq_refl)
                 eq_refl).
Defined.

Lemma constructed_processor_yields_filtered_witness :
  FileProcessor_init (ArgFile sample_file) osm_ALL = Ok (sample_processor osm_ALL) /\
  fst (chain (map CallFilter [drop_ways]) (sample_processor osm_ALL)) = Ok tt /\
  runs (FileProcessor_iter
          (snd (chain (map CallFilter [drop_ways]) (sample_processor osm_ALL))))
       (passing [drop_ways] (emitted (pending (_reader (sample_processor osm_ALL)))))
       (read_ending (pending (_reader (sample_processor osm_ALL))))
       (initial_world (sample_processor osm_ALL)).
Proof.
  split; [reflexivity |].
  apply (constructed_processor_yields_filtered (ArgFile sample_file) osm_ALL
           (sample_processor osm_ALL) [drop_ways]).
  reflexivity.
Defined.

Lemma with_filter_restricts_output_witness :
  _area_handler (sample_processor osm_ALL) = None /\
  exists (out : list Entity) (e : ending) (w : hstate),
    runs (FileProcessor_iter (sample_processor osm_ALL)) out e w /\
    runs (FileProcessor_iter (snd (with_filter drop_ways (sample_processor osm_ALL))))
         (filter (fun o => negb (drop_ways o)) out) e w.
Proof.
  split; [reflexivity |].
  apply (with_filter_restricts_output drop_ways (sample_processor osm_ALL)).
  reflexivity.
Defined.

Lemma iteration_keeps_configuration_witness :
  iter_collect 6 (FileProcessor_iter (two_pass_processor sample_file [drop_ways]))
  = Some ([(node, 1, 1); (node, 2, 1); (relation, 5, 1); (area, 14, 1); (area, 11, 1)],
          Finished,
          iter_advance 6 (FileProcessor_iter (two_pass_processor sample_file [drop_ways]))) /\
  _file (self_ (iter_advance 6
                  (FileProcessor_iter (two_pass_processor sample_file [drop_ways]))))
  = _file (two_pass_processor sample_file [drop_ways]) /\
  _entities (self_ (iter_advance 6
                      (FileProcessor_iter (two_pass_processor sample_file [drop_ways]))))
  = _entities (two_pass_processor sample_file [drop_ways]) /\
  _filters (self_ (iter_advance 6
                     (FileProcessor_iter (two_pass_processor sample_file [drop_ways]))))
  = _filters (two_pass_processor sample_file [drop_ways]) /\
  closed (_reader (self_ (iter_advance 6
                            (FileProcessor_iter
                               (two_pass_processor sample_file [drop_ways])))))
  = closed (_reader (two_pass_processor sample_file [drop_ways])) /\
  (_node_store (self_ (iter_advance 6
                         (FileProcessor_iter
                            (two_pass_processor sample_file [drop_ways])))) = None
   <-> _node_store (two_pass_processor sample_file [drop_ways]) = None) /\
  (_area_handler (self_ (iter_advance 6
                           (FileProcessor_iter
                              (two_pass_processor sample_file [drop_ways])))) = None
   <-> _area_handler (two_pass_processor sample_file [drop_ways]) = None).
Proof.
  assert (Hc : iter_collect 6
                 (FileProcessor_iter (two_pass_processor sample_file [drop_ways]))
               = Some ([(node, 1, 1); (node, 2, 1); (relation, 5, 1); (area, 14, 1);
                        (area, 11, 1)],
                       Finished,
                       iter_advance 6
                         (FileProcessor_iter (two_pass_processor sample_file [drop_ways]))))
    by (vm_compute; reflexivity).
  split; [exact Hc |].
  exact (iteration_keeps_configuration 6 (two_pass_processor sample_file [drop_ways])
           _ Finished _ Hc).
Defined.

Lemma second_iteration_raises_witness :
  _area_handler (sample_processor osm_ALL) = None /\
  iter_collect 5 (FileProcessor_iter (sample_processor osm_ALL))
  = Some ([(node, 1, 1); (node, 2, 1); (way, 7, 1); (relation, 5, 1)], Finished,
          iter_advance 5 (FileProcessor_iter (sample_processor osm_ALL))) /\
  pending (_reader (self_ (iter_advance 5 (FileProcessor_iter (sample_processor osm_ALL)))))
  = spent /\
  forall m : nat,
    exists fr'' : iter_frame,
      iter_collect (S m)
        (FileProcessor_iter
           (self_ (iter_advance 5 (FileProcessor_iter (sample_processor osm_ALL)))))
      = Some ([], Failed (ExternalError reader_status_error), fr'') /\
      ipc fr'' = IDone.
Proof.
  assert (Hc : iter_collect 5 (FileProcessor_iter (sample_processor osm_ALL))
               = Some ([(node, 1, 1); (node, 2, 1); (way, 7, 1); (relation, 5, 1)],
                       Finished,
                       iter_advance 5 (FileProcessor_iter (sample_processor osm_ALL))))
    by (vm_compute; reflexivity).
  split; [reflexivity |]. split; [exact Hc |].
  exact (second_iteration_raises 5 (sample_processor osm_ALL) _ _ eq_refl Hc).
Defined.

Lemma two_pass_loses_no_area_witness :
  _area_handler (two_pass_processor sample_file [drop_ways]) = Some [] /\
  read_ending (relations_of (two_pass_processor sample_file [drop_ways])) = Finished /\
  read_ending (pending (_reader (two_pass_processor sample_file [drop_ways]))) = Finished /\
  exists (out : list Entity) (w : hstate),
    runs (FileProcessor_iter (two_pass_processor sample_file [drop_ways])) out Finished w /\
    interleaved
      (fst (fst (single_pass_spec
                   (location_handlers (two_pass_processor sample_file [drop_ways])
                    ++ [SecondPassToBuffer])
                   (_filters (two_pass_processor sample_file [drop_ways]))
                   (pending (_reader (two_pass_processor sample_file [drop_ways])))
                   (pass_two_world (two_pass_processor sample_file [drop_ways])
                      (pass_one_spec
                         (_filters (two_pass_processor sample_file [drop_ways]))
                         (relations_of (two_pass_processor sample_file [drop_ways]))
                         [])))))
      (passing (_filters (two_pass_processor sample_file [drop_ways]))
         (h_buffer
            (bookkeeping
               (location_handlers (two_pass_processor sample_file [drop_ways])
                ++ [SecondPassToBuffer])
               (pending (_reader (two_pass_processor sample_file [drop_ways])))
               (pass_two_world (two_pass_processor sample_file [drop_ways])
                  (pass_one_spec
                     (_filters (two_pass_processor sample_file [drop_ways]))
                     (relations_of (two_pass_processor sample_file [drop_ways]))
                     [])))))
      out.
Proof.
  split; [reflexivity |]. split; [reflexivity |]. split; [reflexivity |].
  apply (two_pass_loses_no_area (two_pass_processor sample_file [drop_ways]) []);
    reflexivity.
Defined.
